(** * scikit-fda: basis representation, shift registration, linear regression

    A shallow embedding of
      - [skfda/representation/basis/_basis.py]      (class [Basis]),
      - [skfda/representation/basis/_fdatabasis.py] (class [FDataBasis]),
      - [fda/registration.py]                       (shift and landmark registration),
      - [skfda/ml/regression/linear_model.py]       (argument checking of [fit]).

    Conventions.
      - Python floats are modelled by the rationals [Q]: arithmetic is exact,
        there is no NaN and no rounding.  Comparisons are the boolean ones.
      - A raised exception is a value of [result]; code that calls one of the
        numerical kernels outside the modelled files (quadrature, the
        least-squares smoother, the inner-product matrix of two bases) lives
        in the monad [M], which also records these calls in order.
      - Only one-dimensional domains and codomains exist in the source
        ([dim_domain] and [dim_codomain] return 1), so [domain_range] is the
        single interval [domain_range[0]] and the trailing axis of length 1
        of evaluation results is dropped ([keepdims=False]). *)

From Stdlib Require Import List Bool Arith ZArith QArith Qabs Qminmax Lia Lqa.
Import ListNotations.
Local Open Scope Q_scope.

(** ** Exceptions *)

Inductive exn : Set :=
| ValueError
| NotImplementedError
| IndexError
| AttributeError
| ZeroDivisionError
| LinAlgError
| TypeError.

Inductive result (A : Type) : Type :=
| Ok (a : A)
| Raise (e : exn).
Arguments Ok {A} a.
Arguments Raise {A} e.

Definition rbind {A B} (r : result A) (k : A -> result B) : result B :=
  match r with
  | Ok a => k a
  | Raise e => Raise e
  end.

Declare Scope result_scope.
Delimit Scope result_scope with result.
Notation "x <~ r ;; k" := (rbind r (fun x => k))
  (at level 61, r at next level, right associativity) : result_scope.
Local Open Scope result_scope.

Fixpoint rmap {A B} (f : A -> result B) (l : list A) : result (list B) :=
  match l with
  | [] => Ok []
  | a :: l' => b <~ f a ;; bs <~ rmap f l' ;; Ok (b :: bs)
  end.

Lemma rmap_pure {A B} (f : A -> result B) (g : A -> B) (l : list A) :
  (forall a, f a = Ok (g a)) -> rmap f l = Ok (map g l).
Proof.
  intros H. induction l as [| a l IH]; cbn; [reflexivity |]. now rewrite H, IH.
Qed.

(** ** Numbers and arrays *)

Definition Qltb (x y : Q) : bool := negb (Qle_bool y x).

(** Python's two-argument [min] and [max] keep their first argument unless
    the second is strictly smaller (resp. larger). *)
Definition py_min (x y : Q) : Q := if Qltb y x then y else x.
Definition py_max (x y : Q) : Q := if Qltb x y then y else x.

(** [numpy.min] and [numpy.max] of a one-dimensional array; both raise
    [ValueError] on an empty array. *)
Definition np_min (l : list Q) : result Q :=
  match l with
  | [] => Raise ValueError
  | x :: l' => Ok (fold_left py_min l' x)
  end.

Definition np_max (l : list Q) : result Q :=
  match l with
  | [] => Raise ValueError
  | x :: l' => Ok (fold_left py_max l' x)
  end.

Definition qsum (l : list Q) : Q := fold_right Qplus 0 l.

Definition dot (u v : list Q) : Q :=
  qsum (map (fun p => fst p * snd p) (combine u v)).

Definition column (j : nat) (m : list (list Q)) : list Q :=
  map (fun r => nth j r 0) m.

(** [numpy.tensordot(A, B, axes=(1, 0))] for two-dimensional arrays, [B]
    having [n] columns: entry [(i, j)] is the dot product of row [i] of [A]
    with column [j] of [B]. *)
Definition tensordot (A B : list (list Q)) (n : nat) : list (list Q) :=
  map (fun r => map (fun j => dot r (column j B)) (seq 0 n)) A.

(** A two-dimensional [numpy.ndarray]: the rows, and the number of columns
    kept apart so that [shape[1]] is defined for an array without rows. *)
Record ndarray : Type := mk_ndarray {
  shape1 : nat;
  rows : list (list Q)
}.

Definition shape0 (a : ndarray) : nat := length (rows a).

Definition wf_ndarray (a : ndarray) : Prop :=
  Forall (fun r => length r = shape1 a) (rows a).

(** What the callers pass as coefficients: a flat list or a matrix. *)
Inductive array_like : Type :=
| Arr1 (v : list Q)
| Arr2 (m : ndarray).

Definition atleast_2d (c : array_like) : ndarray :=
  match c with
  | Arr1 v => {| shape1 := length v; rows := [v] |}
  | Arr2 m => m
  end.

Definition transpose (a : ndarray) : ndarray :=
  {| shape1 := shape0 a;
     rows := map (fun j => column j (rows a)) (seq 0 (shape1 a)) |}.

(** The operator [@]; numpy raises [ValueError] when the inner dimensions
    differ. *)
Definition matmul (a b : ndarray) : result ndarray :=
  if (shape1 a =? shape0 b)%nat
  then Ok {| shape1 := shape1 b; rows := tensordot (rows a) (rows b) (shape1 b) |}
  else Raise ValueError.

Definition identity (n : nat) : ndarray :=
  {| shape1 := n;
     rows := map (fun i => map (fun j => if (i =? j)%nat then 1 else 0) (seq 0 n))
                 (seq 0 n) |}.

(** [numpy.repeat(a, n, axis=0)]. *)
Definition repeat_rows (a : ndarray) (n : nat) : ndarray :=
  {| shape1 := shape1 a; rows := flat_map (fun r => repeat r n) (rows a) |}.

(** Elementwise product of an [(n1, m)] and an [(n2, m)] array with numpy
    broadcasting along the first axis. *)
Definition broadcast_mul (x y : list (list Q)) : result (list (list Q)) :=
  let mul_row r s := map (fun p => fst p * snd p) (combine r s) in
  if (length x =? length y)%nat then Ok (map (fun p => mul_row (fst p) (snd p)) (combine x y))
  else match x, y with
       | [r], _ => Ok (map (mul_row r) y)
       | _, [s] => Ok (map (fun r => mul_row r s) x)
       | _, _ => Raise ValueError
       end.

(** [coefficients * coefs] where [coefs] is the column [numpy.transpose
    (numpy.atleast_2d(other))] of a flat list [other]. *)
Definition broadcast_col_mul (a : ndarray) (col : list Q) : result ndarray :=
  let scale r c := map (fun x => x * c) r in
  if (shape0 a =? length col)%nat
  then Ok {| shape1 := shape1 a;
             rows := map (fun p => scale (fst p) (snd p)) (combine (rows a) col) |}
  else match rows a, col with
       | [r], _ => Ok {| shape1 := shape1 a; rows := map (scale r) col |}
       | _, [c] => Ok {| shape1 := shape1 a; rows := map (fun r => scale r c) (rows a) |}
       | _, _ => Raise ValueError
       end.

(** [numpy.linspace(start, stop, num)]: [num] evenly spaced points, the last
    one being [stop] itself. *)
Definition linspace (start stop : Q) (num : nat) : list Q :=
  match num with
  | O => []
  | S O => [start]
  | S (S _ as div) =>
      map (fun i => start + inject_Z (Z.of_nat i) * ((stop - start) / inject_Z (Z.of_nat div)))
          (seq 0 div) ++ [stop]
  end.

Module constants.
(** Modelled from the spec: the module [skfda._utils.constants] is not
    among the sources.  The values are the documented defaults
    ([N_POINTS_COARSE_MESH=201], [N_POINTS_FINE_MESH=501],
    [BASIS_MIN_FACTOR=10]); the docstrings of [shift] and [to_grid] in
    [_fdatabasis.py] state the same numbers ("the maximum between 201 and
    10 times the number of basis plus 1", "the maximum between 501 and 10
    times the number of basis"). *)
Definition BASIS_MIN_FACTOR : nat := 10.
Definition N_POINTS_COARSE_MESH : nat := 201.
Definition N_POINTS_FINE_MESH : nat := 501.
End constants.

(** ** Facts about minima and maxima *)

Lemma Qltb_lt (x y : Q) : Qltb x y = true <-> x < y.
Proof.
  unfold Qltb. rewrite negb_true_iff. split.
  - intros H. apply Qnot_le_lt. intros Hle. apply Qle_bool_iff in Hle. congruence.
  - intros H. destruct (Qle_bool y x) eqn:Hle; [| reflexivity].
    apply Qle_bool_iff in Hle. exfalso. exact (Qlt_not_le _ _ H Hle).
Qed.

Lemma py_max_spec (x y : Q) :
  (py_max x y = x \/ py_max x y = y) /\ x <= py_max x y /\ y <= py_max x y.
Proof.
  unfold py_max. destruct (Qltb x y) eqn:H.
  - apply Qltb_lt in H. repeat split; [now right | now apply Qlt_le_weak | apply Qle_refl].
  - repeat split; [now left | apply Qle_refl |].
    apply Qnot_lt_le. intros Hlt. apply Qltb_lt in Hlt. congruence.
Qed.

Lemma py_min_spec (x y : Q) :
  (py_min x y = x \/ py_min x y = y) /\ py_min x y <= x /\ py_min x y <= y.
Proof.
  unfold py_min. destruct (Qltb y x) eqn:H.
  - apply Qltb_lt in H. repeat split; [now right | now apply Qlt_le_weak | apply Qle_refl].
  - repeat split; [now left | apply Qle_refl |].
    apply Qnot_lt_le. intros Hlt. apply Qltb_lt in Hlt. congruence.
Qed.

(** [min(x, 0)] and [max(x, 0)] of the source are the minimum and the
    maximum of 0 and [x]. *)
Lemma py_min_Qmin (x : Q) : py_min x 0 == Qmin 0 x.
Proof.
  unfold py_min. destruct (Qltb 0 x) eqn:H.
  - apply Qltb_lt in H. symmetry. apply Q.min_l. now apply Qlt_le_weak.
  - symmetry. apply Q.min_r. apply Qnot_lt_le. intros Hlt. apply Qltb_lt in Hlt. congruence.
Qed.

Lemma py_max_Qmax (x : Q) : py_max x 0 == Qmax 0 x.
Proof.
  unfold py_max. destruct (Qltb x 0) eqn:H.
  - apply Qltb_lt in H. symmetry. apply Q.max_l. now apply Qlt_le_weak.
  - symmetry. apply Q.max_r. apply Qnot_lt_le. intros Hlt. apply Qltb_lt in Hlt. congruence.
Qed.

(** [m] is an element of [l] below (resp. above) all the others. *)
Definition is_least (m : Q) (l : list Q) : Prop := In m l /\ forall x, In x l -> m <= x.
Definition is_greatest (m : Q) (l : list Q) : Prop := In m l /\ forall x, In x l -> x <= m.

Lemma fold_py_max (l : list Q) (x : Q) : is_greatest (fold_left py_max l x) (x :: l).
Proof.
  revert x. induction l as [| y l IH]; intros x; cbn [fold_left].
  - split; [now left |]. intros z [<- | []]. apply Qle_refl.
  - destruct (IH (py_max x y)) as [Hin Hub].
    destruct (py_max_spec x y) as (Hcase & Hx & Hy). split.
    + destruct Hin as [Hin | Hin]; [| right; now right].
      rewrite <- Hin. destruct Hcase as [-> | ->]; [now left | right; now left].
    + intros z [<- | [<- | Hz]].
      * eapply Qle_trans; [exact Hx | apply Hub; now left].
      * eapply Qle_trans; [exact Hy | apply Hub; now left].
      * apply Hub. now right.
Qed.

Lemma fold_py_min (l : list Q) (x : Q) : is_least (fold_left py_min l x) (x :: l).
Proof.
  revert x. induction l as [| y l IH]; intros x; cbn [fold_left].
  - split; [now left |]. intros z [<- | []]. apply Qle_refl.
  - destruct (IH (py_min x y)) as [Hin Hlb].
    destruct (py_min_spec x y) as (Hcase & Hx & Hy). split.
    + destruct Hin as [Hin | Hin]; [| right; now right].
      rewrite <- Hin. destruct Hcase as [-> | ->]; [now left | right; now left].
    + intros z [<- | [<- | Hz]].
      * eapply Qle_trans; [apply Hlb; now left | exact Hx].
      * eapply Qle_trans; [apply Hlb; now left | exact Hy].
      * apply Hlb. now right.
Qed.

Lemma np_max_spec (l : list Q) (m : Q) : np_max l = Ok m -> is_greatest m l.
Proof.
  destruct l as [| x l]; cbn; [discriminate |]. intros [= <-]. apply fold_py_max.
Qed.

Lemma np_min_spec (l : list Q) (m : Q) : np_min l = Ok m -> is_least m l.
Proof.
  destruct l as [| x l]; cbn; [discriminate |]. intros [= <-]. apply fold_py_min.
Qed.

(** ** [_basis.py] and [_fdatabasis.py] *)

Section FDataBasisModel.

(** The concrete subclasses of the abstract class [Basis] (monomial,
    Fourier, B-spline, constant, ...) are not among the sources: [family]
    stands for [type(self)], and the abstract methods and the kernels the
    code calls are the variables below. *)
Context {family : Type}.
Variable family_eqb : family -> family -> bool.

Record Basis : Type := mk_Basis {
  basis_type : family;
  _domain_range : option (Q * Q);
  n_basis : nat
}.

(** The property [Basis.domain_range]: [(0, 1)] when none was given. *)
Definition domain_range (b : Basis) : Q * Q :=
  match _domain_range b with
  | None => (0, 1)
  | Some d => d
  end.

(** [_check_domain]: the interval must satisfy [domain[0] < domain[1]]. *)
Definition _check_domain (d : Q * Q) : result unit :=
  if Qle_bool (snd d) (fst d) then Raise ValueError else Ok tt.

(** [Basis.__init__]. *)
Definition Basis__init__ (ty : family) (dr : option (Q * Q)) (n : nat)
  : result Basis :=
  _ <~ match dr with
       | Some d => _check_domain d
       | None => Ok tt
       end ;;
  if (n <? 1)%nat then Raise ValueError
  else Ok {| basis_type := ty; _domain_range := dr; n_basis := n |}.

(** [_same_domain]: [numpy.array_equal] of the two domain ranges. *)
Definition _same_domain (one other : Q * Q) : bool :=
  Qeq_bool (fst one) (fst other) && Qeq_bool (snd one) (snd other).

(** [Basis.__eq__]. *)
Definition Basis__eq__ (self other : Basis) : bool :=
  family_eqb (basis_type self) (basis_type other)
  && _same_domain (domain_range self) (domain_range other)
  && (n_basis self =? n_basis other)%nat.

(** [Basis.copy] is a deep copy of an immutable value. *)
Definition Basis_copy (self : Basis) : Basis := self.

(** [Basis.rescale]: [type(self)(domain_range, self.n_basis)].
    Modelled from the spec: the subclass constructor is not among the
    sources; "same family and [n_basis], [domain_range] replaced", built by
    [Basis.__init__]. *)
Definition rescale (self : Basis) (dr : option (Q * Q)) : result Basis :=
  let dr := match dr with
            | None => domain_range self
            | Some d => d
            end in
  Basis__init__ (basis_type self) (Some dr) (n_basis self).

(** The abstract methods [Basis._evaluate] (one row per basis function,
    one column per point), [Basis._derivative] and [Basis.basis_of_product]. *)
Variable Basis__evaluate : Basis -> list Q -> Z -> list (list Q).
Variable Basis__derivative : Basis -> ndarray -> Z -> Basis * ndarray.
Variable basis_of_product : Basis -> Basis -> result Basis.

(** [Basis.evaluate].  The test for NaN points has no counterpart on [Q]. *)
Definition Basis_evaluate (self : Basis) (eval_points : list Q) (derivative : Z)
  : result (list (list Q)) :=
  if (derivative <? 0)%Z then Raise ValueError
  else Ok (Basis__evaluate self eval_points derivative).

(** [Basis.default_basis_of_product], up to the B-spline constructor: the
    order and the size of the product basis. *)
Definition default_basis_of_product_size (one other : Basis) : result (nat * nat) :=
  if negb (_same_domain (domain_range one) (domain_range other))
  then Raise ValueError
  else
    let norder := Nat.min 8 (n_basis one + n_basis other) in
    let n := Nat.max (n_basis one + n_basis other) (norder + 1) in
    Ok (n, norder).

(** *** The monad of kernel calls *)

Inductive kernel_call : Type :=
| call_inner_matrix (b1 b2 : Basis)
| call_quad (left right : Q)
| call_smoother (data_matrix : list (list Q)) (sample_points : list Q) (b : Basis).

Definition M (A : Type) : Type := (list kernel_call * result A)%type.

Definition ret {A} (a : A) : M A := ([], Ok a).
Definition raise {A} (e : exn) : M A := ([], Raise e).
Definition lift {A} (r : result A) : M A := ([], r).
Definition kernel {A} (c : kernel_call) (r : result A) : M A := ([c], r).

Definition bind {A B} (m : M A) (k : A -> M B) : M B :=
  match m with
  | (l, Ok a) => let (l', r) := k a in (l ++ l', r)
  | (l, Raise e) => (l, Raise e)
  end.

Definition calls {A} (m : M A) : list kernel_call := fst m.
Definition outcome {A} (m : M A) : result A := snd m.

Notation "x <- m ;; k" := (bind m (fun x => k))
  (at level 61, m at next level, right associativity).

Fixpoint mmap {A B} (f : A -> M B) (l : list A) : M (list B) :=
  match l with
  | [] => ret []
  | a :: l' => b <- f a ;; bs <- mmap f l' ;; ret (b :: bs)
  end.

(** The kernels.  [Basis._inner_matrix] returns the Gram matrix of the
    basis, which the families compute in their own way and which is cached
    on the basis object, or the matrix of the pairwise inner products of
    the functions of two bases; it is taken as a whole, the log recording
    the call and not what happens inside.  [scipy.integrate.quad] and
    [BasisSmoother(...).fit_transform], which returns the coefficient matrix
    of the least-squares fit, are outside the modelled files. *)
Variable Basis__inner_matrix : Basis -> Basis -> result ndarray.
Variable quad : (Q -> Q) -> Q -> Q -> Q.
Variable BasisSmoother_fit_transform :
  list (list Q) -> list Q -> Basis -> result ndarray.

(** *** [FDataBasis] *)

(** The attributes handled by the base class [FData] (labels,
    extrapolation, keepdims) play no role below and are left out;
    [extrapolation] is [None] throughout. *)
Record FDataBasis : Type := mk_FDataBasis {
  basis : Basis;
  coefficients : ndarray
}.

(** [FDataBasis.__init__]. *)
Definition FDataBasis__init__ (b : Basis) (coefs : array_like) : result FDataBasis :=
  let coefs := atleast_2d coefs in
  if negb (shape1 coefs =? n_basis b)%nat then Raise ValueError
  else Ok {| basis := b; coefficients := coefs |}.

Definition n_samples (self : FDataBasis) : nat := shape0 (coefficients self).
Definition fd_n_basis (self : FDataBasis) : nat := n_basis (basis self).
Definition fd_domain_range (self : FDataBasis) : Q * Q := domain_range (basis self).

(** [Basis.to_basis]. *)
Definition to_basis (self : Basis) : result FDataBasis :=
  FDataBasis__init__ (Basis_copy self) (Arr2 (identity (n_basis self))).

(** [FDataBasis.from_data]: the data and the sample points go to the
    smoother, which returns the object built on [basis] from the fitted
    coefficients. *)
Definition from_data (data_matrix : list (list Q)) (sample_points : list Q)
           (b : Basis) : M FDataBasis :=
  coefs <- kernel (call_smoother data_matrix sample_points b)
                  (BasisSmoother_fit_transform data_matrix sample_points b) ;;
  lift (FDataBasis__init__ b (Arr2 coefs)).

(** [FDataBasis._evaluate]. *)
Definition _evaluate (self : FDataBasis) (eval_points : list Q) (derivative : Z)
  : result (list (list Q)) :=
  basis_values <~ Basis_evaluate (basis self) eval_points derivative ;;
  Ok (tensordot (rows (coefficients self)) basis_values (length eval_points)).

(** [FDataBasis._evaluate_composed]: for every sample [i] in turn, the
    sample at row [i] of [eval_points]; the read [eval_points[i]] of a row
    that is not there is an [IndexError]. *)
Definition _evaluate_composed (self : FDataBasis) (eval_points : list (list Q))
           (derivative : Z) : result (list (list Q)) :=
  rmap (fun i =>
          match nth_error eval_points i with
          | None => Raise IndexError
          | Some points =>
              basis_values <~ Basis_evaluate (basis self) points derivative ;;
              Ok (map (fun j => dot (column j basis_values)
                                    (nth i (rows (coefficients self)) []))
                      (seq 0 (length points)))
          end)
       (seq 0 (n_samples self)).

(** Modelled from the spec: [FData.evaluate] is not among the sources; with
    no extrapolation it hands a shared point set to [_evaluate] and a
    matrix of per-sample points ([aligned_evaluation=False]) to
    [_evaluate_composed]. *)
Definition evaluate (self : FDataBasis) (eval_points : list Q) (derivative : Z)
  : result (list (list Q)) :=
  _evaluate self eval_points derivative.

Definition evaluate_unaligned (self : FDataBasis) (eval_points : list (list Q))
           (derivative : Z) : result (list (list Q)) :=
  _evaluate_composed self eval_points derivative.

(** [FDataBasis.copy]. *)
Definition copy (self : FDataBasis) (b : option Basis) (coefs : option array_like)
  : result FDataBasis :=
  let b := match b with
           | None => Basis_copy (basis self)
           | Some b => b
           end in
  let coefs := match coefs with
               | None => Arr2 (coefficients self)
               | Some c => c
               end in
  FDataBasis__init__ b coefs.

(** [FDataBasis.__getitem__] at an integer key of [range(n_samples)]:
    [coefficients[key:key + 1]]. *)
Definition getitem (self : FDataBasis) (key : nat) : result FDataBasis :=
  copy self None
       (Some (Arr2 {| shape1 := shape1 (coefficients self);
                      rows := firstn 1 (skipn key (rows (coefficients self))) |})).

Inductive times_operand : Type :=
| TFData (other : FDataBasis)
| TInt (other : Z)
| TList (other : list Q).

(** The size of the evaluation grid of [times]. *)
Definition times_neval (self other : FDataBasis) : nat :=
  Nat.max (constants.BASIS_MIN_FACTOR * Nat.max (fd_n_basis self) (fd_n_basis other) + 1)
          constants.N_POINTS_COARSE_MESH.

(** [FDataBasis.times]. *)
Definition times (self : FDataBasis) (other : times_operand) : M FDataBasis :=
  match other with
  | TFData other =>
      if negb (_same_domain (fd_domain_range self) (fd_domain_range other))
      then raise ValueError
      else
        basisobj <- lift (basis_of_product (basis self) (basis other)) ;;
        let neval := times_neval self other in
        let '(left_, right_) := fd_domain_range self in
        let evalarg := linspace left_ right_ neval in
        first <- lift (copy self None
                         (Some (Arr2 (if (n_samples self =? 1)%nat && (1 <? n_samples other)%nat
                                      then repeat_rows (coefficients self) (n_samples other)
                                      else coefficients self)))) ;;
        second <- lift (copy other None
                          (Some (Arr2 (if (n_samples other =? 1)%nat && (1 <? n_samples self)%nat
                                       then repeat_rows (coefficients other) (n_samples self)
                                       else coefficients other)))) ;;
        v1 <- lift (evaluate first evalarg 0) ;;
        v2 <- lift (evaluate second evalarg 0) ;;
        fdarray <- lift (broadcast_mul v1 v2) ;;
        from_data fdarray evalarg basisobj
  | TInt z =>
      coefs <- lift (broadcast_col_mul (coefficients self)
                                       (repeat (inject_Z z) (n_samples self))) ;;
      lift (copy self None (Some (Arr2 coefs)))
  | TList l =>
      coefs <- lift (broadcast_col_mul (coefficients self) l) ;;
      lift (copy self None (Some (Arr2 coefs)))
  end.

(** Modelled from the spec: the class [LinearDifferentialOperator] is not
    among the sources; "order integer >= 0 ... treated as an opaque tag". *)
Inductive Lfd : Type := LinearDifferentialOperator (order : nat).

(** The integrand [lambda x: fd.evaluate([x])[0]] of
    [_inner_product_integrate]. *)
Definition integrand (fd : FDataBasis) (x : Q) : Q :=
  match evaluate fd [x] 0 with
  | Ok ((v :: _) :: _) => v
  | _ => 0
  end.

(** [FDataBasis._inner_product_integrate]. *)
Definition _inner_product_integrate (self other : FDataBasis)
           (lfd_self lfd_other : Lfd) : M ndarray :=
  let '(left_, right_) := fd_domain_range self in
  matrix <- mmap (fun i =>
              mmap (fun j =>
                      si <- lift (getitem self i) ;;
                      oj <- lift (getitem other j) ;;
                      fd <- times si (TFData oj) ;;
                      kernel (call_quad left_ right_)
                             (Ok (quad (integrand fd) left_ right_)))
                   (seq 0 (n_samples other)))
            (seq 0 (n_samples self)) ;;
  ret {| shape1 := n_samples other; rows := matrix |}.

Inductive inner_product_operand : Type :=
| IPFData (other : FDataBasis)
| IPBasis (other : Basis).

(** The test of the dispatch in [inner_product]. *)
Definition matrix_path (self other : FDataBasis) : bool :=
  (fd_n_basis self * fd_n_basis other <? n_samples self * n_samples other)%nat.

(** [other.domain_range], for either kind of operand. *)
Definition operand_domain_range (other : inner_product_operand) : Q * Q :=
  match other with
  | IPFData fd => fd_domain_range fd
  | IPBasis b => domain_range b
  end.

(** [FDataBasis.inner_product]. *)
Definition inner_product (self : FDataBasis) (other : inner_product_operand)
           (lfd_self lfd_other : option Lfd) (weights : option FDataBasis)
  : M ndarray :=
  if negb (_same_domain (fd_domain_range self) (operand_domain_range other))
  then raise ValueError
  else
    other <- lift match other with
                  | IPFData fd => Ok fd
                  | IPBasis b => to_basis b
                  end ;;
    let lfd_self := match lfd_self with
                    | None => LinearDifferentialOperator 0
                    | Some l => l
                    end in
    let lfd_other := match lfd_other with
                     | None => LinearDifferentialOperator 0
                     | Some l => l
                     end in
    other <- match weights with
             | Some w => times other (TFData w)
             | None => ret other
             end ;;
    if matrix_path self other
    then
      inner <- kernel (call_inner_matrix (basis self) (basis other))
                      (Basis__inner_matrix (basis self) (basis other)) ;;
      lift (cm <~ matmul (coefficients self) inner ;;
            matmul cm (transpose (coefficients other)))
    else _inner_product_integrate self other lfd_self lfd_other.

Inductive shifts_operand : Type :=
| ShiftScalar (s : Q)
| ShiftVector (v : list Q).

(** The interval and the evaluation points kept by [shift] under
    [restrict_domain=True]. *)
Definition restricted_domain (dr : Q * Q) (shifts : list Q) : result (Q * Q) :=
  lo <~ np_min shifts ;;
  hi <~ np_max shifts ;;
  let a := fst dr - py_min lo 0 in
  let b := snd dr - py_max hi 0 in
  Ok (a, b).

Definition inside (domain : Q * Q) (t : Q) : bool :=
  Qle_bool (fst domain) t && Qle_bool t (snd domain).

(** The default grid of [shift]. *)
Definition shift_nfine (self : FDataBasis) : nat :=
  Nat.max (fd_n_basis self * 10 + 1) constants.N_POINTS_COARSE_MESH.

(** [FDataBasis.shift]. *)
Definition shift (self : FDataBasis) (shifts : shifts_operand)
           (restrict_domain : bool) (eval_points : option (list Q))
  : M FDataBasis :=
  let domain_range := fd_domain_range self in
  let eval_points :=
    match eval_points with
    | None => linspace (fst domain_range) (snd domain_range) (shift_nfine self)
    | Some pts => pts
    end in
  match shifts with
  | ShiftScalar s =>
      _basis <- lift (rescale (basis self)
                              (Some (fst domain_range + s, snd domain_range + s))) ;;
      data_matrix <- lift (evaluate self eval_points 0) ;;
      from_data data_matrix (map (fun t => t + s) eval_points) _basis
  | ShiftVector v =>
      if negb (length v =? n_samples self)%nat then raise ValueError
      else
        restricted <- lift (if restrict_domain
                            then domain <~ restricted_domain domain_range v ;;
                                 Ok (domain, filter (inside domain) eval_points)
                            else Ok (domain_range, eval_points)) ;;
        let '(domain, eval_points) := restricted in
        let points_shifted := map (fun s => map (fun t => t + s) eval_points) v in
        _data_matrix <- lift (evaluate_unaligned self points_shifted 0) ;;
        _basis <- lift (rescale (basis self) (Some domain)) ;;
        from_data _data_matrix eval_points _basis
  end.

(** [FDataBasis.derivative]. *)
Definition derivative (self : FDataBasis) (order : Z) : result FDataBasis :=
  if (order <? 0)%Z then Raise ValueError
  else if (order =? 0)%Z then copy self None None
  else let '(b, coefs) := Basis__derivative (basis self) (coefficients self) order in
       FDataBasis__init__ b (Arr2 coefs).

(** [numpy.mean(a, axis=0)] and [numpy.average(a, weights=w, axis=0)]. *)
Definition np_mean0 (a : ndarray) : list Q :=
  map (fun j => qsum (column j (rows a)) / inject_Z (Z.of_nat (shape0 a)))
      (seq 0 (shape1 a)).

Definition np_average0 (a : ndarray) (w : list Q) : result (list Q) :=
  if negb (length w =? shape0 a)%nat then Raise ValueError
  else if Qeq_bool (qsum w) 0 then Raise ZeroDivisionError
  else Ok (map (fun j => dot (column j (rows a)) w / qsum w) (seq 0 (shape1 a))).

(** [FDataBasis.mean]. *)
Definition mean (self : FDataBasis) (weights : option (list Q)) : result FDataBasis :=
  match weights with
  | Some w =>
      avg <~ np_average0 (coefficients self) w ;;
      copy self None (Some (Arr2 {| shape1 := length avg; rows := [avg] |}))
  | None => copy self None (Some (Arr1 (np_mean0 (coefficients self))))
  end.

(** [numpy.concatenate(data, axis=0)]. *)
Definition np_concatenate0 (data : list ndarray) : result ndarray :=
  match data with
  | [] => Raise ValueError
  | a :: others =>
      if forallb (fun o => (shape1 o =? shape1 a)%nat) others
      then Ok {| shape1 := shape1 a; rows := flat_map rows data |}
      else Raise ValueError
  end.

(** [FDataBasis.concatenate] (with [as_coordinates=False]). *)
Definition concatenate (self : FDataBasis) (others : list FDataBasis)
  : result FDataBasis :=
  if forallb (fun other => Basis__eq__ (basis other) (basis self)) others
  then data <~ np_concatenate0 (coefficients self :: map coefficients others) ;;
       copy self None (Some (Arr2 data))
  else Raise ValueError.

(** The operand of the arithmetic operators. *)
Inductive operand : Type :=
| OpFData (other : FDataBasis)
| OpScalar (other : Q)
| OpList (other : list Q).

(** [coefs1 + coefs2] and [coefs1 - coefs2] with numpy broadcasting. *)
Definition broadcast_op (op : Q -> Q -> Q) (x y : ndarray) : result ndarray :=
  let op_row r s := map (fun p => op (fst p) (snd p)) (combine r s) in
  if negb (shape1 x =? shape1 y)%nat then Raise ValueError
  else if (shape0 x =? shape0 y)%nat
       then Ok {| shape1 := shape1 x;
                  rows := map (fun p => op_row (fst p) (snd p)) (combine (rows x) (rows y)) |}
       else match rows x, rows y with
            | [r], ys => Ok {| shape1 := shape1 x; rows := map (op_row r) ys |}
            | xs, [s] => Ok {| shape1 := shape1 x; rows := map (fun r => op_row r s) xs |}
            | _, _ => Raise ValueError
            end.

(** [coefs[:, 0] = coefs[:, 0] + constant] (resp. [-]) on a copy.  The
    assignment keeps the element type of [coefs]: the entries written are
    the exact sums for an array of floats, and for an array of integers
    when the constant is an integer (a fractional sum is truncated
    there). *)
Definition column0_op (op : Q -> Q -> Q) (coefs : ndarray) (constant : list Q)
  : result ndarray :=
  let upd r c := match r with
                 | [] => []
                 | c0 :: r' => op c0 c :: r'
                 end in
  if (shape1 coefs =? 0)%nat then Raise IndexError
  else match constant with
       | [c] => Ok {| shape1 := shape1 coefs; rows := map (fun r => upd r c) (rows coefs) |}
       | _ => if (length constant =? shape0 coefs)%nat
              then Ok {| shape1 := shape1 coefs;
                         rows := map (fun p => upd (fst p) (snd p))
                                     (combine (rows coefs) constant) |}
              else Raise ValueError
       end.

(** [Basis._add_same_basis], [_add_constant], [_sub_same_basis],
    [_sub_constant] and [_mul_constant]. *)
Definition _add_same_basis (self : Basis) (coefs1 coefs2 : ndarray) :=
  coefs <~ broadcast_op Qplus coefs1 coefs2 ;; Ok (Basis_copy self, coefs).
Definition _add_constant (self : Basis) (coefs : ndarray) (constant : list Q) :=
  coefs <~ column0_op Qplus coefs constant ;; Ok (Basis_copy self, coefs).
Definition _sub_same_basis (self : Basis) (coefs1 coefs2 : ndarray) :=
  coefs <~ broadcast_op Qminus coefs1 coefs2 ;; Ok (Basis_copy self, coefs).
Definition _sub_constant (self : Basis) (coefs : ndarray) (other : list Q) :=
  coefs <~ column0_op Qminus coefs other ;; Ok (Basis_copy self, coefs).
Definition _mul_constant (self : Basis) (coefs : ndarray) (other : list Q) :=
  coefs <~ broadcast_col_mul coefs other ;; Ok (Basis_copy self, coefs).

Definition as_list (o : operand) : list Q :=
  match o with
  | OpScalar q => [q]
  | OpList l => l
  | OpFData _ => []
  end.

(** [FDataBasis.__add__], [__sub__], [__mul__] and [__rsub__]. *)
Definition __add__ (self : FDataBasis) (other : operand) : result FDataBasis :=
  bc <~ match other with
        | OpFData o =>
            if negb (Basis__eq__ (basis self) (basis o)) then Raise NotImplementedError
            else _add_same_basis (basis self) (coefficients self) (coefficients o)
        | _ => _add_constant (basis self) (coefficients self) (as_list other)
        end ;;
  copy self (Some (fst bc)) (Some (Arr2 (snd bc))).

Definition __sub__ (self : FDataBasis) (other : operand) : result FDataBasis :=
  bc <~ match other with
        | OpFData o =>
            if negb (Basis__eq__ (basis self) (basis o)) then Raise NotImplementedError
            else _sub_same_basis (basis self) (coefficients self) (coefficients o)
        | _ => _sub_constant (basis self) (coefficients self) (as_list other)
        end ;;
  copy self (Some (fst bc)) (Some (Arr2 (snd bc))).

Definition __mul__ (self : FDataBasis) (other : operand) : result FDataBasis :=
  match other with
  | OpFData _ => Raise NotImplementedError
  | _ =>
      bc <~ _mul_constant (basis self) (coefficients self) (as_list other) ;;
      copy self (Some (fst bc)) (Some (Arr2 (snd bc)))
  end.

Definition __rsub__ (self : FDataBasis) (other : operand) : result FDataBasis :=
  neg <~ __mul__ self (OpScalar (-1)) ;;
  __add__ neg other.


(** *** Indexing, splitting, division *)

(** Python's slice [l[start:stop]] with integer bounds: a negative bound
    counts from the end, and both bounds are clipped to the list. *)
Definition slice_bound (n : nat) (i : Z) : nat :=
  Z.to_nat (Z.min (Z.max (if (i <? 0)%Z then i + Z.of_nat n else i) 0) (Z.of_nat n)).

Definition py_slice {A} (l : list A) (start stop : Z) : list A :=
  let s := slice_bound (length l) start in
  let e := slice_bound (length l) stop in
  firstn (e - s) (skipn s l).

(** [FDataBasis.__getitem__] at any integer key:
    [self.copy(coefficients=self.coefficients[key:key + 1])]. *)
Definition getitem_int (self : FDataBasis) (key : Z) : result FDataBasis :=
  copy self None
       (Some (Arr2 {| shape1 := shape1 (coefficients self);
                      rows := py_slice (rows (coefficients self)) key (key + 1) |})).

(** [FDataBasis.to_list]: [[self[i] for i in range(self.n_samples)]]. *)
Definition to_list (self : FDataBasis) : result (list FDataBasis) :=
  rmap (getitem self) (seq 0 (n_samples self)).

(** [FDataBasis.__truediv__] by a number or a list of numbers:
    [self * (1 / numpy.array(other))].  On [Q] the inverse of 0 is 0, where
    numpy gives an infinity with a warning: what is proved about it takes a
    non-zero divisor. *)
Definition __truediv__ (self : FDataBasis) (other : list Q) : result FDataBasis :=
  __mul__ self (OpList (map Qinv other)).

(** *** The Gram matrix and the inner-product matrix of two bases *)

(** [numpy.zeros((n, m))]. *)
Definition zeros (n m : nat) : list (list Q) := repeat (repeat 0 m) n.

Fixpoint update {A} (i : nat) (f : A -> A) (l : list A) : list A :=
  match l, i with
  | [], _ => []
  | a :: l', O => f a :: l'
  | a :: l', S i' => a :: update i' f l'
  end.

(** [a[i, j]] and [a[i, j] = v]: numpy raises [IndexError] outside the
    array. *)
Definition get_entry (a : list (list Q)) (i j : nat) : result Q :=
  match nth_error a i with
  | Some r => match nth_error r j with
              | Some v => Ok v
              | None => Raise IndexError
              end
  | None => Raise IndexError
  end.

Definition set_entry (a : list (list Q)) (i j : nat) (v : Q) : result (list (list Q)) :=
  _ <~ get_entry a i j ;;
  Ok (update i (update j (fun _ => v)) a).

(** What [a[i, j] = m] stores for a matrix [m]: numpy takes the element of
    an array that has exactly one, and raises [ValueError] otherwise. *)
Definition item (m : ndarray) : result Q :=
  match rows m with
  | [[v]] => Ok v
  | _ => Raise ValueError
  end.

(** A [for] loop that updates a local variable. *)
Fixpoint mfold {A S} (f : S -> A -> M S) (l : list A) (s : S) : M S :=
  match l with
  | [] => ret s
  | a :: l' => s' <- f s a ;; mfold f l' s'
  end.

(** [Basis._gram_matrix]. *)
Definition _gram_matrix (self : Basis) : M ndarray :=
  fbasis <- lift (to_basis self) ;;
  let gram := zeros (n_basis self) (n_basis self) in
  gram <- mfold (fun gram i =>
                   mfold (fun gram j =>
                            fi <- lift (getitem fbasis i) ;;
                            fj <- lift (getitem fbasis j) ;;
                            m <- inner_product fi (IPFData fj) None None None ;;
                            lift (v <~ item m ;;
                                  gram <~ set_entry gram i j v ;;
                                  gij <~ get_entry gram i j ;;
                                  set_entry gram j i gij))
                         (seq i (fd_n_basis fbasis - i)) gram)
                (seq 0 (fd_n_basis fbasis)) gram ;;
  ret {| shape1 := n_basis self; rows := gram |}.

(** [Basis.gram_matrix]: the attribute [_gram_matrix_cached] of the basis
    object is the argument [cached], and its value on return is the second
    component of the result. *)
Definition gram_matrix (self : Basis) (cached : option ndarray)
  : M (ndarray * option ndarray) :=
  match cached with
  | Some gram => ret (gram, cached)
  | None => gram <- _gram_matrix self ;; ret (gram, Some gram)
  end.

(** [Basis._inner_matrix]. *)
Definition _inner_matrix (self : Basis) (other : option Basis) (cached : option ndarray)
  : M (ndarray * option ndarray) :=
  match other with
  | None => gram_matrix self cached
  | Some other =>
      if Basis__eq__ self other then gram_matrix self cached
      else
        first <- lift (to_basis self) ;;
        second <- lift (to_basis other) ;;
        let inner := zeros (n_basis self) (n_basis other) in
        inner <- mfold (fun inner i =>
                          mfold (fun inner j =>
                                   fi <- lift (getitem first i) ;;
                                   sj <- lift (getitem second j) ;;
                                   m <- inner_product fi (IPFData sj) None None None ;;
                                   lift (v <~ item m ;; set_entry inner i j v))
                                (seq 0 (n_basis other)) inner)
                       (seq 0 (n_basis self)) inner ;;
        ret ({| shape1 := n_basis other; rows := inner |}, cached)
  end.

(** [Basis.inner_product]. *)
Definition Basis_inner_product (self : Basis) (other : inner_product_operand) : M ndarray :=
  fd <- lift (to_basis self) ;;
  inner_product fd other None None None.

(** *** Facts about the monad of kernel calls *)

Lemma calls_bind {A B} (m : M A) (k : A -> M B) :
  calls (bind m k) =
  calls m ++ match outcome m with
             | Ok a => calls (k a)
             | Raise _ => []
             end.
Proof.
  destruct m as [l [a | e]]; cbn.
  - destruct (k a); reflexivity.
  - now rewrite app_nil_r.
Qed.

Lemma outcome_bind {A B} (m : M A) (k : A -> M B) :
  outcome (bind m k) =
  match outcome m with
  | Ok a => outcome (k a)
  | Raise e => Raise e
  end.
Proof.
  destruct m as [l [a | e]]; cbn; [destruct (k a) |]; reflexivity.
Qed.

Lemma bind_lift {A B} (r : result A) (k : A -> M B) :
  bind (lift r) k = match r with
                    | Ok a => k a
                    | Raise e => ([], Raise e)
                    end.
Proof.
  destruct r as [a | e]; cbn; [destruct (k a) |]; reflexivity.
Qed.

Lemma Forall_calls_bind {A B} (P : kernel_call -> Prop) (m : M A) (k : A -> M B) :
  Forall P (calls m) ->
  (forall a, Forall P (calls (k a))) ->
  Forall P (calls (bind m k)).
Proof.
  intros Hm Hk. rewrite calls_bind. apply Forall_app. split; [assumption |].
  destruct (outcome m); [apply Hk | constructor].
Qed.

Lemma Forall_calls_lift {A} (P : kernel_call -> Prop) (r : result A) :
  Forall P (calls (lift r)).
Proof. constructor. Qed.

Lemma Forall_calls_mmap {A B} (P : kernel_call -> Prop) (f : A -> M B) (l : list A) :
  (forall a, Forall P (calls (f a))) ->
  Forall P (calls (mmap f l)).
Proof.
  intros Hf. induction l as [| a l IH]; cbn [mmap].
  - constructor.
  - apply Forall_calls_bind; [apply Hf | intros b].
    apply Forall_calls_bind; [apply IH | intros bs; constructor].
Qed.

Definition is_inner_matrix_call (c : kernel_call) : bool :=
  match c with
  | call_inner_matrix _ _ => true
  | _ => false
  end.

Definition is_quad_call (c : kernel_call) : bool :=
  match c with
  | call_quad _ _ => true
  | _ => false
  end.

Definition is_smoother_call (c : kernel_call) : bool :=
  match c with
  | call_smoother _ _ _ => true
  | _ => false
  end.

Definition count_quad (l : list kernel_call) : nat := length (filter is_quad_call l).

Lemma count_quad_app l1 l2 : count_quad (l1 ++ l2) = (count_quad l1 + count_quad l2)%nat.
Proof. unfold count_quad. now rewrite filter_app, length_app. Qed.

Lemma count_quad_smoother l :
  Forall (fun c => is_smoother_call c = true) l -> count_quad l = 0%nat.
Proof.
  induction 1 as [| c l Hc _ IH]; [reflexivity |].
  unfold count_quad in *. cbn. destruct c; cbn in *; try discriminate. exact IH.
Qed.

Lemma no_inner_matrix_call l :
  Forall (fun c => is_smoother_call c = true \/ is_quad_call c = true) l ->
  existsb is_inner_matrix_call l = false.
Proof.
  induction 1 as [| c l Hc _ IH]; [reflexivity |].
  cbn. rewrite IH. destruct c; cbn in *; try reflexivity.
  destruct Hc; discriminate.
Qed.

(** Each successful iteration contributing [c] quadratures, a successful
    [mmap] over [l] contributes [c * length l]. *)
Lemma count_quad_mmap {A B} (f : A -> M B) (c : nat) (l : list A) :
  (forall a b, outcome (f a) = Ok b -> count_quad (calls (f a)) = c) ->
  forall bs, outcome (mmap f l) = Ok bs ->
             count_quad (calls (mmap f l)) = (c * length l)%nat /\ length bs = length l.
Proof.
  intros Hf. induction l as [| a l IH]; cbn [mmap]; intros bs Hbs.
  - cbn in *. injection Hbs as <-. split; [lia | reflexivity].
  - rewrite outcome_bind in Hbs. rewrite calls_bind.
    destruct (outcome (f a)) as [b | e] eqn:Hfa; [| discriminate].
    rewrite outcome_bind in Hbs. rewrite calls_bind.
    destruct (outcome (mmap f l)) as [bs' | e] eqn:Hl; [| discriminate].
    cbn in Hbs. injection Hbs as <-.
    destruct (IH bs' eq_refl) as [IHc IHl].
    rewrite !count_quad_app, (Hf a b Hfa), IHc. cbn. split; lia.
Qed.

(** *** The calls made by [times] and [_inner_product_integrate] *)

Lemma from_data_calls data_matrix sample_points b :
  calls (from_data data_matrix sample_points b) = [call_smoother data_matrix sample_points b].
Proof.
  unfold from_data, kernel.
  destruct (BasisSmoother_fit_transform data_matrix sample_points b) as [coefs | e]; cbn;
    [destruct (FDataBasis__init__ b (Arr2 coefs)) |]; reflexivity.
Qed.

Lemma times_calls_smoother self other :
  Forall (fun c => is_smoother_call c = true) (calls (times self other)).
Proof.
  destruct other as [other | z | l]; cbn [times].
  - destruct (negb _); [constructor |].
    apply Forall_calls_bind; [apply Forall_calls_lift | intros basisobj].
    destruct (fd_domain_range self) as [left_ right_].
    repeat (apply Forall_calls_bind; [apply Forall_calls_lift | intros ?]).
    rewrite from_data_calls. repeat constructor.
  - apply Forall_calls_bind; [apply Forall_calls_lift | intros ?; apply Forall_calls_lift].
  - apply Forall_calls_bind; [apply Forall_calls_lift | intros ?; apply Forall_calls_lift].
Qed.

Lemma integrate_calls self other lfd_self lfd_other :
  Forall (fun c => is_smoother_call c = true \/ is_quad_call c = true)
         (calls (_inner_product_integrate self other lfd_self lfd_other)).
Proof.
  unfold _inner_product_integrate. destruct (fd_domain_range self) as [left_ right_].
  apply Forall_calls_bind; [| intros ?; constructor].
  apply Forall_calls_mmap; intros i. apply Forall_calls_mmap; intros j.
  repeat (apply Forall_calls_bind; [apply Forall_calls_lift | intros ?]).
  apply Forall_calls_bind.
  - eapply Forall_impl; [| apply times_calls_smoother]. cbn; auto.
  - intros fd. cbn. constructor; [now right | constructor].
Qed.

Lemma integrate_quad_count self other lfd_self lfd_other m :
  outcome (_inner_product_integrate self other lfd_self lfd_other) = Ok m ->
  count_quad (calls (_inner_product_integrate self other lfd_self lfd_other))
  = (n_samples self * n_samples other)%nat
  /\ shape0 m = n_samples self /\ shape1 m = n_samples other.
Proof.
  unfold _inner_product_integrate. destruct (fd_domain_range self) as [left_ right_].
  rewrite outcome_bind, calls_bind.
  match goal with |- context [outcome (mmap ?f ?l)] => set (F := f); set (L := l) end.
  destruct (outcome (mmap F L)) as [matrix | e] eqn:Hm; [| discriminate].
  cbn [ret outcome snd calls fst]. intros [= <-]. rewrite app_nil_r.
  assert (HF : forall i row, outcome (F i) = Ok row ->
                             count_quad (calls (F i)) = n_samples other).
  { intros i row Hrow. subst F. cbn beta in *.
    match goal with |- context [mmap ?g ?l'] => set (G := g) in *; set (L' := l') in * end.
    assert (HG : forall j v, outcome (G j) = Ok v -> count_quad (calls (G j)) = 1%nat).
    { intros j v Hv. unfold G in Hv |- *. clear Hrow.
      rewrite bind_lift in Hv |- *.
      destruct (getitem self i) as [si | ?]; [| discriminate].
      rewrite bind_lift in Hv |- *.
      destruct (getitem other j) as [oj | ?]; [| discriminate].
      rewrite calls_bind. rewrite outcome_bind in Hv.
      destruct (outcome (times si (TFData oj))) as [fd | ?]; [| discriminate].
      rewrite count_quad_app, (count_quad_smoother _ (times_calls_smoother _ _)).
      reflexivity. }
    destruct (count_quad_mmap G 1 L' HG row Hrow) as [-> _].
    subst L'. rewrite length_seq. lia. }
  destruct (count_quad_mmap F (n_samples other) L HF matrix Hm) as [-> Hlen].
  subst L. rewrite length_seq in *. cbn. unfold shape0. cbn. repeat split; [lia | exact Hlen].
Qed.

(** *** [inner_product]: the domain guard and the dispatch *)

Lemma inner_product_same_domain (x y : FDataBasis) :
  _same_domain (fd_domain_range x) (fd_domain_range y) = true ->
  inner_product x (IPFData y) None None None =
  if matrix_path x y
  then (inner <- kernel (call_inner_matrix (basis x) (basis y))
                        (Basis__inner_matrix (basis x) (basis y)) ;;
        lift (cm <~ matmul (coefficients x) inner ;;
              matmul cm (transpose (coefficients y))))
  else _inner_product_integrate x y (LinearDifferentialOperator 0)
                                (LinearDifferentialOperator 0).
Proof.
  intros Hdom. unfold inner_product. cbn [operand_domain_range].
  rewrite Hdom. cbn [negb]. rewrite bind_lift. cbn [bind ret].
  destruct (matrix_path x y).
  - destruct (bind _ _); reflexivity.
  - destruct (_inner_product_integrate _ _ _ _); reflexivity.
Qed.

(** C10.  When the domain ranges of the two operands differ,
    [inner_product] raises [ValueError] at once: no kernel (inner-product
    matrix, smoother, quadrature) has been called, whatever the operators
    and the weights are and whether the second operand is an [FDataBasis] or
    a [Basis].  Equivalently, whenever [inner_product] returns a matrix, the
    two operands have the same domain range. *)
Theorem inner_product_domain_guard
        (self : FDataBasis) (other : inner_product_operand)
        (lfd_self lfd_other : option Lfd) (weights : option FDataBasis) :
  (_same_domain (fd_domain_range self) (operand_domain_range other) = false ->
   inner_product self other lfd_self lfd_other weights = ([], Raise ValueError))
  /\ (forall m : ndarray,
         outcome (inner_product self other lfd_self lfd_other weights) = Ok m ->
         _same_domain (fd_domain_range self) (operand_domain_range other) = true).
Proof.
  assert (Hguard : _same_domain (fd_domain_range self) (operand_domain_range other) = false ->
                   inner_product self other lfd_self lfd_other weights = ([], Raise ValueError)).
  { intros Hdom. unfold inner_product. rewrite Hdom. reflexivity. }
  split; [exact Hguard |].
  intros m Hm.
  destruct (_same_domain (fd_domain_range self) (operand_domain_range other)) eqn:Hdom;
    [reflexivity |].
  rewrite (Hguard eq_refl) in Hm. discriminate.
Qed.

(** *** The class invariant: as many columns as basis functions *)

Definition class_invariant (fd : FDataBasis) : Prop :=
  shape1 (coefficients fd) = n_basis (basis fd).

Lemma init_ok b coefs fd :
  FDataBasis__init__ b coefs = Ok fd ->
  basis fd = b /\ coefficients fd = atleast_2d coefs /\ class_invariant fd.
Proof.
  unfold FDataBasis__init__, class_invariant.
  destruct (Nat.eqb_spec (shape1 (atleast_2d coefs)) (n_basis b)) as [Heq | Hne]; cbn;
    [| discriminate].
  intros [= <-]. cbn. auto.
Qed.

Lemma init_raises b coefs :
  shape1 (atleast_2d coefs) <> n_basis b ->
  FDataBasis__init__ b coefs = Raise ValueError.
Proof.
  intros Hne. unfold FDataBasis__init__.
  now destruct (Nat.eqb_spec (shape1 (atleast_2d coefs)) (n_basis b)).
Qed.

Lemma init_succeeds b coefs :
  shape1 (atleast_2d coefs) = n_basis b ->
  FDataBasis__init__ b coefs = Ok {| basis := b; coefficients := atleast_2d coefs |}.
Proof.
  intros Heq. unfold FDataBasis__init__. now rewrite Heq, Nat.eqb_refl.
Qed.

Lemma rbind_ok {A B} (r : result A) (k : A -> result B) b :
  rbind r k = Ok b -> exists a, r = Ok a /\ k a = Ok b.
Proof. destruct r as [a | e]; cbn; [eauto | discriminate]. Qed.

Lemma bind_ok {A B} (m : M A) (k : A -> M B) b :
  outcome (bind m k) = Ok b -> exists a, outcome m = Ok a /\ outcome (k a) = Ok b.
Proof.
  rewrite outcome_bind. destruct (outcome m) as [a | e]; [eauto | discriminate].
Qed.

Lemma from_data_ok data_matrix sample_points b fd :
  outcome (from_data data_matrix sample_points b) = Ok fd ->
  exists coefs, BasisSmoother_fit_transform data_matrix sample_points b = Ok coefs
                /\ FDataBasis__init__ b (Arr2 coefs) = Ok fd.
Proof.
  unfold from_data. intros H. apply bind_ok in H as (coefs & Hc & Hfd).
  exists coefs. split; assumption.
Qed.

(** *** The dispatch of [inner_product] *)

Lemma firstn_1_skipn {A} (l : list A) (k : nat) (d : A) :
  firstn 1 (skipn k l) = if (k <? length l)%nat then [nth k l d] else [].
Proof.
  revert k. induction l as [| a l IH]; intros [| k]; cbn [skipn length nth]; try reflexivity.
  rewrite IH. reflexivity.
Qed.





(** Peels the successful outcome of a sequence of binds down to the
    constructor call that produced the object. *)
Ltac peel H :=
  repeat match type of H with
         | outcome (bind _ _) = Ok _ =>
             let a := fresh "a" in let Ha := fresh "Ha" in
             apply bind_ok in H as (a & Ha & H)
         | rbind _ _ = Ok _ =>
             let a := fresh "a" in let Ha := fresh "Ha" in
             apply rbind_ok in H as (a & Ha & H)
         | outcome (lift _) = Ok _ => unfold lift, outcome in H; cbn [snd] in H
         | outcome (from_data _ _ _) = Ok _ =>
             let c := fresh "coefs" in let Hc := fresh "Hc" in
             apply from_data_ok in H as (c & Hc & H)
         | outcome (if ?c then _ else _) = Ok _ => destruct c
         | (if ?c then _ else _) = Ok _ => destruct c
         | outcome (raise _) = Ok _ => discriminate H
         | Raise _ = Ok _ => discriminate H
         | (let '(_, _) := ?p in _) = Ok _ => destruct p
         | outcome (let '(_, _) := ?p in _) = Ok _ => destruct p
         | copy _ _ _ = Ok _ => unfold copy in H
         end.

(** The objects the operations of the class build. *)
Inductive built : FDataBasis -> Prop :=
| built_init b coefs fd : FDataBasis__init__ b coefs = Ok fd -> built fd
| built_to_basis b fd : to_basis b = Ok fd -> built fd
| built_from_data d p b fd : outcome (from_data d p b) = Ok fd -> built fd
| built_copy self b coefs fd : copy self b coefs = Ok fd -> built fd
| built_getitem self key fd : getitem self key = Ok fd -> built fd
| built_times self other fd : outcome (times self other) = Ok fd -> built fd
| built_shift self shifts restrict eval_points fd :
    outcome (shift self shifts restrict eval_points) = Ok fd -> built fd
| built_derivative self order fd : derivative self order = Ok fd -> built fd
| built_mean self weights fd : mean self weights = Ok fd -> built fd
| built_concatenate self others fd : concatenate self others = Ok fd -> built fd
| built_add self other fd : __add__ self other = Ok fd -> built fd
| built_sub self other fd : __sub__ self other = Ok fd -> built fd
| built_mul self other fd : __mul__ self other = Ok fd -> built fd
| built_rsub self other fd : __rsub__ self other = Ok fd -> built fd.

Lemma add_invariant self other fd : __add__ self other = Ok fd -> class_invariant fd.
Proof. unfold __add__. intros H. peel H. now apply init_ok in H. Qed.

Lemma mul_invariant self other fd : __mul__ self other = Ok fd -> class_invariant fd.
Proof.
  unfold __mul__. intros H. destruct other; [discriminate | |]; peel H; now apply init_ok in H.
Qed.

Lemma built_invariant fd : built fd -> class_invariant fd.
Proof.
  intros [b coefs fd' H | b fd' H | d p b fd' H | self b coefs fd' H | self key fd' H
         | self other fd' H | self shifts restrict eval_points fd' H | self order fd' H
         | self weights fd' H | self others fd' H | self other fd' H | self other fd' H
         | self other fd' H | self other fd' H].
  - now apply init_ok in H.
  - unfold to_basis in H. now apply init_ok in H.
  - peel H. now apply init_ok in H.
  - peel H. now apply init_ok in H.
  - unfold getitem in H. peel H. now apply init_ok in H.
  - destruct other; cbn [times] in H; peel H; now apply init_ok in H.
  - unfold shift in H. destruct shifts; peel H; now apply init_ok in H.
  - unfold derivative in H. peel H; now apply init_ok in H.
  - unfold mean in H. destruct weights; peel H; now apply init_ok in H.
  - unfold concatenate in H. peel H. now apply init_ok in H.
  - now apply add_invariant in H.
  - unfold __sub__ in H. peel H. now apply init_ok in H.
  - now apply mul_invariant in H.
  - unfold __rsub__ in H. peel H. now apply add_invariant in H.
Qed.

Lemma shift_length_guard self v restrict eval_points :
  length v <> n_samples self ->
  shift self (ShiftVector v) restrict eval_points = ([], Raise ValueError).
Proof.
  intros Hne. unfold shift.
  now destruct (Nat.eqb_spec (length v) (n_samples self)).
Qed.

(** C8.  The constructor raises whenever the coefficients do not have
    exactly [basis.n_basis] columns and otherwise builds that very object;
    every object built by the constructor or by an operation of the class
    ([to_basis], [from_data], [copy], indexing, [times], [shift],
    [derivative], [mean], [concatenate], [+], [-], [*], right [-]) has as
    many coefficient columns as its basis has functions; and [shift] with a
    vector raises whenever its length is not the number of samples. *)
Theorem coefficient_columns_invariant :
  (forall (b : Basis) (coefs : array_like),
      (shape1 (atleast_2d coefs) <> n_basis b ->
       FDataBasis__init__ b coefs = Raise ValueError)
      /\ (shape1 (atleast_2d coefs) = n_basis b ->
          FDataBasis__init__ b coefs = Ok {| basis := b; coefficients := atleast_2d coefs |}))
  /\ (forall fd : FDataBasis, built fd -> shape1 (coefficients fd) = n_basis (basis fd))
  /\ (forall (self : FDataBasis) (v : list Q) (restrict : bool) (eval_points : option (list Q)),
         length v <> n_samples self ->
         shift self (ShiftVector v) restrict eval_points = ([], Raise ValueError)).
Proof.
  split; [| split].
  - intros b coefs. split; [apply init_raises | apply init_succeeds].
  - exact built_invariant.
  - exact shift_length_guard.
Qed.

(** *** [times] of two functional objects *)

Lemma linspace_length start stop num : length (linspace start stop num) = num.
Proof.
  destruct num as [| [| n]]; cbn [linspace]; try reflexivity.
  rewrite length_app, length_map, length_seq. cbn. lia.
Qed.

(** The points of [linspace] are evenly spaced from [start] to [stop]. *)
Lemma linspace_nth start stop num i :
  (i < num)%nat -> (2 <= num)%nat ->
  nth i (linspace start stop num) 0
  == start + inject_Z (Z.of_nat i) * ((stop - start) / inject_Z (Z.of_nat (num - 1))).
Proof.
  intros Hi Hnum. destruct num as [| [| n]]; [lia | lia |].
  cbn [linspace]. replace (S (S n) - 1)%nat with (S n) by lia.
  destruct (Nat.eq_dec i (S n)) as [-> | Hne].
  - rewrite app_nth2; rewrite length_map, length_seq; [| lia].
    rewrite Nat.sub_diag. cbn [nth].
    assert (Hnz : ~ inject_Z (Z.of_nat (S n)) == 0).
    { intros H. unfold Qeq in H. cbn in H. lia. }
    field. exact Hnz.
  - rewrite app_nth1; [| rewrite length_map, length_seq; lia].
    set (f := fun i0 : nat => start + inject_Z (Z.of_nat i0)
                                      * ((stop - start) / inject_Z (Z.of_nat (S n)))).
    rewrite (nth_indep _ 0 (f 0%nat)); [| rewrite length_map, length_seq; lia].
    rewrite (map_nth f), seq_nth; [| lia]. reflexivity.
Qed.

Lemma broadcast_mul_ok (x y : list (list Q)) :
  length x = length y \/ length x = 1%nat \/ length y = 1%nat ->
  exists z, broadcast_mul x y = Ok z.
Proof.
  intros H. unfold broadcast_mul.
  destruct (Nat.eqb_spec (length x) (length y)) as [Heq | Hne]; [eauto |].
  destruct H as [H | [H | H]]; [contradiction | |].
  - destruct x as [| r [| ? ?]]; try discriminate. eauto.
  - destruct y as [| s [| ? ?]]; try discriminate.
    destruct x as [| r [| ? ?]]; eauto.
Qed.

Lemma repeat_rows_single (a : ndarray) (n : nat) :
  shape0 a = 1%nat -> shape0 (repeat_rows a n) = n.
Proof.
  unfold shape0, repeat_rows. cbn. destruct (rows a) as [| r [| ? ?]]; try discriminate.
  intros _. cbn. now rewrite app_nil_r, repeat_length.
Qed.

(** The coefficients of the two factors after the broadcast of a single
    sample across the samples of the other operand. *)
Definition times_first (self other : FDataBasis) : ndarray :=
  if (n_samples self =? 1)%nat && (1 <? n_samples other)%nat
  then repeat_rows (coefficients self) (n_samples other)
  else coefficients self.

Lemma times_first_shape1 self other :
  shape1 (times_first self other) = shape1 (coefficients self).
Proof. unfold times_first. now destruct (_ && _). Qed.

Lemma times_first_broadcastable x y :
  n_samples x = n_samples y \/ n_samples x = 1%nat \/ n_samples y = 1%nat ->
  shape0 (times_first x y) = shape0 (times_first y x)
  \/ shape0 (times_first x y) = 1%nat \/ shape0 (times_first y x) = 1%nat.
Proof.
  unfold times_first, n_samples. intros H.
  destruct (Nat.eqb_spec (shape0 (coefficients x)) 1) as [Hx | Hx];
    destruct (Nat.eqb_spec (shape0 (coefficients y)) 1) as [Hy | Hy];
    destruct (Nat.ltb_spec 1 (shape0 (coefficients x)));
    destruct (Nat.ltb_spec 1 (shape0 (coefficients y)));
    cbn [andb]; rewrite ?repeat_rows_single by assumption; lia.
Qed.

Lemma times_fdata_reduces (x y : FDataBasis) (basisobj : Basis) :
  _same_domain (fd_domain_range x) (fd_domain_range y) = true ->
  class_invariant x -> class_invariant y ->
  basis_of_product (basis x) (basis y) = Ok basisobj ->
  n_samples x = n_samples y \/ n_samples x = 1%nat \/ n_samples y = 1%nat ->
  let evalarg := linspace (fst (fd_domain_range x)) (snd (fd_domain_range x))
                          (times_neval x y) in
  let first := {| basis := basis x; coefficients := times_first x y |} in
  let second := {| basis := basis y; coefficients := times_first y x |} in
  exists v1 v2 fdarray,
    evaluate first evalarg 0 = Ok v1
    /\ evaluate second evalarg 0 = Ok v2
    /\ broadcast_mul v1 v2 = Ok fdarray
    /\ times x (TFData y) = from_data fdarray evalarg basisobj.
Proof.
  intros Hdom Hx Hy Hbop Hbc evalarg first second.
  set (v1 := tensordot (rows (times_first x y)) (Basis__evaluate (basis x) evalarg 0)
                       (length evalarg)).
  set (v2 := tensordot (rows (times_first y x)) (Basis__evaluate (basis y) evalarg 0)
                       (length evalarg)).
  destruct (broadcast_mul_ok v1 v2) as [fdarray Hmul].
  { subst v1 v2. unfold tensordot. rewrite !length_map.
    apply (times_first_broadcastable x y Hbc). }
  exists v1, v2, fdarray. repeat split; try reflexivity; try exact Hmul.
  cbn [times]. rewrite Hdom. cbn [negb]. rewrite bind_lift, Hbop.
  subst evalarg. destruct (fd_domain_range x) as [left_ right_]. cbn [fst snd] in *.
  unfold copy.
  fold (times_first x y). fold (times_first y x).
  rewrite (init_succeeds (Basis_copy (basis x)) (Arr2 (times_first x y)))
    by (cbn; rewrite times_first_shape1; exact Hx).
  rewrite bind_lift.
  rewrite (init_succeeds (Basis_copy (basis y)) (Arr2 (times_first y x)))
    by (cbn; rewrite times_first_shape1; exact Hy).
  rewrite bind_lift. cbn [atleast_2d Basis_copy].
  unfold evaluate, _evaluate, Basis_evaluate. cbn [Z.ltb Z.compare rbind basis coefficients].
  rewrite !bind_lift. unfold Basis_copy. fold v1 v2. rewrite Hmul. reflexivity.
Qed.

Lemma times_domain_guard (x y : FDataBasis) :
  _same_domain (fd_domain_range x) (fd_domain_range y) = false ->
  times x (TFData y) = ([], Raise ValueError).
Proof. intros Hdom. cbn [times]. now rewrite Hdom. Qed.

(** C5 (amended).  [times] of two [FDataBasis] objects raises when their
    domain ranges differ.  Otherwise, the product basis being
    [basis_of_product] of the two bases and the sample counts being equal
    or one of them 1, it evaluates both operands (a single sample repeated
    across the samples of the other) on the grid of
    [max(10 * max(n_basis_self, n_basis_other) + 1, 201)] evenly spaced
    points from one end of the domain to the other, multiplies the values
    pointwise and hands the products, the grid and the product basis to
    [from_data]: this is its only kernel call, and what it returns is an
    object on the product basis. *)
Theorem times_product_on_grid (x y : FDataBasis) :
  (_same_domain (fd_domain_range x) (fd_domain_range y) = false ->
   times x (TFData y) = ([], Raise ValueError))
  /\ (forall basisobj : Basis,
         _same_domain (fd_domain_range x) (fd_domain_range y) = true ->
         shape1 (coefficients x) = n_basis (basis x) ->
         shape1 (coefficients y) = n_basis (basis y) ->
         basis_of_product (basis x) (basis y) = Ok basisobj ->
         n_samples x = n_samples y \/ n_samples x = 1%nat \/ n_samples y = 1%nat ->
         let neval := Nat.max (10 * Nat.max (fd_n_basis x) (fd_n_basis y) + 1) 201 in
         let left_ := fst (fd_domain_range x) in
         let right_ := snd (fd_domain_range x) in
         let evalarg := linspace left_ right_ neval in
         let first := {| basis := basis x; coefficients := times_first x y |} in
         let second := {| basis := basis y; coefficients := times_first y x |} in
         length evalarg = neval
         /\ (forall i, (i < neval)%nat ->
                       nth i evalarg 0
                       == left_ + inject_Z (Z.of_nat i)
                                  * ((right_ - left_) / inject_Z (Z.of_nat (neval - 1))))
         /\ exists v1 v2 fdarray,
             evaluate first evalarg 0 = Ok v1
             /\ evaluate second evalarg 0 = Ok v2
             /\ broadcast_mul v1 v2 = Ok fdarray
             /\ times x (TFData y) = from_data fdarray evalarg basisobj
             /\ calls (times x (TFData y)) = [call_smoother fdarray evalarg basisobj]
             /\ forall fd, outcome (times x (TFData y)) = Ok fd -> basis fd = basisobj).
Proof.
  split; [apply times_domain_guard |].
  intros basisobj Hdom Hx Hy Hbop Hbc neval left_ right_ evalarg first second.
  split; [apply linspace_length |].
  split.
  { intros i Hi. apply linspace_nth; [exact Hi | subst neval; lia]. }
  destruct (times_fdata_reduces x y basisobj Hdom Hx Hy Hbop Hbc)
    as (v1 & v2 & fdarray & Hv1 & Hv2 & Hmul & Htimes).
  exists v1, v2, fdarray.
  split; [exact Hv1 |]. split; [exact Hv2 |]. split; [exact Hmul |].
  split; [exact Htimes |].
  split; [rewrite Htimes; apply from_data_calls |].
  intros fd Hfd. rewrite Htimes in Hfd. peel Hfd. now apply init_ok in Hfd.
Qed.

(** *** The round trip through [evaluate] and [from_data] *)

(** The values [Phi c] of the function with coefficients [c] at the [m]
    points whose basis values are the columns of [B]. *)
Definition fitted (B : list (list Q)) (m : nat) (c : list Q) : list Q :=
  map (fun j => dot c (column j B)) (seq 0 m).

(** The sum of squared errors [(y - Phi c)' (y - Phi c)] of the docstring
    of [from_data]. *)
Definition SSE (B : list (list Q)) (m : nat) (y c : list Q) : Q :=
  qsum (map (fun j => (nth j y 0 - dot c (column j B)) * (nth j y 0 - dot c (column j B)))
            (seq 0 m)).

(** Modelled from the spec: the smoother behind [from_data] is not among
    the sources.  "Projects [n_samples] rows of sampled values at
    [sample_points] onto [basis] by ordinary least squares: solve
    [argmin_c |y - Phi c|^2] where [Phi[t,k] = phi_k(sample_points[t])]":
    [c] holds one coefficient per basis function and no other such vector
    has a smaller sum of squared errors. *)
Definition is_least_squares (B : list (list Q)) (m n : nat) (y c : list Q) : Prop :=
  length c = n /\ forall c', length c' = n -> SSE B m y c <= SSE B m y c'.

(** Modelled from the spec: what [from_data(data_matrix, sample_points,
    basis)] returns, an object on [basis] whose rows of coefficients are
    least-squares fits of the rows of the data. *)
Definition from_data_spec (data_matrix : list (list Q)) (sample_points : list Q)
           (b : Basis) (fd : FDataBasis) : Prop :=
  basis fd = b
  /\ shape1 (coefficients fd) = n_basis b
  /\ Forall2 (is_least_squares (Basis__evaluate b sample_points 0)
                               (length sample_points) (n_basis b))
             data_matrix (rows (coefficients fd)).

(** The basis is not degenerate on the points: no combination of the basis
    functions other than the zero one vanishes at all of them. *)
Definition nondegenerate (b : Basis) (points : list Q) : Prop :=
  forall v : list Q,
    length v = n_basis b ->
    (forall j, (j < length points)%nat ->
               dot v (column j (Basis__evaluate b points 0)) == 0) ->
    Forall (fun x => x == 0) v.

Definition vsub (u v : list Q) : list Q :=
  map (fun p => fst p - snd p) (combine u v).

Lemma qsum_nonneg (f : nat -> Q) (l : list nat) :
  (forall j, 0 <= f j) -> 0 <= qsum (map f l).
Proof.
  intros Hf. unfold qsum. induction l as [| j l IH]; cbn; [lra |]. specialize (Hf j). lra.
Qed.

Lemma qsum_zero (f : nat -> Q) (l : list nat) :
  (forall j, In j l -> f j == 0) -> qsum (map f l) == 0.
Proof.
  unfold qsum. induction l as [| j l IH]; cbn; intros Hf; [reflexivity |].
  rewrite (Hf j (or_introl eq_refl)), IH; [lra | auto].
Qed.

Lemma qsum_zero_terms (f : nat -> Q) (l : list nat) :
  (forall j, 0 <= f j) -> qsum (map f l) == 0 -> forall j, In j l -> f j == 0.
Proof.
  intros Hf. induction l as [| i l IH]; intros Hs j Hj; [contradiction |].
  change (f i + qsum (map f l) == 0) in Hs.
  pose proof (qsum_nonneg f l Hf) as Hl. pose proof (Hf i) as Hi.
  destruct Hj as [<- | Hj]; [lra |].
  apply IH; [lra | exact Hj].
Qed.

Lemma square_nonneg (x : Q) : 0 <= x * x.
Proof. nra. Qed.

Lemma square_zero (x : Q) : x * x == 0 -> x == 0.
Proof. intros H. destruct (Qmult_integral _ _ H); assumption. Qed.

Lemma nth_fitted B m c j :
  (j < m)%nat -> nth j (fitted B m c) 0 = dot c (column j B).
Proof.
  intros Hj. unfold fitted.
  set (f := fun j0 : nat => dot c (column j0 B)).
  rewrite (nth_indep _ 0 (f 0%nat)) by (now rewrite length_map, length_seq).
  now rewrite (map_nth f), seq_nth.
Qed.

Lemma SSE_nonneg B m y c : 0 <= SSE B m y c.
Proof. unfold SSE. apply qsum_nonneg. intros j. apply square_nonneg. Qed.

Lemma SSE_fitted B m c : SSE B m (fitted B m c) c == 0.
Proof.
  unfold SSE. apply qsum_zero. intros j Hj. apply in_seq in Hj.
  rewrite nth_fitted by lia. lra.
Qed.

Lemma dot_vsub (u v w : list Q) :
  length u = length v -> dot (vsub u v) w == dot u w - dot v w.
Proof.
  revert v w. induction u as [| a u IH]; intros [| b v] w Hlen; try discriminate.
  - cbn. lra.
  - destruct w as [| c w]; [cbn; lra |].
    injection Hlen as Hlen. specialize (IH v w Hlen).
    unfold dot, vsub, qsum in *. cbn in *. lra.
Qed.

Lemma vsub_zero (u v : list Q) :
  length u = length v -> Forall (fun x => x == 0) (vsub u v) -> Forall2 Qeq u v.
Proof.
  revert v. induction u as [| a u IH]; intros [| b v] Hlen Hz; try discriminate.
  - constructor.
  - injection Hlen as Hlen. unfold vsub in Hz. cbn in Hz. inversion Hz as [| ? ? H0 Hrest]; subst.
    constructor; [cbn in H0; lra | apply IH; assumption].
Qed.

Lemma length_vsub (u v : list Q) : length u = length v -> length (vsub u v) = length u.
Proof.
  intros H. unfold vsub. rewrite length_map, length_combine. lia.
Qed.

(** A least-squares fit of exact values of a function of the basis has
    that function's coefficients, when the basis is not degenerate on the
    points. *)
Lemma least_squares_unique (b : Basis) (points : list Q) (c0 c : list Q) :
  nondegenerate b points ->
  length c0 = n_basis b ->
  is_least_squares (Basis__evaluate b points 0) (length points) (n_basis b)
                   (fitted (Basis__evaluate b points 0) (length points) c0) c ->
  Forall2 Qeq c c0.
Proof.
  intros Hnd Hc0 [Hc Hmin].
  set (B := Basis__evaluate b points 0) in *. set (m := length points) in *.
  assert (Hsse : SSE B m (fitted B m c0) c == 0).
  { pose proof (Hmin c0 Hc0) as Hle. rewrite SSE_fitted in Hle.
    apply Qle_antisym; [exact Hle | apply SSE_nonneg]. }
  apply vsub_zero; [congruence |].
  apply Hnd; [rewrite length_vsub; congruence |].
  intros j Hj. rewrite dot_vsub by congruence.
  assert (Hterm := qsum_zero_terms _ (seq 0 m) (fun j0 => square_nonneg _) Hsse j).
  cbn beta in Hterm. rewrite nth_fitted in Hterm by exact Hj.
  assert (Hin : In j (seq 0 m)) by (apply in_seq; lia).
  apply Hterm, square_zero in Hin. fold B. lra.
Qed.

Lemma least_squares_exact (B : list (list Q)) (m : nat) (c0 : list Q) :
  is_least_squares B m (length c0) (fitted B m c0) c0.
Proof.
  split; [reflexivity |]. intros c' _. rewrite SSE_fitted. apply SSE_nonneg.
Qed.

(** C6.  Take an object [fd] on any basis, with any (well-formed)
    coefficient matrix, and points on which the basis is not degenerate.
    The values [Y] of [fd] at the points have a least-squares projection on
    the same basis, [fd] itself; and every projection that [from_data] may
    return for [Y] at the same points on the same basis has the
    coefficients of [fd], entry by entry.  Non-degeneracy on the points is
    all the proof uses: that the points are distinct and at least [n_basis]
    in number is not needed as a separate assumption.  Arithmetic being
    exact in the model, the coefficients are recovered exactly. *)
Theorem from_data_evaluate_round_trip
        (fd : FDataBasis) (points : list Q) (Y : list (list Q)) :
  shape1 (coefficients fd) = n_basis (basis fd) ->
  wf_ndarray (coefficients fd) ->
  nondegenerate (basis fd) points ->
  evaluate fd points 0 = Ok Y ->
  from_data_spec Y points (basis fd) fd
  /\ forall fd' : FDataBasis,
      from_data_spec Y points (basis fd) fd' ->
      basis fd' = basis fd
      /\ Forall2 (Forall2 Qeq) (rows (coefficients fd')) (rows (coefficients fd)).
Proof.
  intros Hinv Hwf Hnd Heval.
  unfold evaluate, _evaluate, Basis_evaluate in Heval. cbn in Heval. injection Heval as <-.
  set (B := Basis__evaluate (basis fd) points 0) in *.
  change (tensordot (rows (coefficients fd)) B (length points))
    with (map (fitted B (length points)) (rows (coefficients fd))).
  unfold wf_ndarray in Hwf. rewrite Hinv in Hwf.
  split.
  - split; [reflexivity |]. split; [exact Hinv |].
    induction Hwf as [| c0 cs Hc0 _ IH]; cbn; constructor; [| exact IH].
    rewrite <- Hc0. apply least_squares_exact.
  - intros fd' (Hb & _ & Hfit). split; [exact Hb |].
    revert Hfit. generalize (rows (coefficients fd')) as cs'.
    induction Hwf as [| c0 cs Hc0 _ IH]; cbn; intros cs' Hfit;
      inversion Hfit as [| y c ? ? Hls Hrest]; subst; constructor.
    + apply (least_squares_unique (basis fd) points c0 c Hnd Hc0 Hls).
    + apply IH. exact Hrest.
Qed.

(** With weights, the dispatch looks at the second operand multiplied by
    the weight function. *)
Lemma inner_product_weighted (x y w : FDataBasis) (lfd_self lfd_other : option Lfd) :
  _same_domain (fd_domain_range x) (fd_domain_range y) = true ->
  forall log yw,
    times y (TFData w) = (log, Ok yw) ->
    matrix_path x yw = true ->
    inner_product x (IPFData y) lfd_self lfd_other (Some w)
    = (log ++ [call_inner_matrix (basis x) (basis yw)],
       inner <~ Basis__inner_matrix (basis x) (basis yw) ;;
       cm <~ matmul (coefficients x) inner ;;
       matmul cm (transpose (coefficients yw))).
Proof.
  intros Hdom log yw Htimes Hpath. unfold inner_product. cbn [operand_domain_range].
  rewrite Hdom. cbn [negb]. rewrite bind_lift, Htimes. cbn [bind]. rewrite Hpath.
  unfold kernel. destruct (Basis__inner_matrix (basis x) (basis yw)) as [inner | e]; cbn;
    [| reflexivity].
  destruct (matmul (coefficients x) inner) as [cm | e]; reflexivity.
Qed.

(** *** The two paths of [shift] *)

Lemma rescale_valid (b : Basis) (dr : Q * Q) :
  fst dr < snd dr -> (1 <= n_basis b)%nat ->
  rescale b (Some dr)
  = Ok {| basis_type := basis_type b; _domain_range := Some dr; n_basis := n_basis b |}.
Proof.
  intros Hdr Hn. unfold rescale, Basis__init__, _check_domain.
  destruct (Qle_bool (snd dr) (fst dr)) eqn:Hle.
  - apply Qle_bool_iff in Hle. exfalso. exact (Qlt_not_le _ _ Hdr Hle).
  - cbn [rbind]. destruct (Nat.ltb_spec (n_basis b) 1); [lia | reflexivity].
Qed.

(** With a scalar [s], the values of the curves at the evaluation points
    [t_j] are fitted at the sample points [t_j + s], on the domain moved by
    [s]: the fitted curve [g] has [g(t_j + s) = f(t_j)]. *)
Lemma shift_scalar_calls (self : FDataBasis) (s : Q) (restrict : bool) (pts : list Q) :
  fst (fd_domain_range self) < snd (fd_domain_range self) ->
  (1 <= fd_n_basis self)%nat ->
  calls (shift self (ShiftScalar s) restrict (Some pts))
  = [call_smoother
       (tensordot (rows (coefficients self)) (Basis__evaluate (basis self) pts 0) (length pts))
       (map (fun t => t + s) pts)
       {| basis_type := basis_type (basis self);
          _domain_range := Some (fst (fd_domain_range self) + s, snd (fd_domain_range self) + s);
          n_basis := fd_n_basis self |}].
Proof.
  intros Hdr Hn. unfold shift.
  rewrite rescale_valid by (cbn [fst snd]; first [lra | exact Hn]).
  rewrite bind_lift. unfold evaluate, _evaluate, Basis_evaluate. cbn [Z.ltb Z.compare rbind].
  rewrite bind_lift. apply from_data_calls.
Qed.

Lemma rmap_ext {A B} (f g : A -> result B) (l : list A) :
  (forall a, f a = g a) -> rmap f l = rmap g l.
Proof.
  intros H. induction l as [| a l IH]; cbn; [reflexivity |]. now rewrite H, IH.
Qed.

Lemma rmap_map {A B C} (f : B -> result C) (g : A -> B) (l : list A) :
  rmap f (map g l) = rmap (fun a => f (g a)) l.
Proof.
  induction l as [| a l IH]; cbn; [reflexivity |]. now rewrite IH.
Qed.

Lemma rmap_seq_combine {A B C} (f : A * B -> result C) (da : A) (l : list A) :
  forall l' : list B,
    (length l <= length l')%nat ->
    rmap (fun i => match nth_error l' i with
                   | None => Raise IndexError
                   | Some b => f (nth i l da, b)
                   end) (seq 0 (length l))
    = rmap f (combine l l').
Proof.
  induction l as [| a l IH]; intros l' Hlen; [reflexivity |].
  destruct l' as [| b l']; [cbn in Hlen; lia |].
  cbn [length seq rmap combine nth_error nth]. rewrite <- seq_shift, rmap_map.
  rewrite <- (IH l') by (cbn in Hlen; lia). reflexivity.
Qed.

(** With a row of points for every sample, [_evaluate_composed] pairs the
    coefficients of each sample with its row. *)
Lemma _evaluate_composed_rows (self : FDataBasis) (eval_points : list (list Q))
      (derivative : Z) :
  (n_samples self <= length eval_points)%nat ->
  _evaluate_composed self eval_points derivative
  = rmap (fun ip =>
            basis_values <~ Basis_evaluate (basis self) (snd ip) derivative ;;
            Ok (map (fun j => dot (column j basis_values) (fst ip))
                    (seq 0 (length (snd ip)))))
         (combine (rows (coefficients self)) eval_points).
Proof.
  intros Hlen. unfold _evaluate_composed, n_samples, shape0 in *.
  now rewrite <- (rmap_seq_combine _ [] _ _ Hlen).
Qed.

(** With a vector of shifts, the values of curve [i] at the points
    [t_j + s_i] are fitted at the sample points [t_j], on the original
    domain: the fitted curve [g_i] has [g_i(t_j) = f_i(t_j + s_i)]. *)
Lemma shift_vector_calls (self : FDataBasis) (v : list Q) (pts : list Q) :
  fst (fd_domain_range self) < snd (fd_domain_range self) ->
  (1 <= fd_n_basis self)%nat ->
  length v = n_samples self ->
  calls (shift self (ShiftVector v) false (Some pts))
  = [call_smoother
       (map (fun ip => map (fun j => dot (column j (Basis__evaluate (basis self) (snd ip) 0))
                                         (fst ip))
                           (seq 0 (length (snd ip))))
            (combine (rows (coefficients self)) (map (fun s => map (fun t => t + s) pts) v)))
       pts
       {| basis_type := basis_type (basis self);
          _domain_range := Some (fd_domain_range self);
          n_basis := fd_n_basis self |}].
Proof.
  intros Hdr Hn Hlen. unfold shift. rewrite Hlen, Nat.eqb_refl. cbn [negb].
  rewrite bind_lift. unfold evaluate_unaligned.
  rewrite _evaluate_composed_rows by (rewrite length_map; lia).
  erewrite rmap_pure by (intros ip; unfold Basis_evaluate; cbn; reflexivity).
  rewrite bind_lift, rescale_valid by assumption.
  rewrite bind_lift. apply from_data_calls.
Qed.

(** *** [shift] on a restricted domain *)

Lemma restricted_domain_ok (dr : Q * Q) (v : list Q) :
  v <> [] ->
  exists lo hi,
    is_least lo v /\ is_greatest hi v
    /\ restricted_domain dr v = Ok (fst dr - py_min lo 0, snd dr - py_max hi 0).
Proof.
  intros Hne. unfold restricted_domain.
  destruct v as [| x v]; [contradiction |].
  destruct (np_min (x :: v)) as [lo |] eqn:Hlo; [| discriminate].
  destruct (np_max (x :: v)) as [hi |] eqn:Hhi; [| discriminate].
  exists lo, hi. split; [now apply np_min_spec |]. split; [now apply np_max_spec |].
  reflexivity.
Qed.

Lemma shift_restricted (self : FDataBasis) (v : list Q) (eval_points : option (list Q)) :
  length v = n_samples self -> v <> [] ->
  exists lo hi,
    is_least lo v /\ is_greatest hi v
    /\ let a := fst (fd_domain_range self) - py_min lo 0 in
       let b := snd (fd_domain_range self) - py_max hi 0 in
       let pts := match eval_points with
                  | None => linspace (fst (fd_domain_range self)) (snd (fd_domain_range self))
                                     (shift_nfine self)
                  | Some pts => pts
                  end in
       let kept := filter (fun t => Qle_bool a t && Qle_bool t b) pts in
       shift self (ShiftVector v) true eval_points
       = (_data_matrix <- lift (evaluate_unaligned
                                  self (map (fun s => map (fun t => t + s) kept) v) 0) ;;
          _basis <- lift (rescale (basis self) (Some (a, b))) ;;
          from_data _data_matrix kept _basis).
Proof.
  intros Hlen Hne.
  destruct (restricted_domain_ok (fd_domain_range self) v Hne) as (lo & hi & Hlo & Hhi & Hdom).
  exists lo, hi. split; [exact Hlo |]. split; [exact Hhi |].
  cbn zeta. unfold shift. rewrite Hlen, Nat.eqb_refl. cbn [negb].
  rewrite Hdom. cbn [rbind]. rewrite bind_lift. reflexivity.
Qed.

(** ** Further properties of [Basis] and [FDataBasis] *)

(** *** Bases: construction, equality, rescaling, product *)

Lemma _same_domain_refl (d : Q * Q) : _same_domain d d = true.
Proof. unfold _same_domain. now rewrite !Qeq_bool_refl. Qed.

Lemma _same_domain_iff (d e : Q * Q) :
  _same_domain d e = true <-> fst d == fst e /\ snd d == snd e.
Proof. unfold _same_domain. now rewrite andb_true_iff, !Qeq_bool_iff. Qed.

Lemma Basis__init__ok (ty : family) (dr : option (Q * Q)) (n : nat) (b : Basis) :
  Basis__init__ ty dr n = Ok b ->
  b = {| basis_type := ty; _domain_range := dr; n_basis := n |}
  /\ (1 <= n)%nat /\ fst (domain_range b) < snd (domain_range b).
Proof.
  unfold Basis__init__, _check_domain. intros H.
  assert (Hdr : match dr with
                | Some d => fst d < snd d
                | None => True
                end
                /\ (if (n <? 1)%nat then Raise ValueError
                    else Ok {| basis_type := ty; _domain_range := dr; n_basis := n |}) = Ok b).
  { destruct dr as [d |]; [| now split].
    destruct (Qle_bool (snd d) (fst d)) eqn:Hle; [discriminate |]. split; [| exact H].
    apply Qnot_le_lt. intros Hc. apply Qle_bool_iff in Hc. congruence. }
  destruct Hdr as [Hdr Hb]. destruct (Nat.ltb_spec n 1) as [Hn | Hn]; [discriminate |].
  injection Hb as <-. repeat split; [exact Hn |].
  unfold domain_range. cbn. destruct dr as [d |]; [exact Hdr | reflexivity].
Qed.

(** X1.  [Basis.__eq__] compares the types, the domain ranges and the
    numbers of functions.  As soon as the comparison of types is an
    equivalence, it is an equivalence relation on bases; and since the
    property [domain_range] of a basis built without one is [(0, 1)], such
    a basis equals the basis built with the domain [(0, 1)]. *)
Theorem Basis_eq_equivalence :
  (forall t, family_eqb t t = true) ->
  (forall t u, family_eqb t u = true -> family_eqb u t = true) ->
  (forall t u v, family_eqb t u = true -> family_eqb u v = true -> family_eqb t v = true) ->
  (forall b, Basis__eq__ b b = true)
  /\ (forall b c, Basis__eq__ b c = true -> Basis__eq__ c b = true)
  /\ (forall b c d, Basis__eq__ b c = true -> Basis__eq__ c d = true -> Basis__eq__ b d = true)
  /\ (forall ty n,
         Basis__eq__ {| basis_type := ty; _domain_range := None; n_basis := n |}
                     {| basis_type := ty; _domain_range := Some (0, 1); n_basis := n |} = true).
Proof.
  intros Hrefl Hsym Htrans. unfold Basis__eq__. repeat split.
  - intros b. now rewrite Hrefl, _same_domain_refl, Nat.eqb_refl.
  - intros b c H. apply andb_true_iff in H as [H Hn]. apply andb_true_iff in H as [Ht Hd].
    apply _same_domain_iff in Hd as [Hd0 Hd1]. apply Nat.eqb_eq in Hn.
    rewrite (Hsym _ _ Ht), Hn, Nat.eqb_refl, andb_true_r. cbn.
    apply _same_domain_iff. split; symmetry; assumption.
  - intros b c d H1 H2.
    apply andb_true_iff in H1 as [H1 Hn1]. apply andb_true_iff in H1 as [Ht1 Hd1].
    apply andb_true_iff in H2 as [H2 Hn2]. apply andb_true_iff in H2 as [Ht2 Hd2].
    apply _same_domain_iff in Hd1 as [Ha1 Hb1]. apply _same_domain_iff in Hd2 as [Ha2 Hb2].
    apply Nat.eqb_eq in Hn1, Hn2.
    rewrite (Htrans _ _ _ Ht1 Ht2), Hn1, Hn2, Nat.eqb_refl, andb_true_r. cbn.
    apply _same_domain_iff. split; etransitivity; eassumption.
  - intros ty n. cbn. now rewrite Hrefl, Nat.eqb_refl.
Qed.

(** X2.  A basis that came out of the constructor has at least one
    function and a well-defined interval.  Rescaling it to an interval
    [(a, b)] succeeds exactly when [a < b]; the copy keeps the type and the
    number of functions and has the new interval, and rescaling without an
    argument returns a basis on the same interval. *)
Theorem rescale_constructed (ty : family) (dr : option (Q * Q)) (n : nat) (b : Basis) :
  Basis__init__ ty dr n = Ok b ->
  (forall d : Q * Q,
      (fst d < snd d ->
       rescale b (Some d) = Ok {| basis_type := ty; _domain_range := Some d; n_basis := n |})
      /\ (snd d <= fst d -> rescale b (Some d) = Raise ValueError))
  /\ rescale b None
     = Ok {| basis_type := ty; _domain_range := Some (domain_range b); n_basis := n |}.
Proof.
  intros Hb. apply Basis__init__ok in Hb as (-> & Hn & Hdr).
  assert (Hgood : forall d : Q * Q,
             fst d < snd d ->
             Basis__init__ ty (Some d) n
             = Ok {| basis_type := ty; _domain_range := Some d; n_basis := n |}).
  { intros d Hd. unfold Basis__init__, _check_domain.
    destruct (Qle_bool (snd d) (fst d)) eqn:Hle.
    - apply Qle_bool_iff in Hle. exfalso. exact (Qlt_not_le _ _ Hd Hle).
    - cbn [rbind]. destruct (Nat.ltb_spec n 1); [lia | reflexivity]. }
  split.
  - intros d. split; intros Hd.
    + exact (Hgood d Hd).
    + unfold rescale, Basis__init__, _check_domain. cbn.
      apply Qle_bool_iff in Hd. now rewrite Hd.
  - exact (Hgood _ Hdr).
Qed.

(** X3.  [default_basis_of_product] refuses two bases on different
    domains.  Otherwise the B-spline basis it asks for has order at most 8
    and strictly more functions than its order: the order is the sum of
    the two sizes and there is one function more when that sum is at most
    8, and the order is 8 with as many functions as the sum beyond. *)
Theorem default_basis_of_product_order (one other : Basis) :
  (_same_domain (domain_range one) (domain_range other) = false ->
   default_basis_of_product_size one other = Raise ValueError)
  /\ (_same_domain (domain_range one) (domain_range other) = true ->
      exists n norder,
        default_basis_of_product_size one other = Ok (n, norder)
        /\ (norder <= 8)%nat /\ (norder < n)%nat
        /\ (n_basis one + n_basis other <= n)%nat
        /\ ((n_basis one + n_basis other <= 8)%nat ->
            norder = (n_basis one + n_basis other)%nat /\ n = S norder)
        /\ ((8 < n_basis one + n_basis other)%nat ->
            norder = 8%nat /\ n = (n_basis one + n_basis other)%nat)).
Proof.
  unfold default_basis_of_product_size. split; intros ->; cbn [negb]; [reflexivity |].
  eexists _, _. split; [reflexivity |]. lia.
Qed.

(** *** Evaluation *)

Lemma dot_cons (a b : Q) (u v : list Q) : dot (a :: u) (b :: v) = a * b + dot u v.
Proof. reflexivity. Qed.

Lemma dot_nil_r (u : list Q) : dot u [] = 0.
Proof. now destruct u. Qed.

Lemma dot_comm (u v : list Q) : dot u v == dot v u.
Proof.
  revert v. induction u as [| a u IH]; intros [| b v]; try reflexivity.
  rewrite !dot_cons, IH. ring.
Qed.

Lemma dot_add (u v w : list Q) :
  length u = length v ->
  dot (map (fun p => fst p + snd p) (combine u v)) w == dot u w + dot v w.
Proof.
  revert v w. induction u as [| a u IH]; intros [| b v] w Hlen; try discriminate.
  - cbn. ring.
  - destruct w as [| c w]; [cbn; ring |].
    injection Hlen as Hlen. cbn [combine map fst snd]. rewrite !dot_cons, (IH v w Hlen). ring.
Qed.

Lemma dot_scale (u w : list Q) (c : Q) : dot (map (fun x => x * c) u) w == c * dot u w.
Proof.
  revert w. induction u as [| a u IH]; intros [| b w]; cbn [map]; try (cbn; ring).
  rewrite !dot_cons, IH. ring.
Qed.

Lemma nth_column (j i : nat) (B : list (list Q)) :
  nth i (column j B) 0 = nth j (nth i B []) 0.
Proof.
  unfold column. revert i. induction B as [| r B IH]; intros [| i]; cbn; try reflexivity.
  - now destruct j.
  - now destruct j.
  - apply IH.
Qed.

Lemma nth_map_seq {A} (f : nat -> A) (d : A) (n i : nat) :
  (i < n)%nat -> nth i (map f (seq 0 n)) d = f i.
Proof.
  intros Hi. rewrite (nth_indep _ d (f 0%nat)) by (now rewrite length_map, length_seq).
  now rewrite (map_nth f), seq_nth.
Qed.

Lemma nth_map_rows {A} (g : list Q -> A) (d : A) (l : list (list Q)) (i : nat) :
  (i < length l)%nat -> nth i (map g l) d = g (nth i l []).
Proof.
  intros Hi. rewrite (nth_indep _ d (g [])) by (now rewrite length_map).
  apply map_nth.
Qed.

(** Entry [(i, j)] of [numpy.tensordot(A, B, axes=(1, 0))]. *)
Lemma tensordot_entry (A B : list (list Q)) (m i j : nat) :
  (i < length A)%nat -> (j < m)%nat ->
  nth j (nth i (tensordot A B m) []) 0 = dot (nth i A []) (column j B).
Proof.
  intros Hi Hj. unfold tensordot.
  rewrite (nth_map_rows (fun r => map (fun j0 => dot r (column j0 B)) (seq 0 m))) by exact Hi.
  now rewrite (nth_map_seq (fun j0 => dot (nth i A []) (column j0 B))).
Qed.

Lemma length_tensordot (A B : list (list Q)) (m : nat) : length (tensordot A B m) = length A.
Proof. unfold tensordot. apply length_map. Qed.

(** The dot product with row [i] of the identity matrix picks entry [i]. *)
Lemma dot_indicator (i s n : nat) (v : list Q) :
  dot (map (fun j => if (i =? j)%nat then 1 else 0) (seq s n)) v
  == if (s <=? i)%nat && (i <? s + n)%nat then nth (i - s) v 0 else 0.
Proof.
  revert s v. induction n as [| n IH]; intros s v.
  - cbn [seq map]. replace (s + 0)%nat with s by lia.
    destruct (Nat.leb_spec s i), (Nat.ltb_spec i s); cbn; try reflexivity; lia.
  - cbn [seq map]. destruct v as [| a v].
    + rewrite dot_nil_r. destruct (_ && _); [now destruct (i - s)%nat | reflexivity].
    + rewrite dot_cons, IH.
      destruct (Nat.eqb_spec i s) as [-> | Hne].
      * replace (S s <=? s)%nat with false by (symmetry; apply Nat.leb_gt; lia).
        replace (s <=? s)%nat with true by (symmetry; apply Nat.leb_le; lia).
        replace (s <? s + S n)%nat with true by (symmetry; apply Nat.ltb_lt; lia).
        rewrite Nat.sub_diag. cbn. ring.
      * destruct (Nat.leb_spec (S s) i) as [Hle | Hgt].
        -- replace (s <=? i)%nat with true by (symmetry; apply Nat.leb_le; lia).
           replace (i <? s + S n)%nat with (i <? S s + n)%nat by (f_equal; lia).
           cbn [andb]. destruct (i <? S s + n)%nat; [| ring].
           replace (i - s)%nat with (S (i - S s)) by lia. cbn [nth]. ring.
        -- replace (s <=? i)%nat with false by (symmetry; apply Nat.leb_gt; lia).
           cbn [andb]. ring.
Qed.

(** X4.  The functional object of a basis ([Basis.to_basis]) always
    exists, has one sample per basis function, and evaluates to the basis
    functions themselves: sample [i] at point [j] is the value of basis
    function [i] at that point, for every order of derivative. *)
Theorem to_basis_evaluate (b : Basis) (pts : list Q) (d : Z) :
  (0 <= d)%Z ->
  exists fd vals,
    to_basis b = Ok fd
    /\ n_samples fd = n_basis b
    /\ _evaluate fd pts d = Ok vals
    /\ length vals = n_basis b
    /\ forall i j, (i < n_basis b)%nat -> (j < length pts)%nat ->
                   nth j (nth i vals []) 0
                   == nth j (nth i (Basis__evaluate b pts d) []) 0.
Proof.
  intros Hd. unfold to_basis, FDataBasis__init__, Basis_copy. cbn [atleast_2d identity shape1].
  rewrite Nat.eqb_refl. cbn [negb].
  eexists _, _. split; [reflexivity |].
  assert (Hlen : length (rows (identity (n_basis b))) = n_basis b).
  { cbn. now rewrite length_map, length_seq. }
  split; [exact Hlen |].
  unfold _evaluate, Basis_evaluate. cbn [basis coefficients].
  destruct (Z.ltb_spec d 0) as [Hneg | _]; [lia |]. cbn [rbind].
  split; [reflexivity |]. split; [now rewrite length_tensordot |].
  intros i j Hi Hj. rewrite tensordot_entry by (rewrite ?Hlen; assumption).
  cbn [identity rows].
  rewrite (nth_map_seq (fun i0 => map (fun j0 => if (i0 =? j0)%nat then 1 else 0)
                                      (seq 0 (n_basis b)))) by exact Hi.
  rewrite dot_indicator. cbn [Nat.leb andb Nat.add].
  destruct (Nat.ltb_spec i (n_basis b)) as [_ | Hc]; [| lia].
  now rewrite Nat.sub_0_r, nth_column.
Qed.

Lemma nth_combine_rows (g : list Q * list Q -> list Q) (X Y : list (list Q)) (i : nat) :
  (i < length X)%nat -> length X = length Y ->
  nth i (map g (combine X Y)) [] = g (nth i X [], nth i Y []).
Proof.
  revert Y i. induction X as [| x X IH]; intros [| y Y] i Hi Hlen; cbn in *; try lia.
  destruct i as [| i]; [reflexivity |]. apply IH; lia.
Qed.

Lemma wf_nth_length (a : ndarray) (i : nat) :
  wf_ndarray a -> (i < shape0 a)%nat -> length (nth i (rows a) []) = shape1 a.
Proof.
  unfold wf_ndarray, shape0. intros Hwf Hi.
  rewrite Forall_forall in Hwf. apply Hwf. now apply nth_In.
Qed.

(** What the operators return on two objects with equally many samples:
    the first operand's basis and the rows combined entry by entry. *)
Lemma same_basis_op_rows (op : Q -> Q -> Q) (x y : ndarray) (c : ndarray) :
  shape0 y = shape0 x ->
  broadcast_op op x y = Ok c ->
  shape1 y = shape1 x
  /\ c = {| shape1 := shape1 x;
            rows := map (fun p => map (fun q => op (fst q) (snd q)) (combine (fst p) (snd p)))
                        (combine (rows x) (rows y)) |}.
Proof.
  intros Hn. unfold broadcast_op.
  destruct (Nat.eqb_spec (shape1 x) (shape1 y)) as [H1 | H1]; cbn [negb]; [| discriminate].
  rewrite Hn, Nat.eqb_refl. intros [= <-]. now split.
Qed.

Lemma init_inv (b : Basis) (c : ndarray) (fd : FDataBasis) :
  FDataBasis__init__ b (Arr2 c) = Ok fd ->
  fd = {| basis := b; coefficients := c |} /\ shape1 c = n_basis b.
Proof.
  unfold FDataBasis__init__. cbn [atleast_2d].
  destruct (Nat.eqb_spec (shape1 c) (n_basis b)); cbn [negb]; [| discriminate].
  intros [= <-]. now split.
Qed.

Lemma add_fdata_ok (x y s : FDataBasis) :
  __add__ x (OpFData y) = Ok s ->
  Basis__eq__ (basis x) (basis y) = true
  /\ exists c, broadcast_op Qplus (coefficients x) (coefficients y) = Ok c
               /\ shape1 c = n_basis (basis x)
               /\ s = {| basis := basis x; coefficients := c |}.
Proof.
  unfold __add__, _add_same_basis, copy.
  destruct (Basis__eq__ (basis x) (basis y)); cbn [negb rbind]; [| discriminate].
  destruct (broadcast_op Qplus _ _) as [c | e]; cbn [rbind fst snd]; [| discriminate].
  intros H. apply init_inv in H as [-> Hc]. split; [reflexivity |]. now exists c.
Qed.

Lemma sub_fdata_ok (x y s : FDataBasis) :
  __sub__ x (OpFData y) = Ok s ->
  Basis__eq__ (basis x) (basis y) = true
  /\ exists c, broadcast_op Qminus (coefficients x) (coefficients y) = Ok c
               /\ shape1 c = n_basis (basis x)
               /\ s = {| basis := basis x; coefficients := c |}.
Proof.
  unfold __sub__, _sub_same_basis, copy.
  destruct (Basis__eq__ (basis x) (basis y)); cbn [negb rbind]; [| discriminate].
  destruct (broadcast_op Qminus _ _) as [c | e]; cbn [rbind fst snd]; [| discriminate].
  intros H. apply init_inv in H as [-> Hc]. split; [reflexivity |]. now exists c.
Qed.

(** X5.  Addition is pointwise: for two objects on one basis with equally
    many samples, the sum evaluates, at every point and for every order of
    derivative, to the sum of the values of the operands. *)
Theorem evaluate_add_pointwise (x y s : FDataBasis) (pts : list Q) (d : Z)
        (vx vy : list (list Q)) :
  basis y = basis x ->
  n_samples y = n_samples x ->
  wf_ndarray (coefficients x) ->
  wf_ndarray (coefficients y) ->
  __add__ x (OpFData y) = Ok s ->
  _evaluate x pts d = Ok vx ->
  _evaluate y pts d = Ok vy ->
  exists vs,
    _evaluate s pts d = Ok vs
    /\ length vs = n_samples x
    /\ forall i j, (i < n_samples x)%nat -> (j < length pts)%nat ->
                   nth j (nth i vs []) 0 == nth j (nth i vx []) 0 + nth j (nth i vy []) 0.
Proof.
  intros Hb Hn Hwx Hwy Hadd Hx Hy.
  apply add_fdata_ok in Hadd as (_ & c & Hc & _ & ->).
  apply (same_basis_op_rows Qplus) in Hc as [Hs1 ->]; [| exact Hn].
  unfold _evaluate in *. cbn [basis coefficients]. rewrite Hb in Hy.
  destruct (Basis_evaluate (basis x) pts d) as [B | e]; [| discriminate].
  cbn [rbind] in *. injection Hx as <-. injection Hy as <-.
  eexists. split; [reflexivity |]. cbn [rows].
  assert (Hlen : length (rows (coefficients x)) = length (rows (coefficients y))).
  { symmetry. exact Hn. }
  split.
  { rewrite length_tensordot, length_map, length_combine, <- Hlen. apply Nat.min_id. }
  intros i j Hi Hj.
  rewrite !tensordot_entry;
    try assumption;
    try (rewrite length_map, length_combine, <- Hlen, Nat.min_id; exact Hi);
    try (rewrite <- Hlen; exact Hi).
  rewrite (nth_combine_rows (fun p => map (fun q => fst q + snd q) (combine (fst p) (snd p))))
    by assumption.
  cbn [fst snd]. apply dot_add.
  rewrite (wf_nth_length _ i Hwx Hi), (wf_nth_length _ i Hwy) by (unfold n_samples in *; lia).
  now symmetry.
Qed.

(** [coefs * other] for a single number [other]: every row is scaled. *)
Lemma broadcast_col_mul_scalar (a : ndarray) (c : Q) :
  broadcast_col_mul a [c]
  = Ok {| shape1 := shape1 a; rows := map (fun r => map (fun x => x * c) r) (rows a) |}.
Proof.
  unfold broadcast_col_mul, shape0.
  destruct (rows a) as [| r [| r' l]]; reflexivity.
Qed.

Lemma mul_scalar_ok (x s : FDataBasis) (c : Q) :
  __mul__ x (OpScalar c) = Ok s ->
  shape1 (coefficients x) = n_basis (basis x)
  /\ s = {| basis := basis x;
            coefficients := {| shape1 := shape1 (coefficients x);
                               rows := map (fun r => map (fun a => a * c) r)
                                           (rows (coefficients x)) |} |}.
Proof.
  unfold __mul__, _mul_constant, copy. cbn [as_list].
  rewrite broadcast_col_mul_scalar. cbn [rbind fst snd]. unfold Basis_copy.
  intros H. apply init_inv in H as [-> Hc]. now split.
Qed.

(** X6.  Multiplication by a number is pointwise: the product evaluates,
    at every point and for every order of derivative, to the number times
    the values of the operand. *)
Theorem evaluate_mul_scalar (x s : FDataBasis) (c : Q) (pts : list Q) (d : Z)
        (vx : list (list Q)) :
  __mul__ x (OpScalar c) = Ok s ->
  _evaluate x pts d = Ok vx ->
  exists vs,
    _evaluate s pts d = Ok vs
    /\ length vs = n_samples x
    /\ forall i j, (i < n_samples x)%nat -> (j < length pts)%nat ->
                   nth j (nth i vs []) 0 == c * nth j (nth i vx []) 0.
Proof.
  intros Hmul Hx. apply mul_scalar_ok in Hmul as [_ ->].
  unfold _evaluate in *. cbn [basis coefficients rows].
  destruct (Basis_evaluate (basis x) pts d) as [B | e]; [| discriminate].
  cbn [rbind] in *. injection Hx as <-.
  eexists. split; [reflexivity |].
  split; [now rewrite length_tensordot, length_map |].
  intros i j Hi Hj.
  rewrite !tensordot_entry; try assumption; [| now rewrite length_map].
  rewrite (nth_map_rows (fun r => map (fun a => a * c) r)) by exact Hi.
  apply dot_scale.
Qed.

Lemma combine_repeat {A B} (l : list A) (b : B) :
  combine l (repeat b (length l)) = map (fun a => (a, b)) l.
Proof. induction l as [| a l IH]; cbn; [reflexivity | now rewrite IH]. Qed.

Lemma rmap_pure_in {A B} (f : A -> result B) (g : A -> B) (l : list A) :
  (forall a, In a l -> f a = Ok (g a)) -> rmap f l = Ok (map g l).
Proof.
  induction l as [| a l IH]; intros H; cbn; [reflexivity |].
  rewrite (H a (or_introl eq_refl)), IH; [reflexivity |].
  intros a' Ha'. apply H. now right.
Qed.

Lemma Forall2_map_same {A B} (R : B -> B -> Prop) (f g : A -> B) (l : list A) :
  (forall a, R (f a) (g a)) -> Forall2 R (map f l) (map g l).
Proof. intros H. induction l as [| a l IH]; cbn; constructor; auto. Qed.

(** X7.  Evaluation with one row of points per sample
    ([_evaluate_composed]) agrees with the shared evaluation ([_evaluate])
    when every sample is given the same points. *)
Theorem evaluate_composed_common_points (self : FDataBasis) (pts : list Q) (d : Z)
        (va : list (list Q)) :
  _evaluate self pts d = Ok va ->
  exists vu,
    _evaluate_composed self (repeat pts (n_samples self)) d = Ok vu
    /\ Forall2 (Forall2 Qeq) vu va.
Proof.
  rewrite _evaluate_composed_rows by (rewrite repeat_length; lia).
  unfold _evaluate, n_samples, shape0. intros Ha.
  rewrite combine_repeat.
  destruct (Basis_evaluate (basis self) pts d) as [B | e] eqn:HB; [| discriminate].
  cbn [rbind] in Ha. injection Ha as <-.
  exists (map (fun r => map (fun j => dot (column j B) r) (seq 0 (length pts)))
              (rows (coefficients self))).
  split.
  - rewrite (rmap_pure_in _ (fun ip : list Q * list Q =>
                               map (fun j => dot (column j B) (fst ip))
                                   (seq 0 (length pts)))).
    + now rewrite map_map.
    + intros ip Hip. apply in_map_iff in Hip as (r & <- & _). cbn [fst snd].
      now rewrite HB.
  - unfold tensordot. apply Forall2_map_same. intros r.
    apply Forall2_map_same. intros j. apply dot_comm.
Qed.

(** *** Arithmetic on coefficients *)

Lemma broadcast_op_same_shape (op : Q -> Q -> Q) (x y : ndarray) :
  shape1 y = shape1 x -> shape0 y = shape0 x ->
  broadcast_op op x y
  = Ok {| shape1 := shape1 x;
          rows := map (fun p => map (fun q => op (fst q) (snd q)) (combine (fst p) (snd p)))
                      (combine (rows x) (rows y)) |}.
Proof.
  intros H1 H0. unfold broadcast_op. now rewrite H1, H0, !Nat.eqb_refl.
Qed.

Lemma add_sub_row (r t : list Q) :
  length r = length t ->
  Forall2 Qeq (map (fun q => fst q - snd q)
                   (combine (map (fun q => fst q + snd q) (combine r t)) t)) r.
Proof.
  revert t. induction r as [| a r IH]; intros [| b t] Hlen; try discriminate; cbn.
  - constructor.
  - constructor; [ring | apply IH; now injection Hlen].
Qed.

Lemma add_sub_rows (X Y : list (list Q)) (m : nat) :
  length X = length Y ->
  Forall (fun r => length r = m) X ->
  Forall (fun r => length r = m) Y ->
  Forall2 (Forall2 Qeq)
          (map (fun p => map (fun q => fst q - snd q) (combine (fst p) (snd p)))
               (combine (map (fun p => map (fun q => fst q + snd q) (combine (fst p) (snd p)))
                             (combine X Y)) Y)) X.
Proof.
  revert Y. induction X as [| r X IH]; intros [| t Y] Hlen HX HY; try discriminate; cbn.
  - constructor.
  - inversion HX as [| ? ? Hr HX']; inversion HY as [| ? ? Ht HY']; subst.
    constructor; [apply add_sub_row; congruence | apply IH; auto].
Qed.

(** X8.  Subtracting what was added gives the first operand back: for two
    objects on equal bases with equally many samples, [(x + y) - y] is an
    object on the basis of [x] with the coefficients of [x]. *)
Theorem add_sub_round_trip (x y s : FDataBasis) :
  n_samples y = n_samples x ->
  wf_ndarray (coefficients x) ->
  wf_ndarray (coefficients y) ->
  __add__ x (OpFData y) = Ok s ->
  exists d,
    __sub__ s (OpFData y) = Ok d
    /\ basis d = basis x
    /\ shape1 (coefficients d) = shape1 (coefficients x)
    /\ Forall2 (Forall2 Qeq) (rows (coefficients d)) (rows (coefficients x)).
Proof.
  intros Hn Hwx Hwy Hadd.
  apply add_fdata_ok in Hadd as (Heq & c & Hc & Hcols & ->).
  apply (same_basis_op_rows Qplus) in Hc as [Hs1 ->]; [| exact Hn].
  cbn [shape1] in Hcols.
  assert (Hlen : length (rows (coefficients x)) = length (rows (coefficients y))).
  { symmetry. exact Hn. }
  unfold __sub__, _sub_same_basis, copy. cbn [basis coefficients]. rewrite Heq. cbn [negb].
  rewrite broadcast_op_same_shape; cbn [shape1 rows]; [| exact Hs1 |].
  2:{ unfold shape0. cbn [rows]. rewrite length_map, length_combine, <- Hlen.
      now rewrite Nat.min_id. }
  cbn [rbind fst snd]. unfold FDataBasis__init__, Basis_copy. cbn [atleast_2d shape1].
  rewrite Hcols, Nat.eqb_refl. cbn [negb].
  eexists. split; [reflexivity |]. cbn [basis coefficients shape1 rows].
  split; [reflexivity |]. split; [reflexivity |].
  apply (add_sub_rows _ _ (shape1 (coefficients x))); [exact Hlen | exact Hwx |].
  unfold wf_ndarray in Hwy. now rewrite Hs1 in Hwy.
Qed.

Lemma column0_op_scalar (op : Q -> Q -> Q) (coefs : ndarray) (c : Q) :
  shape1 coefs <> 0%nat ->
  column0_op op coefs [c]
  = Ok {| shape1 := shape1 coefs;
          rows := map (fun r => match r with
                                | [] => []
                                | c0 :: r' => op c0 c :: r'
                                end) (rows coefs) |}.
Proof.
  intros Hne. unfold column0_op. now destruct (Nat.eqb_spec (shape1 coefs) 0).
Qed.

(** X9.  Right subtraction [c - self] of an integer [c] is computed as
    [(self * -1) + c]: on an object with at least one basis function it
    succeeds, keeps the basis and the number of samples, replaces the first
    coefficient [a0] of every sample by [a0 * -1 + c], that is [c - a0],
    and negates the others.  (The constant is an integer because
    [_add_constant] writes the sums into a copy of the coefficients, which
    keeps their element type: with integer coefficients the sum with a
    fractional constant is truncated, [5.5 - [[1, 2]]] giving [[4, -2]].) *)
Theorem rsub_scalar (self : FDataBasis) (z : Z) :
  shape1 (coefficients self) = n_basis (basis self) ->
  (1 <= n_basis (basis self))%nat ->
  let c := inject_Z z in
  exists r,
    __rsub__ self (OpScalar c) = Ok r
    /\ basis r = basis self
    /\ n_samples r = n_samples self
    /\ rows (coefficients r)
       = map (fun row => match row with
                         | [] => []
                         | a0 :: rest => (a0 * - (1) + c) :: map (fun a => a * - (1)) rest
                         end) (rows (coefficients self))
    /\ Forall2 (fun row' row =>
                  Forall2 Qeq row' (match row with
                                    | [] => []
                                    | a0 :: rest => (c - a0) :: map Qopp rest
                                    end))
               (rows (coefficients r)) (rows (coefficients self)).
Proof.
  intros Hinv Hn c. unfold __rsub__, __mul__, _mul_constant, copy. cbn [as_list].
  rewrite broadcast_col_mul_scalar. cbn [rbind fst snd]. unfold Basis_copy.
  unfold FDataBasis__init__ at 1. cbn [atleast_2d shape1]. rewrite Hinv, Nat.eqb_refl.
  cbn [negb rbind]. unfold __add__, _add_constant, copy. cbn [as_list basis coefficients].
  rewrite column0_op_scalar by (cbn [shape1]; lia). cbn [rbind fst snd shape1 rows].
  unfold FDataBasis__init__, Basis_copy. cbn [atleast_2d shape1]. rewrite Nat.eqb_refl.
  cbn [negb]. eexists. split; [reflexivity |]. cbn [basis coefficients rows].
  split; [reflexivity |]. split; [unfold n_samples, shape0; cbn; now rewrite !length_map |].
  rewrite map_map.
  assert (Hrows : forall l : list (list Q),
             map (fun x => match map (fun a => a * - (1)) x with
                           | [] => []
                           | c0 :: r' => c0 + c :: r'
                           end) l
             = map (fun row => match row with
                               | [] => []
                               | a0 :: rest => (a0 * - (1) + c) :: map (fun a => a * - (1)) rest
                               end) l).
  { intros l. apply map_ext. now intros [| a0 rest]. }
  rewrite Hrows. split; [reflexivity |].
  induction (rows (coefficients self)) as [| row l IH]; cbn [map]; constructor; [| exact IH].
  destruct row as [| a0 rest]; constructor; [ring |].
  clear. induction rest as [| a rest IH]; cbn [map]; constructor; [ring | exact IH].
Qed.

Lemma broadcast_op_error (op : Q -> Q -> Q) (x y : ndarray) (e : exn) :
  broadcast_op op x y = Raise e -> e = ValueError.
Proof.
  unfold broadcast_op. destruct (negb _); [congruence |].
  destruct (_ =? _)%nat; [discriminate |].
  destruct (rows x) as [| r [| r' xs]], (rows y) as [| t [| t' ys]]; congruence.
Qed.

Lemma init_error (b : Basis) (c : array_like) (e : exn) :
  FDataBasis__init__ b c = Raise e -> e = ValueError.
Proof. unfold FDataBasis__init__. destruct (negb _); congruence. Qed.

(** X10.  Between two functional objects, [+] and [-] raise
    [NotImplementedError] exactly when the bases are not equal (every
    other failure is a [ValueError] of shapes), and [*] always raises
    it. *)
Theorem arithmetic_not_implemented (x y : FDataBasis) :
  (__add__ x (OpFData y) = Raise NotImplementedError
   <-> Basis__eq__ (basis x) (basis y) = false)
  /\ (__sub__ x (OpFData y) = Raise NotImplementedError
      <-> Basis__eq__ (basis x) (basis y) = false)
  /\ __mul__ x (OpFData y) = Raise NotImplementedError.
Proof.
  unfold __add__, __sub__, __mul__, _add_same_basis, _sub_same_basis, copy.
  destruct (Basis__eq__ (basis x) (basis y)); cbn [negb rbind].
  - repeat split; try discriminate; intros H; exfalso.
    + destruct (broadcast_op Qplus _ _) as [c | e] eqn:Hc; cbn [rbind fst snd] in H.
      * apply init_error in H. discriminate.
      * apply broadcast_op_error in Hc. congruence.
    + destruct (broadcast_op Qminus _ _) as [c | e] eqn:Hc; cbn [rbind fst snd] in H.
      * apply init_error in H. discriminate.
      * apply broadcast_op_error in Hc. congruence.
  - repeat split; reflexivity.
Qed.

(** *** Indexing, splitting and joining samples *)

Lemma copy_rows (self : FDataBasis) (r : list (list Q)) :
  shape1 (coefficients self) = n_basis (basis self) ->
  copy self None (Some (Arr2 {| shape1 := shape1 (coefficients self); rows := r |}))
  = Ok {| basis := basis self;
          coefficients := {| shape1 := shape1 (coefficients self); rows := r |} |}.
Proof.
  intros Hinv. unfold copy, FDataBasis__init__, Basis_copy. cbn [atleast_2d shape1].
  now rewrite Hinv, Nat.eqb_refl.
Qed.

(** The slice [l[key:key + 1]]. *)
Lemma py_slice_key {A} (l : list A) (key : Z) (d : A) :
  let n := Z.of_nat (length l) in
  py_slice l key (key + 1)
  = if ((0 <=? key) && (key <? n))%Z then [nth (Z.to_nat key) l d]
    else if ((- n <=? key) && (key <? -1))%Z then [nth (Z.to_nat (n + key)) l d]
         else [].
Proof.
  intros n. unfold py_slice.
  remember (slice_bound (length l) key) as s eqn:Hs.
  remember (slice_bound (length l) (key + 1)) as e eqn:He.
  unfold slice_bound in Hs, He. fold n in Hs, He.
  assert (Hn : n = Z.of_nat (length l)) by reflexivity.
  destruct (Z.leb_spec 0 key) as [H0 | H0], (Z.ltb_spec key n) as [H1 | H1]; cbn [andb].
  - destruct (Z.ltb_spec key 0), (Z.ltb_spec (key + 1) 0); try lia.
    replace (e - s)%nat with 1%nat by lia. replace s with (Z.to_nat key) by lia.
    rewrite (firstn_1_skipn l (Z.to_nat key) d).
    destruct (Nat.ltb_spec (Z.to_nat key) (length l)); [reflexivity | lia].
  - destruct (Z.leb_spec (- n) key), (Z.ltb_spec key (-1)); cbn [andb]; try lia.
    destruct (Z.ltb_spec key 0), (Z.ltb_spec (key + 1) 0); try lia.
    replace (e - s)%nat with 0%nat by lia. reflexivity.
  - destruct (Z.leb_spec (- n) key) as [H2 | H2], (Z.ltb_spec key (-1)) as [H3 | H3];
      cbn [andb];
      destruct (Z.ltb_spec key 0), (Z.ltb_spec (key + 1) 0); try lia.
    + replace (e - s)%nat with 1%nat by lia. replace s with (Z.to_nat (n + key)) by lia.
      rewrite (firstn_1_skipn l (Z.to_nat (n + key)) d).
      destruct (Nat.ltb_spec (Z.to_nat (n + key)) (length l)); [reflexivity | lia].
    + replace (e - s)%nat with 0%nat by lia. reflexivity.
    + replace (e - s)%nat with 0%nat by lia. reflexivity.
    + replace (e - s)%nat with 0%nat by lia. reflexivity.
  - lia.
Qed.

(** X11.  Indexing by an integer takes the slice [key:key + 1] of the
    rows, so it never raises on an object whose coefficients fit its basis:
    a key in [0, n) or in [-n, -2] selects one sample, and every other key
    gives an object without samples.  This includes the keys beyond the
    end and the key [-1], whose slice [-1:0] is empty. *)
Theorem getitem_int_rows (self : FDataBasis) (key : Z) :
  shape1 (coefficients self) = n_basis (basis self) ->
  let n := Z.of_nat (n_samples self) in
  let r := rows (coefficients self) in
  exists fd,
    getitem_int self key = Ok fd
    /\ basis fd = basis self
    /\ ((0 <= key < n)%Z -> rows (coefficients fd) = [nth (Z.to_nat key) r []])
    /\ ((- n <= key < -1)%Z -> rows (coefficients fd) = [nth (Z.to_nat (n + key)) r []])
    /\ ((key = -1 \/ n <= key \/ key < - n)%Z -> n_samples fd = 0%nat)
    /\ ((0 <= key)%Z -> getitem self (Z.to_nat key) = Ok fd).
Proof.
  intros Hinv n r. unfold getitem_int. rewrite (copy_rows _ _ Hinv).
  eexists. split; [reflexivity |]. cbn [basis coefficients rows]. split; [reflexivity |].
  unfold n_samples, shape0. cbn [coefficients rows].
  rewrite (py_slice_key _ key []). fold r. change (Z.of_nat (length r)) with n.
  destruct (Z.leb_spec 0 key) as [H0 | H0], (Z.ltb_spec key n) as [H1 | H1]; cbn [andb].
  - repeat split; try reflexivity; try lia.
    intros _. unfold getitem. rewrite (copy_rows _ _ Hinv). do 3 f_equal. fold r.
    rewrite (firstn_1_skipn r (Z.to_nat key) []).
    destruct (Nat.ltb_spec (Z.to_nat key) (length r)) as [_ | Hc]; [reflexivity |].
    unfold n, n_samples, shape0 in H1. fold r in H1. lia.
  - destruct (Z.leb_spec (- n) key), (Z.ltb_spec key (-1)); cbn [andb]; try lia.
    repeat split; try reflexivity; try lia.
    intros _. unfold getitem. rewrite (copy_rows _ _ Hinv). do 3 f_equal. fold r.
    rewrite (firstn_1_skipn r (Z.to_nat key) []).
    destruct (Nat.ltb_spec (Z.to_nat key) (length r)) as [Hc | _]; [| reflexivity].
    unfold n, n_samples, shape0 in H1. fold r in H1. lia.
  - destruct (Z.leb_spec (- n) key), (Z.ltb_spec key (-1)); cbn [andb];
      repeat split; try reflexivity; lia.
  - unfold n in *. lia.
Qed.

Lemma flat_map_singletons {A} (l : list A) (s k : nat) :
  (s + k <= length l)%nat ->
  flat_map (fun i => firstn 1 (skipn i l)) (seq s k) = firstn k (skipn s l).
Proof.
  revert s. induction k as [| k IH]; intros s Hlen; cbn [seq flat_map]; [reflexivity |].
  rewrite IH by lia.
  assert (Hs : (s < length l)%nat) by lia.
  clear IH Hlen. revert s Hs. induction l as [| a l IHl]; intros s Hs; cbn in Hs; [lia |].
  destruct s as [| s]; [reflexivity |]. cbn [skipn]. apply IHl. lia.
Qed.

Lemma to_list_items (self : FDataBasis) :
  shape1 (coefficients self) = n_basis (basis self) ->
  to_list self
  = Ok (map (fun i => {| basis := basis self;
                         coefficients :=
                           {| shape1 := shape1 (coefficients self);
                              rows := firstn 1 (skipn i (rows (coefficients self))) |} |})
            (seq 0 (n_samples self))).
Proof.
  intros Hinv. unfold to_list. apply rmap_pure. intros i. unfold getitem.
  apply (copy_rows _ _ Hinv).
Qed.

(** X12.  Splitting and joining are inverse: [to_list] gives one object
    with one sample for each sample, all on the basis of [self], and
    concatenating the first of them with the others gives [self] back. *)
Theorem to_list_concatenate (self : FDataBasis) :
  (forall t, family_eqb t t = true) ->
  shape1 (coefficients self) = n_basis (basis self) ->
  (1 <= n_samples self)%nat ->
  exists first others,
    to_list self = Ok (first :: others)
    /\ length (first :: others) = n_samples self
    /\ Forall (fun fd => n_samples fd = 1%nat /\ basis fd = basis self) (first :: others)
    /\ concatenate first others = Ok self.
Proof.
  intros Hrefl Hinv Hn. rewrite (to_list_items _ Hinv).
  set (item := fun i => {| basis := basis self;
                           coefficients :=
                             {| shape1 := shape1 (coefficients self);
                                rows := firstn 1 (skipn i (rows (coefficients self))) |} |}).
  assert (Hitems : Forall (fun fd => n_samples fd = 1%nat /\ basis fd = basis self)
                          (map item (seq 0 (n_samples self)))).
  { apply Forall_forall. intros fd Hfd. apply in_map_iff in Hfd as (i & <- & Hi).
    apply in_seq in Hi. split; [| reflexivity].
    unfold n_samples, shape0, item. cbn [coefficients rows].
    rewrite (firstn_1_skipn _ i []).
    destruct (Nat.ltb_spec i (length (rows (coefficients self)))) as [_ | Hc]; [reflexivity |].
    unfold n_samples, shape0 in Hi. lia. }
  assert (Hrows : flat_map (fun fd => rows (coefficients fd)) (map item (seq 0 (n_samples self)))
                  = rows (coefficients self)).
  { rewrite flat_map_concat_map, map_map, <- flat_map_concat_map. unfold item.
    cbn [coefficients rows]. unfold n_samples, shape0.
    rewrite flat_map_singletons by lia. cbn [skipn]. apply firstn_all. }
  destruct (n_samples self) as [| n] eqn:Hns; [lia |].
  cbn [seq map] in *. exists (item 0%nat), (map item (seq 1 n)).
  split; [reflexivity |]. split; [cbn; now rewrite length_map, length_seq |].
  split; [exact Hitems |].
  unfold concatenate.
  assert (Hbasis : forallb (fun other => Basis__eq__ (basis other) (basis (item 0%nat)))
                           (map item (seq 1 n)) = true).
  { apply forallb_forall. intros fd Hfd. apply in_map_iff in Hfd as (i & <- & _).
    unfold item, Basis__eq__. cbn [basis].
    now rewrite Hrefl, _same_domain_refl, Nat.eqb_refl. }
  rewrite Hbasis. unfold np_concatenate0.
  assert (Hshape : forallb (fun o => (shape1 o =? shape1 (coefficients (item 0%nat)))%nat)
                           (map coefficients (map item (seq 1 n))) = true).
  { apply forallb_forall. intros c Hc. apply in_map_iff in Hc as (fd & <- & Hfd).
    apply in_map_iff in Hfd as (i & <- & _). apply Nat.eqb_refl. }
  rewrite Hshape. cbn [rbind].
  replace (flat_map rows (coefficients (item 0%nat) :: map coefficients (map item (seq 1 n))))
    with (rows (coefficients self)).
  2:{ symmetry. etransitivity; [| exact Hrows]. cbn [flat_map]. f_equal.
      now rewrite !flat_map_concat_map, map_map. }
  unfold copy, FDataBasis__init__, Basis_copy, item. cbn [basis coefficients atleast_2d shape1].
  rewrite Hinv, Nat.eqb_refl. cbn [negb]. rewrite <- Hinv.
  now destruct self as [b [m r]].
Qed.

Lemma concatenate_ok (self : FDataBasis) (others : list FDataBasis) (fd : FDataBasis) :
  concatenate self others = Ok fd ->
  forallb (fun other => Basis__eq__ (basis other) (basis self)) others = true
  /\ fd = {| basis := basis self;
             coefficients :=
               {| shape1 := shape1 (coefficients self);
                  rows := rows (coefficients self)
                          ++ flat_map (fun o => rows (coefficients o)) others |} |}.
Proof.
  unfold concatenate, np_concatenate0.
  destruct (forallb _ others); [| discriminate].
  destruct (forallb _ (map coefficients others)); cbn [rbind]; [| discriminate].
  unfold copy, Basis_copy. intros H. apply init_inv in H as [-> _]. split; [reflexivity |].
  cbn [flat_map]. do 3 f_equal. now rewrite !flat_map_concat_map, map_map.
Qed.

(** X13.  [concatenate] raises [ValueError] as soon as one of the other
    objects is on a different basis.  When it returns, the result is on
    the basis of [self], its samples are those of [self] followed by those
    of the others in order, so that the numbers of samples add up and
    indexing it at a position of [self] gives the sample of [self]. *)
Theorem concatenate_samples (self : FDataBasis) (others : list FDataBasis) :
  (forallb (fun other => Basis__eq__ (basis other) (basis self)) others = false ->
   concatenate self others = Raise ValueError)
  /\ (forall fd,
         concatenate self others = Ok fd ->
         basis fd = basis self
         /\ rows (coefficients fd)
            = rows (coefficients self) ++ flat_map (fun o => rows (coefficients o)) others
         /\ n_samples fd = (n_samples self + list_sum (map n_samples others))%nat
         /\ forall i, (i < n_samples self)%nat -> getitem fd i = getitem self i).
Proof.
  split.
  - intros H. unfold concatenate. now rewrite H.
  - intros fd H. apply concatenate_ok in H as [_ ->]. cbn [basis coefficients rows].
    split; [reflexivity |]. split; [reflexivity |]. split.
    + unfold n_samples, shape0. cbn [coefficients rows]. rewrite length_app. f_equal.
      induction others as [| o others IH]; cbn; [reflexivity |].
      now rewrite length_app, IH.
    + intros i Hi. unfold getitem, copy. cbn [basis coefficients shape1 rows].
      unfold n_samples, shape0 in Hi.
      replace (firstn 1 (skipn i (rows (coefficients self)
                                  ++ flat_map (fun o => rows (coefficients o)) others)))
        with (firstn 1 (skipn i (rows (coefficients self)))); [reflexivity |].
      rewrite !(firstn_1_skipn _ i []), length_app.
      destruct (Nat.ltb_spec i (length (rows (coefficients self)))) as [_ | Hc]; [| lia].
      destruct (Nat.ltb_spec i (length (rows (coefficients self))
                                + length (flat_map (fun o => rows (coefficients o)) others)))
        as [_ | Hc]; [| lia].
      now rewrite app_nth1.
Qed.

(** *** Means and products by numbers *)

Lemma qsum_repeat (c : Q) (n : nat) : qsum (repeat c n) == inject_Z (Z.of_nat n) * c.
Proof.
  induction n as [| n IH]; [cbn; ring |].
  cbn [repeat]. change (qsum (c :: repeat c n)) with (c + qsum (repeat c n)).
  rewrite IH, Nat2Z.inj_succ. unfold Z.succ. rewrite inject_Z_plus. ring.
Qed.

Lemma dot_repeat (u : list Q) (c : Q) : dot u (repeat c (length u)) == c * qsum u.
Proof.
  induction u as [| a u IH]; [cbn; ring |].
  cbn [length repeat]. rewrite dot_cons, IH.
  change (qsum (a :: u)) with (a + qsum u). ring.
Qed.

Lemma inject_nat_nonzero (n : nat) : (1 <= n)%nat -> ~ inject_Z (Z.of_nat n) == 0.
Proof. intros Hn H. unfold Qeq in H. cbn in H. lia. Qed.

Lemma length_column (j : nat) (m : list (list Q)) : length (column j m) = length m.
Proof. apply length_map. Qed.

(** X14.  The mean of an object with at least one sample, with or without
    weights, is an object with exactly one sample on the same basis, and
    equal non-zero weights give the coefficients of the unweighted
    mean. *)
Theorem mean_equal_weights (self : FDataBasis) (c : Q) :
  shape1 (coefficients self) = n_basis (basis self) ->
  (1 <= n_samples self)%nat ->
  ~ c == 0 ->
  exists m mw,
    mean self None = Ok m
    /\ mean self (Some (repeat c (n_samples self))) = Ok mw
    /\ n_samples m = 1%nat /\ n_samples mw = 1%nat
    /\ basis m = basis self /\ basis mw = basis self
    /\ Forall2 (Forall2 Qeq) (rows (coefficients mw)) (rows (coefficients m)).
Proof.
  intros Hinv Hn Hc. unfold mean, np_average0, copy, Basis_copy.
  rewrite repeat_length. unfold n_samples. rewrite Nat.eqb_refl. cbn [negb].
  assert (Hsum : ~ qsum (repeat c (shape0 (coefficients self))) == 0).
  { rewrite qsum_repeat. intros H. apply Qmult_integral in H as [H | H]; [| contradiction].
    exact (inject_nat_nonzero _ Hn H). }
  destruct (Qeq_bool (qsum (repeat c (shape0 (coefficients self)))) 0) eqn:Hb.
  { apply Qeq_bool_iff in Hb. contradiction. }
  cbn [rbind]. unfold FDataBasis__init__. cbn [atleast_2d shape1].
  unfold np_mean0. rewrite !length_map, !length_seq, Hinv, Nat.eqb_refl. cbn [negb].
  eexists _, _. split; [reflexivity |]. split; [reflexivity |].
  unfold shape0. cbn [basis coefficients rows length].
  repeat (split; [reflexivity |]).
  constructor; [| constructor].
  apply Forall2_map_same. intros j.
  pose proof (dot_repeat (column j (rows (coefficients self))) c) as Hdot.
  rewrite length_column in Hdot. unfold shape0 in Hsum |- *. rewrite Hdot.
  rewrite qsum_repeat in Hsum |- *.
  pose proof (inject_nat_nonzero _ Hn) as Hnz. unfold n_samples, shape0 in Hnz.
  field. split; assumption.
Qed.

Lemma broadcast_col_mul_repeat (a : ndarray) (c : Q) :
  broadcast_col_mul a (repeat c (shape0 a)) = broadcast_col_mul a [c].
Proof.
  rewrite broadcast_col_mul_scalar. unfold broadcast_col_mul.
  rewrite repeat_length, Nat.eqb_refl. unfold shape0. rewrite combine_repeat, map_map.
  reflexivity.
Qed.

(** X15.  Multiplying by an integer or by a list of numbers with [times]
    involves no evaluation grid and no smoother: it is the computation of
    the operator [*] on the coefficients, with the same result or the same
    error, the integer scaling every sample. *)
Theorem times_number_is_mul (self : FDataBasis) :
  (forall z : Z, times self (TInt z) = ([], __mul__ self (OpScalar (inject_Z z))))
  /\ (forall l : list Q, times self (TList l) = ([], __mul__ self (OpList l))).
Proof.
  split.
  - intros z. cbn [times]. unfold n_samples. rewrite broadcast_col_mul_repeat.
    unfold __mul__, _mul_constant. cbn [as_list].
    rewrite broadcast_col_mul_scalar. cbn [rbind fst snd]. unfold Basis_copy, copy.
    unfold lift, bind. reflexivity.
  - intros l. cbn [times]. unfold __mul__, _mul_constant. cbn [as_list].
    destruct (broadcast_col_mul (coefficients self) l) as [c | e];
      cbn [rbind fst snd]; unfold Basis_copy, copy, lift, bind; reflexivity.
Qed.

(** *** [shift] on a restricted domain: the new interval *)

Lemma is_least_unique (m1 m2 : Q) (l : list Q) : is_least m1 l -> is_least m2 l -> m1 == m2.
Proof.
  intros [Hin1 H1] [Hin2 H2]. apply Qle_antisym; [apply H1 | apply H2]; assumption.
Qed.

Lemma is_greatest_unique (m1 m2 : Q) (l : list Q) :
  is_greatest m1 l -> is_greatest m2 l -> m1 == m2.
Proof.
  intros [Hin1 H1] [Hin2 H2]. apply Qle_antisym; [apply H2 | apply H1]; assumption.
Qed.

Lemma py_min_0_compat (x y : Q) : x == y -> py_min x 0 == py_min y 0.
Proof. intros H. now rewrite !py_min_Qmin, H. Qed.

Lemma py_max_0_compat (x y : Q) : x == y -> py_max x 0 == py_max y 0.
Proof. intros H. now rewrite !py_max_Qmax, H. Qed.

(** X16.  [shift] with a vector of shifts and [restrict_domain=True]
    works on the interval [(a - min(0, min shifts), b - max(0, max
    shifts))].  When the shifts spread over at least the length of the
    domain, this interval is not well-defined and [shift] raises
    [ValueError] from the constructor of the rescaled basis, before the
    smoother is called.  When [shift] returns, the domain of the result is
    this interval, well-defined and contained in the original domain. *)
Theorem shift_restricted_interval (self : FDataBasis) (v : list Q)
        (eval_points : option (list Q)) (lo hi : Q) :
  length v = n_samples self ->
  is_least lo v ->
  is_greatest hi v ->
  let dr := fd_domain_range self in
  (snd dr - fst dr <= py_max hi 0 - py_min lo 0 ->
   shift self (ShiftVector v) true eval_points = ([], Raise ValueError))
  /\ (forall fd,
         outcome (shift self (ShiftVector v) true eval_points) = Ok fd ->
         fst (fd_domain_range fd) == fst dr - py_min lo 0
         /\ snd (fd_domain_range fd) == snd dr - py_max hi 0
         /\ fst dr <= fst (fd_domain_range fd)
         /\ fst (fd_domain_range fd) < snd (fd_domain_range fd)
         /\ snd (fd_domain_range fd) <= snd dr).
Proof.
  intros Hlen Hlo Hhi dr.
  assert (Hne : v <> []).
  { destruct Hlo as [Hin _]. intros ->. contradiction. }
  destruct (shift_restricted self v eval_points Hlen Hne) as (lo' & hi' & Hlo' & Hhi' & Hshift).
  cbn zeta in Hshift. rewrite Hshift. clear Hshift. fold dr.
  pose proof (py_min_0_compat _ _ (is_least_unique _ _ _ Hlo' Hlo)) as Hmin.
  pose proof (py_max_0_compat _ _ (is_greatest_unique _ _ _ Hhi' Hhi)) as Hmax.
  unfold evaluate_unaligned.
  rewrite _evaluate_composed_rows by (rewrite length_map; lia).
  erewrite rmap_pure by (intros ip; unfold Basis_evaluate; cbn; reflexivity).
  rewrite bind_lift. split.
  - intros Hwide. unfold rescale, Basis__init__, _check_domain. cbn [fst snd].
    assert (Hle : Qle_bool (snd dr - py_max hi' 0) (fst dr - py_min lo' 0) = true).
    { apply Qle_bool_iff. rewrite Hmin, Hmax. lra. }
    rewrite Hle. reflexivity.
  - intros fd Hfd. apply bind_ok in Hfd as (_basis & Hb & Hfd).
    unfold lift, outcome in Hb. cbn [snd] in Hb. unfold rescale in Hb.
    apply Basis__init__ok in Hb as (-> & _ & Hdom).
    apply from_data_ok in Hfd as (coefs & _ & Hfd). apply init_inv in Hfd as [-> _].
    unfold fd_domain_range, domain_range in *. cbn [basis _domain_range fst snd] in *.
    destruct (py_min_spec lo' 0) as (_ & _ & Hmin0).
    destruct (py_max_spec hi' 0) as (_ & _ & Hmax0).
    repeat split; lra.
Qed.

(** *** The Gram matrix and the inner-product matrix of two bases *)

Definition entry (a : list (list Q)) (i j : nat) : Q := nth j (nth i a []) 0.

Lemma length_update {A} (i : nat) (f : A -> A) (l : list A) :
  length (update i f l) = length l.
Proof.
  revert i. induction l as [| a l IH]; intros [| i]; cbn; try reflexivity. now rewrite IH.
Qed.

Lemma nth_update {A} (i k : nat) (f : A -> A) (l : list A) (d : A) :
  (i < length l)%nat ->
  nth k (update i f l) d = if (k =? i)%nat then f (nth i l d) else nth k l d.
Proof.
  revert i k. induction l as [| a l IH]; intros i k Hi; cbn in Hi; [lia |].
  destruct i as [| i], k as [| k]; cbn; try reflexivity. apply IH. lia.
Qed.

Lemma nth_update_other {A} (i k : nat) (f : A -> A) (l : list A) (d : A) :
  k <> i -> nth k (update i f l) d = nth k l d.
Proof.
  revert i k. induction l as [| a l IH]; intros i k Hne.
  - now destruct i.
  - destruct i as [| i], k as [| k]; cbn; try reflexivity; [lia |]. apply IH. lia.
Qed.

Lemma get_entry_ok (a : list (list Q)) (i j : nat) (v : Q) :
  get_entry a i j = Ok v ->
  (i < length a)%nat /\ (j < length (nth i a []))%nat /\ v = entry a i j.
Proof.
  unfold get_entry, entry. destruct (nth_error a i) as [r |] eqn:Hr; [| discriminate].
  destruct (nth_error r j) as [w |] eqn:Hw; [| discriminate]. intros [= <-].
  assert (Hi : (i < length a)%nat) by (apply nth_error_Some; congruence).
  assert (Hj : (j < length r)%nat) by (apply nth_error_Some; congruence).
  rewrite (nth_error_nth _ _ [] Hr). repeat split; try assumption.
  symmetry. now apply nth_error_nth.
Qed.

Lemma get_entry_in_range (a : list (list Q)) (i j : nat) :
  (i < length a)%nat -> (j < length (nth i a []))%nat ->
  get_entry a i j = Ok (entry a i j).
Proof.
  intros Hi Hj. unfold get_entry, entry.
  rewrite (nth_error_nth' a [] Hi), (nth_error_nth' _ 0 Hj). reflexivity.
Qed.

(** Writing an entry changes that entry and no other, and keeps the
    shape. *)
Lemma set_entry_ok (a a' : list (list Q)) (i j : nat) (v : Q) :
  set_entry a i j v = Ok a' ->
  (i < length a)%nat /\ (j < length (nth i a []))%nat
  /\ length a' = length a
  /\ (forall k, length (nth k a' []) = length (nth k a []))
  /\ forall k l, entry a' k l = if ((k =? i) && (l =? j))%nat then v else entry a k l.
Proof.
  unfold set_entry. intros H. apply rbind_ok in H as (w & Hw & H). injection H as <-.
  apply get_entry_ok in Hw as (Hi & Hj & _).
  split; [exact Hi |]. split; [exact Hj |]. split; [apply length_update |]. split.
  - intros k. rewrite (nth_update i k _ a [] Hi).
    destruct (Nat.eqb_spec k i) as [-> | _]; [apply length_update | reflexivity].
  - intros k l. unfold entry. rewrite (nth_update i k _ a [] Hi).
    destruct (Nat.eqb_spec k i) as [-> | _]; cbn [andb]; [| reflexivity].
    rewrite (nth_update j l _ _ 0 Hj). now destruct (l =? j)%nat.
Qed.

Lemma set_entry_in_range (a : list (list Q)) (i j : nat) (v : Q) :
  (i < length a)%nat -> (j < length (nth i a []))%nat ->
  exists a', set_entry a i j v = Ok a'.
Proof.
  intros Hi Hj. unfold set_entry. rewrite (get_entry_in_range a i j Hi Hj). cbn. eauto.
Qed.

Lemma calls_mfold_Forall {A S} (P : kernel_call -> Prop) (f : S -> A -> M S) (l : list A) :
  (forall s a, Forall P (calls (f s a))) ->
  forall s, Forall P (calls (mfold f l s)).
Proof.
  intros Hf. induction l as [| a l IH]; intros s; cbn [mfold].
  - constructor.
  - apply Forall_calls_bind; [apply Hf | exact IH].
Qed.

(** A loop whose passes keep an invariant [P] and make [c a] quadratures
    each. *)
Lemma mfold_count {A S} (f : S -> A -> M S) (P : S -> Prop) (c : A -> nat) (l : list A) :
  (forall s a s', In a l -> P s -> outcome (f s a) = Ok s' ->
                  P s' /\ count_quad (calls (f s a)) = c a) ->
  forall s s', P s -> outcome (mfold f l s) = Ok s' ->
               P s' /\ count_quad (calls (mfold f l s)) = list_sum (map c l).
Proof.
  induction l as [| a l IH]; intros Hf s s' Hs Hout; cbn [mfold] in *.
  - cbn in Hout. injection Hout as <-. now split.
  - apply bind_ok in Hout as (s1 & H1 & Hout).
    destruct (Hf s a s1 (or_introl eq_refl) Hs H1) as [Hs1 Hc1].
    destruct (IH (fun s0 a0 s0' Hin => Hf s0 a0 s0' (or_intror Hin)) s1 s' Hs1 Hout)
      as [Hs' Hc].
    split; [exact Hs' |].
    rewrite calls_bind, H1, count_quad_app, Hc1, Hc. reflexivity.
Qed.

Lemma getitem_of (x : FDataBasis) (i : nat) :
  shape1 (coefficients x) = n_basis (basis x) ->
  exists xi,
    getitem x i = Ok xi /\ basis xi = basis x
    /\ n_samples xi = (if (i <? n_samples x)%nat then 1 else 0)%nat.
Proof.
  intros Hinv. unfold getitem. rewrite (copy_rows _ _ Hinv). eexists. split; [reflexivity |].
  split; [reflexivity |]. unfold n_samples, shape0. cbn [coefficients rows].
  rewrite (firstn_1_skipn _ i []). now destruct (i <? _)%nat.
Qed.

(** Two single samples of objects with as many samples as basis
    functions (the objects of two bases) never take the matrix path. *)
Lemma matrix_path_single (x y xi yj : FDataBasis) (i j : nat) :
  n_samples x = fd_n_basis x -> n_samples y = fd_n_basis y ->
  basis xi = basis x -> basis yj = basis y ->
  n_samples xi = (if (i <? n_samples x)%nat then 1 else 0)%nat ->
  n_samples yj = (if (j <? n_samples y)%nat then 1 else 0)%nat ->
  matrix_path xi yj = false.
Proof.
  intros Hx Hy Hbx Hby Hi Hj. unfold matrix_path, fd_n_basis in *.
  rewrite Hbx, Hby, Hi, Hj, <- Hx, <- Hy. apply Nat.ltb_ge.
  destruct (Nat.ltb_spec i (n_samples x)), (Nat.ltb_spec j (n_samples y)); nia.
Qed.

Lemma inner_product_single (xi yj : FDataBasis) :
  matrix_path xi yj = false ->
  let r := inner_product xi (IPFData yj) None None None in
  Forall (fun c => is_smoother_call c = true \/ is_quad_call c = true) (calls r)
  /\ (_same_domain (fd_domain_range xi) (fd_domain_range yj) = false ->
      r = ([], Raise ValueError))
  /\ (forall m, outcome r = Ok m ->
                count_quad (calls r) = (n_samples xi * n_samples yj)%nat).
Proof.
  intros Hpath r. subst r.
  destruct (_same_domain (fd_domain_range xi) (fd_domain_range yj)) eqn:Hdom.
  - rewrite (inner_product_same_domain _ _ Hdom), Hpath.
    split; [apply integrate_calls |]. split; [discriminate |].
    intros m Hm. now apply integrate_quad_count in Hm.
  - assert (Hr : inner_product xi (IPFData yj) None None None = ([], Raise ValueError)).
    { unfold inner_product. cbn [operand_domain_range]. now rewrite Hdom. }
    rewrite Hr. split; [constructor |]. split; [reflexivity | discriminate].
Qed.

Lemma list_sum_ones {A} (l : list A) : list_sum (map (fun _ => 1%nat) l) = length l.
Proof.
  unfold list_sum. induction l as [| a l IH]; cbn; [reflexivity | now rewrite IH].
Qed.

Lemma list_sum_const {A} (m : nat) (l : list A) :
  list_sum (map (fun _ => m) l) = (length l * m)%nat.
Proof.
  unfold list_sum. induction l as [| a l IH]; cbn; [reflexivity | now rewrite IH].
Qed.

Lemma triangle_sum (k s : nat) :
  (2 * list_sum (map (fun i => s + k - i) (seq s k)) = k * (k + 1))%nat.
Proof.
  revert s. induction k as [| k IH]; intros s; [reflexivity |].
  cbn [seq map]. change (list_sum (?a :: ?l)) with (a + list_sum l)%nat.
  rewrite (map_ext_in _ (fun i => (S s + k - i)%nat)) by (intros i _; lia).
  specialize (IH (S s)). lia.
Qed.

Lemma to_basis_ok (b : Basis) :
  to_basis b = Ok {| basis := b; coefficients := identity (n_basis b) |}.
Proof.
  unfold to_basis, FDataBasis__init__, Basis_copy. cbn [atleast_2d identity shape1].
  now rewrite Nat.eqb_refl.
Qed.

Lemma n_samples_identity (b : Basis) :
  n_samples {| basis := b; coefficients := identity (n_basis b) |} = n_basis b.
Proof. unfold n_samples, shape0. cbn. now rewrite length_map, length_seq. Qed.

(** The shape of the matrix a loop fills, and its symmetry. *)
Definition square (n : nat) (g : list (list Q)) : Prop :=
  length g = n /\ (forall k, (k < n)%nat -> length (nth k g []) = n).

Definition symmetric (g : list (list Q)) : Prop := forall k l, entry g k l = entry g l k.

Lemma zeros_square (n : nat) : square n (zeros n n) /\ symmetric (zeros n n).
Proof.
  unfold square, symmetric, zeros, entry. split; [split |].
  - apply repeat_length.
  - intros k Hk. rewrite (nth_indep _ [] (repeat 0 n)) by (now rewrite repeat_length).
    rewrite nth_repeat. apply repeat_length.
  - assert (Hz : forall k l, nth l (nth k (repeat (repeat 0 n) n) []) 0 = 0).
    { intros k l. destruct (Nat.lt_ge_cases k n) as [Hk | Hk].
      - rewrite (nth_indep _ [] (repeat 0 n)) by (now rewrite repeat_length).
        rewrite nth_repeat. destruct (Nat.lt_ge_cases l n) as [Hl | Hl].
        + apply nth_repeat.
        + apply nth_overflow. now rewrite repeat_length.
      - rewrite (nth_overflow _ []) by (now rewrite repeat_length). now destruct l. }
    intros k l. now rewrite !Hz.
Qed.

Lemma square_wf (n : nat) (g : list (list Q)) :
  square n g -> wf_ndarray {| shape1 := n; rows := g |}.
Proof.
  intros [Hlen Hrows]. unfold wf_ndarray. cbn [shape1 rows]. apply Forall_forall.
  intros r Hr. apply (In_nth _ _ []) in Hr as (k & Hk & <-). apply Hrows. lia.
Qed.

(** The two assignments of the body of [_gram_matrix] keep the matrix
    square and symmetric. *)
Lemma gram_step (n i j : nat) (v : Q) (g g' : list (list Q)) :
  square n g -> symmetric g ->
  (g1 <~ set_entry g i j v ;; gij <~ get_entry g1 i j ;; set_entry g1 j i gij) = Ok g' ->
  square n g' /\ symmetric g'.
Proof.
  intros [Hlen Hrows] Hsym H.
  apply rbind_ok in H as (g1 & H1 & H). apply rbind_ok in H as (gij & Hg & H2).
  apply set_entry_ok in H1 as (Hi & Hj & Hlen1 & Hrows1 & Hent1).
  apply get_entry_ok in Hg as (_ & _ & ->).
  apply set_entry_ok in H2 as (_ & _ & Hlen2 & Hrows2 & Hent2).
  assert (Hv : entry g1 i j = v) by (now rewrite Hent1, !Nat.eqb_refl).
  rewrite Hv in Hent2. split; [split |].
  - congruence.
  - intros k Hk. rewrite Hrows2, Hrows1. now apply Hrows.
  - intros k l. rewrite !Hent2, !Hent1, (Hsym k l).
    destruct (Nat.eqb_spec k j), (Nat.eqb_spec l i), (Nat.eqb_spec k i), (Nat.eqb_spec l j);
      cbn [andb]; reflexivity.
Qed.

(** One pass of the inner loop of [_gram_matrix]. *)
Lemma gram_body (b : Basis) (i j : nat) (g : list (list Q)) :
  let fbasis := {| basis := b; coefficients := identity (n_basis b) |} in
  let r := (fi <- lift (getitem fbasis i) ;;
            fj <- lift (getitem fbasis j) ;;
            m <- inner_product fi (IPFData fj) None None None ;;
            lift (v <~ item m ;;
                  gram <~ set_entry g i j v ;;
                  gij <~ get_entry gram i j ;;
                  set_entry gram j i gij)) in
  Forall (fun c => is_smoother_call c = true \/ is_quad_call c = true) (calls r)
  /\ forall g', (i < n_basis b)%nat -> (j < n_basis b)%nat ->
                square (n_basis b) g /\ symmetric g ->
                outcome r = Ok g' ->
                (square (n_basis b) g' /\ symmetric g')
                /\ count_quad (calls r) = 1%nat.
Proof.
  intros fbasis r. subst r.
  assert (Hinv : shape1 (coefficients fbasis) = n_basis (basis fbasis)) by reflexivity.
  assert (Hns : n_samples fbasis = fd_n_basis fbasis) by apply n_samples_identity.
  destruct (getitem_of fbasis i Hinv) as (fi & Hfi & Hbi & Hni).
  destruct (getitem_of fbasis j Hinv) as (fj & Hfj & Hbj & Hnj).
  rewrite Hfi, Hfj, !bind_lift.
  pose proof (matrix_path_single fbasis fbasis fi fj i j Hns Hns Hbi Hbj Hni Hnj) as Hpath.
  destruct (inner_product_single fi fj Hpath) as (Hcalls & _ & Hcount).
  split.
  - apply Forall_calls_bind; [exact Hcalls | intros m; apply Forall_calls_lift].
  - intros g' Hi Hj [Hsq Hsym] Hout. apply bind_ok in Hout as (m & Hm & Hout).
    unfold lift, outcome in Hout. cbn [snd] in Hout.
    apply rbind_ok in Hout as (v & _ & Hout).
    split; [exact (gram_step _ _ _ _ _ _ Hsq Hsym Hout) |].
    rewrite calls_bind, Hm, count_quad_app, (Hcount m Hm), Hni, Hnj.
    unfold fd_n_basis in Hns. rewrite Hns. cbn [basis fbasis].
    destruct (Nat.ltb_spec i (n_basis b)), (Nat.ltb_spec j (n_basis b)); try lia.
    reflexivity.
Qed.

(** X17.  The default Gram matrix of a basis with [n] functions is filled
    from its upper triangle: when [_gram_matrix] returns, the matrix is [n]
    by [n] and symmetric and exactly [n (n + 1) / 2] quadratures have been
    made.  The inner products of the single basis functions never go back
    to the inner-product matrix of the bases.  [gram_matrix] computes this
    matrix once: it stores it on the basis and returns the stored matrix,
    without any kernel call, from then on; and [_inner_matrix] without a
    second basis, or with a second basis equal to the first, is
    [gram_matrix]. *)
Theorem gram_matrix_symmetric (b : Basis) :
  existsb is_inner_matrix_call (calls (_gram_matrix b)) = false
  /\ (forall g : ndarray,
         outcome (_gram_matrix b) = Ok g ->
         shape0 g = n_basis b /\ shape1 g = n_basis b /\ wf_ndarray g
         /\ (forall i j, entry (rows g) i j = entry (rows g) j i)
         /\ (2 * count_quad (calls (_gram_matrix b)) = n_basis b * (n_basis b + 1))%nat)
  /\ (forall g c,
         outcome (gram_matrix b None) = Ok (g, c) ->
         outcome (_gram_matrix b) = Ok g
         /\ calls (gram_matrix b None) = calls (_gram_matrix b)
         /\ c = Some g
         /\ gram_matrix b c = ([], Ok (g, c)))
  /\ (forall other cached,
         match other with
         | None => True
         | Some o => Basis__eq__ b o = true
         end ->
         _inner_matrix b other cached = gram_matrix b cached).
Proof.
  assert (Hcache : (forall g c,
                       outcome (gram_matrix b None) = Ok (g, c) ->
                       outcome (_gram_matrix b) = Ok g
                       /\ calls (gram_matrix b None) = calls (_gram_matrix b)
                       /\ c = Some g
                       /\ gram_matrix b c = ([], Ok (g, c)))
                   /\ (forall other cached,
                          match other with
                          | None => True
                          | Some o => Basis__eq__ b o = true
                          end ->
                          _inner_matrix b other cached = gram_matrix b cached)).
  { split.
    - intros g c. cbn [gram_matrix]. intros H.
      apply bind_ok in H as (g' & Hg' & H). cbn in H. injection H as <- <-.
      split; [exact Hg' |]. split; [| split; reflexivity].
      rewrite calls_bind, Hg'. cbn. apply app_nil_r.
    - intros [o |] cached H; cbn [_inner_matrix]; [now rewrite H | reflexivity]. }
  cut (existsb is_inner_matrix_call (calls (_gram_matrix b)) = false
       /\ (forall g : ndarray,
              outcome (_gram_matrix b) = Ok g ->
              shape0 g = n_basis b /\ shape1 g = n_basis b /\ wf_ndarray g
              /\ (forall i j, entry (rows g) i j = entry (rows g) j i)
              /\ (2 * count_quad (calls (_gram_matrix b)) = n_basis b * (n_basis b + 1))%nat)).
  { intros [H1 H2]. destruct Hcache as [H3 H4]. auto. }
  clear Hcache.
  unfold _gram_matrix. rewrite to_basis_ok, bind_lift.
  unfold fd_n_basis. cbn [basis].
  set (fbasis := {| basis := b; coefficients := identity (n_basis b) |}).
  set (n := n_basis b).
  set (body := fun i (gram : list (list Q)) (j : nat) =>
                 fi <- lift (getitem fbasis i) ;;
                 fj <- lift (getitem fbasis j) ;;
                 m <- inner_product fi (IPFData fj) None None None ;;
                 lift (v <~ item m ;;
                       gram <~ set_entry gram i j v ;;
                       gij <~ get_entry gram i j ;;
                       set_entry gram j i gij)).
  change (mfold _ (seq 0 n) (zeros n n))
    with (mfold (fun gram i => mfold (body i) (seq i (n - i)) gram) (seq 0 n) (zeros n n)).
  split.
  - apply no_inner_matrix_call.
    apply Forall_calls_bind; [| intros gram; constructor].
    apply calls_mfold_Forall. intros gram i.
    apply calls_mfold_Forall. intros gram' j. apply (gram_body b i j gram').
  - intros g Hg. apply bind_ok in Hg as (gram & Hgram & Hg).
    cbn in Hg. injection Hg as <-.
    assert (Hloop : (square n gram /\ symmetric gram)
                    /\ count_quad (calls (mfold (fun gram i => mfold (body i) (seq i (n - i)) gram)
                                                (seq 0 n) (zeros n n)))
                       = list_sum (map (fun i => (0 + n - i)%nat) (seq 0 n))).
    { apply (mfold_count _ (fun g => square n g /\ symmetric g)); [| apply zeros_square | exact Hgram].
      intros s i s' Hi Hs Hs'. apply in_seq in Hi.
      replace (0 + n - i)%nat with (list_sum (map (fun _ : nat => 1%nat) (seq i (n - i))))
        by (rewrite list_sum_ones, length_seq; lia).
      apply (mfold_count _ (fun g => square n g /\ symmetric g)); [| exact Hs | exact Hs'].
      intros s0 j s0' Hj Hs0 Hs0'. apply in_seq in Hj.
      apply (gram_body b i j s0); try assumption; unfold n in *; lia. }
    destruct Hloop as [[Hsq Hsym] Hcount].
    cbn [shape1 rows]. unfold shape0. cbn [rows].
    split; [apply Hsq |]. split; [reflexivity |]. split; [now apply square_wf |].
    split; [exact Hsym |].
    rewrite calls_bind, Hgram, count_quad_app. cbn [calls ret fst].
    change (count_quad []) with 0%nat. rewrite Nat.add_0_r, Hcount. apply triangle_sum.
Qed.

Definition rectangular (n m : nat) (g : list (list Q)) : Prop :=
  length g = n /\ (forall k, (k < n)%nat -> length (nth k g []) = m).

Lemma zeros_rectangular (n m : nat) : rectangular n m (zeros n m).
Proof.
  unfold rectangular, zeros. split; [apply repeat_length |].
  intros k Hk. rewrite (nth_indep _ [] (repeat 0 m)) by (now rewrite repeat_length).
  rewrite nth_repeat. apply repeat_length.
Qed.

Lemma rectangular_wf (n m : nat) (g : list (list Q)) :
  rectangular n m g -> wf_ndarray {| shape1 := m; rows := g |}.
Proof.
  intros [Hlen Hrows]. unfold wf_ndarray. cbn [shape1 rows]. apply Forall_forall.
  intros r Hr. apply (In_nth _ _ []) in Hr as (k & Hk & <-). apply Hrows. lia.
Qed.

(** One pass of the inner loop of [_inner_matrix]. *)
Lemma inner_body (b1 b2 : Basis) (i j : nat) (g : list (list Q)) :
  let first := {| basis := b1; coefficients := identity (n_basis b1) |} in
  let second := {| basis := b2; coefficients := identity (n_basis b2) |} in
  let r := (fi <- lift (getitem first i) ;;
            sj <- lift (getitem second j) ;;
            m <- inner_product fi (IPFData sj) None None None ;;
            lift (v <~ item m ;; set_entry g i j v)) in
  Forall (fun c => is_smoother_call c = true \/ is_quad_call c = true) (calls r)
  /\ (_same_domain (domain_range b1) (domain_range b2) = false -> r = ([], Raise ValueError))
  /\ forall g', (i < n_basis b1)%nat -> (j < n_basis b2)%nat ->
                rectangular (n_basis b1) (n_basis b2) g ->
                outcome r = Ok g' ->
                rectangular (n_basis b1) (n_basis b2) g'
                /\ count_quad (calls r) = 1%nat.
Proof.
  intros first second r. subst r.
  assert (Hinv1 : shape1 (coefficients first) = n_basis (basis first)) by reflexivity.
  assert (Hinv2 : shape1 (coefficients second) = n_basis (basis second)) by reflexivity.
  assert (Hns1 : n_samples first = fd_n_basis first) by apply n_samples_identity.
  assert (Hns2 : n_samples second = fd_n_basis second) by apply n_samples_identity.
  destruct (getitem_of first i Hinv1) as (fi & Hfi & Hbi & Hni).
  destruct (getitem_of second j Hinv2) as (sj & Hsj & Hbj & Hnj).
  rewrite Hfi, Hsj, !bind_lift.
  pose proof (matrix_path_single first second fi sj i j Hns1 Hns2 Hbi Hbj Hni Hnj) as Hpath.
  destruct (inner_product_single fi sj Hpath) as (Hcalls & Hdom & Hcount).
  split; [| split].
  - apply Forall_calls_bind; [exact Hcalls | intros m; apply Forall_calls_lift].
  - intros Hne. unfold fd_domain_range in Hdom. rewrite Hbi, Hbj in Hdom.
    now rewrite (Hdom Hne).
  - intros g' Hi Hj [Hlen Hrows] Hout. apply bind_ok in Hout as (m & Hm & Hout).
    unfold lift, outcome in Hout. cbn [snd] in Hout.
    apply rbind_ok in Hout as (v & _ & Hout).
    apply set_entry_ok in Hout as (_ & _ & Hlen' & Hrows' & _).
    split.
    + split; [congruence |]. intros k Hk. rewrite Hrows'. now apply Hrows.
    + rewrite calls_bind, Hm, count_quad_app, (Hcount m Hm), Hni, Hnj.
      unfold fd_n_basis in Hns1, Hns2. rewrite Hns1, Hns2. cbn [basis first second].
      destruct (Nat.ltb_spec i (n_basis b1)), (Nat.ltb_spec j (n_basis b2)); try lia.
      reflexivity.
Qed.

(** X18.  The inner-product matrix of two different bases with [n] and
    [m] functions is filled entry by entry: when [_inner_matrix] returns,
    the matrix is [n] by [m], exactly [n * m] quadratures have been made and
    the cached Gram matrix is untouched.  Two bases on different domains
    give [ValueError] at the first entry, before any quadrature; and the
    inner products of the single basis functions never go back to the
    inner-product matrix of the bases. *)
Theorem inner_matrix_pairs (self other : Basis) (cached : option ndarray) :
  Basis__eq__ self other = false ->
  let r := _inner_matrix self (Some other) cached in
  existsb is_inner_matrix_call (calls r) = false
  /\ (_same_domain (domain_range self) (domain_range other) = false ->
      (1 <= n_basis self)%nat -> (1 <= n_basis other)%nat ->
      r = ([], Raise ValueError))
  /\ forall g c,
       outcome r = Ok (g, c) ->
       c = cached
       /\ shape0 g = n_basis self /\ shape1 g = n_basis other /\ wf_ndarray g
       /\ count_quad (calls r) = (n_basis self * n_basis other)%nat.
Proof.
  intros Hne r. subst r. unfold _inner_matrix. rewrite Hne, !to_basis_ok, !bind_lift.
  set (first := {| basis := self; coefficients := identity (n_basis self) |}).
  set (second := {| basis := other; coefficients := identity (n_basis other) |}).
  set (n := n_basis self). set (m := n_basis other).
  set (body := fun i (inner : list (list Q)) (j : nat) =>
                 fi <- lift (getitem first i) ;;
                 sj <- lift (getitem second j) ;;
                 m <- inner_product fi (IPFData sj) None None None ;;
                 lift (v <~ item m ;; set_entry inner i j v)).
  change (mfold _ (seq 0 n) (zeros n m))
    with (mfold (fun inner i => mfold (body i) (seq 0 m) inner) (seq 0 n) (zeros n m)).
  split; [| split].
  - apply no_inner_matrix_call.
    apply Forall_calls_bind; [| intros inner; constructor].
    apply calls_mfold_Forall. intros inner i.
    apply calls_mfold_Forall. intros inner' j. apply (inner_body self other i j inner').
  - intros Hdom Hn Hm.
    destruct n as [| n'] eqn:En; [lia |]. destruct m as [| m'] eqn:Em; [lia |].
    cbn [seq mfold].
    destruct (inner_body self other 0 0 (zeros (S n') (S m'))) as (_ & Hraise & _).
    unfold body. fold first second in Hraise. rewrite (Hraise Hdom). reflexivity.
  - intros g c Hg. apply bind_ok in Hg as (inner & Hinner & Hg).
    cbn in Hg. injection Hg as <- <-.
    assert (Hloop : rectangular n m inner
                    /\ count_quad (calls (mfold (fun inner i => mfold (body i) (seq 0 m) inner)
                                                (seq 0 n) (zeros n m)))
                       = list_sum (map (fun _ : nat => m) (seq 0 n))).
    { apply (mfold_count _ (rectangular n m)); [| apply zeros_rectangular | exact Hinner].
      intros s i s' Hi Hs Hs'. apply in_seq in Hi.
      replace m with (list_sum (map (fun _ : nat => 1%nat) (seq 0 m))) at 3
        by (now rewrite list_sum_ones, length_seq).
      apply (mfold_count _ (rectangular n m)); [| exact Hs | exact Hs'].
      intros s0 j s0' Hj Hs0 Hs0'. apply in_seq in Hj.
      apply (inner_body self other i j s0); try assumption; unfold n, m in *; lia. }
    destruct Hloop as [Hrect Hcount].
    cbn [shape1 rows]. unfold shape0. cbn [rows].
    split; [reflexivity |]. split; [apply Hrect |]. split; [reflexivity |].
    split; [now apply (rectangular_wf n) |].
    rewrite calls_bind, Hinner, count_quad_app. cbn [calls ret fst].
    change (count_quad []) with 0%nat.
    now rewrite Nat.add_0_r, Hcount, list_sum_const, length_seq.
Qed.

(** X19.  [Basis.inner_product] with a second basis goes through the
    functional objects of the two bases, which have as many samples as
    basis functions, so the strict test of [FDataBasis.inner_product]
    fails: the inner-product matrix of the bases is never used, and when a
    matrix is returned it is [n] by [m] and has cost [n * m] quadratures.
    Two bases on different domains give [ValueError] at once. *)
Theorem basis_inner_product_basis (self other : Basis) :
  let r := Basis_inner_product self (IPBasis other) in
  existsb is_inner_matrix_call (calls r) = false
  /\ (_same_domain (domain_range self) (domain_range other) = false ->
      r = ([], Raise ValueError))
  /\ forall m,
       outcome r = Ok m ->
       shape0 m = n_basis self /\ shape1 m = n_basis other
       /\ count_quad (calls r) = (n_basis self * n_basis other)%nat.
Proof.
  intros r. subst r. unfold Basis_inner_product. rewrite to_basis_ok, bind_lift.
  set (first := {| basis := self; coefficients := identity (n_basis self) |}).
  set (second := {| basis := other; coefficients := identity (n_basis other) |}).
  destruct (_same_domain (domain_range self) (domain_range other)) eqn:Hdom.
  - assert (Hr : inner_product first (IPBasis other) None None None
                 = _inner_product_integrate first second (LinearDifferentialOperator 0)
                                            (LinearDifferentialOperator 0)).
    { unfold inner_product. cbn [operand_domain_range]. unfold fd_domain_range. cbn [basis first].
      rewrite Hdom. cbn [negb]. rewrite to_basis_ok, bind_lift. fold second. cbn [bind ret].
      assert (Hpath : matrix_path first second = false).
      { unfold matrix_path, fd_n_basis, first, second. cbn [basis].
        rewrite !n_samples_identity. apply Nat.ltb_irrefl. }
      rewrite Hpath. destruct (_inner_product_integrate _ _ _ _); reflexivity. }
    rewrite Hr. split; [apply no_inner_matrix_call, integrate_calls |].
    split; [discriminate |]. intros m Hm.
    apply integrate_quad_count in Hm as (Hc & H0 & H1).
    unfold first, second in Hc, H0, H1. rewrite !n_samples_identity in *. auto.
  - assert (Hr : inner_product first (IPBasis other) None None None = ([], Raise ValueError)).
    { unfold inner_product. cbn [operand_domain_range]. unfold fd_domain_range. cbn [basis first].
      now rewrite Hdom. }
    rewrite Hr. split; [reflexivity |]. split; [reflexivity | discriminate].
Qed.

(** *** Division by numbers *)

(** X20.  Division by a non-zero number is undone by multiplication: on an
    object whose coefficients fit its basis, [(self / c) * c] exists, is on
    the basis of [self] and has the coefficients of [self]. *)
Theorem truediv_mul_round_trip (self : FDataBasis) (c : Q) :
  shape1 (coefficients self) = n_basis (basis self) ->
  ~ c == 0 ->
  exists q r,
    __truediv__ self [c] = Ok q
    /\ __mul__ q (OpScalar c) = Ok r
    /\ basis r = basis self
    /\ n_samples r = n_samples self
    /\ Forall2 (Forall2 Qeq) (rows (coefficients r)) (rows (coefficients self)).
Proof.
  intros Hinv Hc. unfold __truediv__, __mul__, _mul_constant, copy. cbn [as_list map].
  rewrite broadcast_col_mul_scalar. cbn [rbind fst snd]. unfold Basis_copy.
  unfold FDataBasis__init__ at 1. cbn [atleast_2d shape1]. rewrite Hinv, Nat.eqb_refl.
  cbn [negb]. eexists. eexists. split; [reflexivity |]. cbn [basis coefficients].
  rewrite broadcast_col_mul_scalar. cbn [rbind fst snd shape1 rows].
  unfold FDataBasis__init__. cbn [atleast_2d shape1]. rewrite Nat.eqb_refl. cbn [negb].
  split; [reflexivity |]. cbn [basis coefficients rows]. split; [reflexivity |].
  split; [unfold n_samples, shape0; cbn [coefficients rows]; now rewrite !length_map |].
  rewrite map_map.
  induction (rows (coefficients self)) as [| row l IH]; cbn [map]; constructor; [| exact IH].
  rewrite map_map. clear -Hc.
  induction row as [| a row IH]; cbn [map]; constructor; [field; exact Hc | exact IH].
Qed.

End FDataBasisModel.


(** ** An instance: monomial bases with exact kernels

    The theorems above hold for every family of bases and every kernel.
    The instance below makes them run: the monomial basis [1, t, t^2, ...],
    its exact inner-product matrix, a trapezoidal quadrature, and a
    least-squares smoother that solves the normal equations by elimination. *)

Inductive basis_family : Set := Constant | Monomial.

Definition basis_family_eqb (f g : basis_family) : bool :=
  match f, g with
  | Constant, Constant | Monomial, Monomial => true
  | _, _ => false
  end.

(** [k (k-1) ... (k-d+1)], the factor of the [d]-th derivative of [t^k]. *)
Fixpoint falling (k d : nat) : Z :=
  match d with
  | O => 1
  | S d' => (Z.of_nat k * falling (k - 1) d')%Z
  end.

Definition monomial_evaluate (b : @Basis basis_family) (eval_points : list Q)
           (derivative : Z) : list (list Q) :=
  let d := Z.to_nat derivative in
  map (fun k => map (fun t => inject_Z (falling k d) * t ^ (Z.of_nat (k - d)))
                    eval_points)
      (seq 0 (n_basis b)).

Definition monomial_derivative (b : @Basis basis_family) (coefs : ndarray) (order : Z)
  : @Basis basis_family * ndarray :=
  let d := Z.to_nat order in
  (b, {| shape1 := shape1 coefs;
         rows := map (fun r => map (fun k => inject_Z (falling (k + d) d) * nth (k + d) r 0)
                                   (seq 0 (shape1 coefs)))
                     (rows coefs) |}).

Definition monomial_basis_of_product (one other : @Basis basis_family)
  : result (@Basis basis_family) :=
  if negb (_same_domain (domain_range one) (domain_range other)) then Raise ValueError
  else Basis__init__ Monomial (Some (domain_range one)) (n_basis one + n_basis other - 1).

Definition monomial_inner_matrix (one other : @Basis basis_family) : result ndarray :=
  let '(a, b) := domain_range one in
  Ok {| shape1 := n_basis other;
        rows := map (fun i =>
                       map (fun j =>
                              let p := Z.of_nat (i + j + 1) in
                              Qred ((b ^ p - a ^ p) / inject_Z p))
                           (seq 0 (n_basis other)))
                    (seq 0 (n_basis one)) |}.

Definition trapezoid_quad (f : Q -> Q) (a b : Q) : Q :=
  Qred ((b - a) * (f a + f b) / 2).

(** Elimination on an [n] by [n] system given by its augmented rows. *)
Fixpoint solve (n : nat) (aug : list (list Q)) : result (list Q) :=
  match n with
  | O => Ok []
  | S n' =>
      let nonzero r := negb (Qeq_bool (hd 0 r) 0) in
      match filter nonzero aug with
      | [] => Raise LinAlgError
      | piv :: _ =>
          let p := map (fun x => x / hd 0 piv) (tl piv) in
          let reduce r := map (fun xy => Qred (fst xy - hd 0 r * snd xy)) (combine (tl r) p) in
          let others := (fix drop_first (l : list (list Q)) : list (list Q) :=
                           match l with
                           | [] => []
                           | r :: l' => if nonzero r then l' else r :: drop_first l'
                           end) aug in
          xs <~ solve n' (map reduce others) ;;
          Ok (Qred (last p 0 - dot (removelast p) xs) :: xs)
      end
  end.

(** The least-squares fit of every row of [data_matrix]: the solution of
    the normal equations [(B B^T) c = B y], [B] holding the values of the
    basis functions at the sample points. *)
Definition monomial_smoother (data_matrix : list (list Q)) (sample_points : list Q)
           (b : @Basis basis_family) : result ndarray :=
  let B := monomial_evaluate b sample_points 0 in
  fitted <~ rmap (fun y => solve (n_basis b)
                                 (map (fun Bi => map (dot Bi) B ++ [dot Bi y]) B))
                 data_matrix ;;
  Ok {| shape1 := n_basis b; rows := fitted |}.

Definition unit_interval_monomial (n : nat) : @Basis basis_family :=
  {| basis_type := Monomial; _domain_range := None; n_basis := n |}.

Definition monomial_fd (n : nat) (coefs : list (list Q)) : @FDataBasis basis_family :=
  {| basis := unit_interval_monomial n;
     coefficients := {| shape1 := n; rows := coefs |} |}.

Definition m_times := times monomial_evaluate monomial_basis_of_product monomial_smoother.
Definition m_inner_product :=
  inner_product monomial_evaluate monomial_basis_of_product monomial_inner_matrix
                trapezoid_quad monomial_smoother.
Definition m_shift := shift monomial_evaluate monomial_smoother.

Example solve_2x2 : solve 2 [[2; 1; 5]; [1; 3; 10]] = Ok [1; 3].
Proof. reflexivity. Qed.

Example monomial_smoother_line :
  monomial_smoother [[1; 3; 5]] [0; 1; 2] (unit_interval_monomial 2)
  = Ok {| shape1 := 2; rows := [[1; 2]] |}.
Proof. reflexivity. Qed.

(** ** Instances of the theorems on [inner_product] *)

(** Two samples against two samples on one basis function: 4 > 1, the
    matrix path. *)
Example inner_product_matrix_path_run :
  m_inner_product (monomial_fd 1 [[1]; [2]]) (IPFData (monomial_fd 1 [[3]; [4]]))
                  None None None
  = ([call_inner_matrix (unit_interval_monomial 1) (unit_interval_monomial 1)],
     Ok {| shape1 := 2; rows := [[3; 4]; [6; 8]] |}).
Proof. vm_compute. reflexivity. Qed.

(** One sample against one sample on one basis function: 1 > 1 fails, the
    product is projected and integrated by quadrature. *)
Example inner_product_integrate_run :
  let r := m_inner_product (monomial_fd 1 [[2]]) (IPFData (monomial_fd 1 [[3]]))
                           None None None in
  outcome r = Ok {| shape1 := 1; rows := [[6]] |}
  /\ existsb is_inner_matrix_call (calls r) = false
  /\ count_quad (calls r) = 1%nat.
Proof. vm_compute. auto. Qed.


Lemma inner_product_domain_guard_witness :
  m_inner_product (monomial_fd 1 [[1]])
                  (IPBasis {| basis_type := Monomial; _domain_range := Some (0, 2); n_basis := 1 |})
                  None None None
  = ([], Raise ValueError).
Proof.
  apply (proj1 (inner_product_domain_guard
                  monomial_evaluate monomial_basis_of_product monomial_inner_matrix
                  trapezoid_quad monomial_smoother
                  (monomial_fd 1 [[1]])
                  (IPBasis {| basis_type := Monomial; _domain_range := Some (0, 2); n_basis := 1 |})
                  None None None)).
  reflexivity.
Defined.

(** ** Instances of the theorems on [times] *)

(** The constants 2 and 3, through the grid of 201 points and the
    smoother: the constant 6. *)
Example times_run :
  outcome (m_times (monomial_fd 1 [[2]]) (TFData (monomial_fd 1 [[3]])))
  = Ok {| basis := {| basis_type := Monomial; _domain_range := Some (0, 1); n_basis := 1 |};
          coefficients := {| shape1 := 1; rows := [[6]] |} |}.
Proof. vm_compute. reflexivity. Qed.

Definition wide_fd : @FDataBasis basis_family := monomial_fd 30 [repeat 0 30].

Definition wide_product_basis : @Basis basis_family :=
  {| basis_type := Monomial; _domain_range := Some (0, 1); n_basis := 59 |}.

(** With 30 basis functions on each side the grid has 301 points, not the
    [max(8 * 30 + 1, 201) = 241] of the claim. *)
Lemma times_grid_counterexample :
  exists fdarray evalarg,
    calls (m_times wide_fd (TFData wide_fd))
    = [call_smoother fdarray evalarg wide_product_basis]
    /\ length evalarg = 301%nat
    /\ length evalarg
       <> Nat.max (8 * Nat.max (fd_n_basis wide_fd) (fd_n_basis wide_fd) + 1) 201.
Proof.
  destruct (times_fdata_reduces monomial_evaluate monomial_basis_of_product monomial_smoother
                                wide_fd wide_fd wide_product_basis
                                eq_refl eq_refl eq_refl eq_refl (or_introl eq_refl))
    as (v1 & v2 & fdarray & _ & _ & _ & Htimes).
  exists fdarray, (linspace 0 1 301).
  unfold m_times. rewrite Htimes, from_data_calls, linspace_length.
  repeat split. cbn. lia.
Qed.

Lemma times_product_on_grid_witness :
  exists fdarray,
    calls (m_times (monomial_fd 2 [[0; 1]]) (TFData (monomial_fd 2 [[1; 1]])))
    = [call_smoother fdarray (linspace 0 1 201)
                     {| basis_type := Monomial; _domain_range := Some (0, 1); n_basis := 3 |}].
Proof.
  destruct (proj2 (times_product_on_grid
                     monomial_evaluate monomial_basis_of_product monomial_smoother
                     (monomial_fd 2 [[0; 1]]) (monomial_fd 2 [[1; 1]]))
                  {| basis_type := Monomial; _domain_range := Some (0, 1); n_basis := 3 |}
                  eq_refl eq_refl eq_refl eq_refl (or_introl eq_refl))
    as (_ & _ & v1 & v2 & fdarray & _ & _ & _ & _ & Hcalls & _).
  exists fdarray. exact Hcalls.
Defined.

(** ** Instances of the invariant and of the round trip *)

Lemma coefficient_columns_invariant_witness :
  FDataBasis__init__ (unit_interval_monomial 3) (Arr1 [1; 2]) = Raise ValueError.
Proof.
  apply (proj1 (proj1 (coefficient_columns_invariant basis_family_eqb monomial_evaluate
                         monomial_derivative monomial_basis_of_product monomial_smoother)
                      (unit_interval_monomial 3) (Arr1 [1; 2]))).
  cbn. lia.
Defined.

(** The line [1 + 2 t] on the points 0, 1, 2. *)
Lemma monomial_line_nondegenerate :
  nondegenerate monomial_evaluate (unit_interval_monomial 2) [0; 1; 2].
Proof.
  intros v Hlen Hv.
  destruct v as [| a [| b [| ? ?]]]; try discriminate.
  pose proof (Hv 0%nat ltac:(cbn; lia)) as H0.
  pose proof (Hv 1%nat ltac:(cbn; lia)) as H1.
  unfold dot, qsum in H0, H1. cbn in H0, H1.
  unfold inject_Z in H0, H1.
  constructor; [lra | constructor; [lra | constructor]].
Qed.

Lemma from_data_evaluate_round_trip_witness :
  from_data_spec monomial_evaluate [[1; 3; 5]] [0; 1; 2] (unit_interval_monomial 2)
                 (monomial_fd 2 [[1; 2]]).
Proof.
  refine (proj1 (from_data_evaluate_round_trip
                   monomial_evaluate (monomial_fd 2 [[1; 2]]) [0; 1; 2] [[1; 3; 5]]
                   _ _ _ _)).
  - reflexivity.
  - repeat constructor.
  - exact monomial_line_nondegenerate.
  - reflexivity.
Defined.

(** The smoother of the instance returns these very coefficients. *)
Example from_data_evaluate_run :
  (Y <~ evaluate monomial_evaluate (monomial_fd 2 [[1; 2]]) [0; 1; 2] 0 ;;
   outcome (from_data monomial_smoother Y [0; 1; 2] (unit_interval_monomial 2)))
  = Ok (monomial_fd 2 [[1; 2]]).
Proof. reflexivity. Qed.

(** ** [shift] by a scalar and by a constant vector *)

(** The curve [f(t) = t] on [[0, 1]]. *)
Definition ramp : @FDataBasis basis_family := monomial_fd 2 [[0; 1]].

(** C4, at [fd.shift(0.25)] against [fd.shift([0.25])] for [f(t) = t],
    both discretized on the points 0, 1/2, 1: the
    scalar path returns [g(t) = t - 1/4 = f(t - 1/4)] on [[1/4, 5/4]], the
    vector path [g(t) = t + 1/4 = f(t + 1/4)] on [[0, 1]].  At the common
    point [1/2] the first has the value [1/4], the second [3/4]: the two
    paths translate the curve in opposite directions. *)
Theorem shift_scalar_vector_opposite :
  exists fd_scalar fd_vector a b,
    outcome (m_shift ramp (ShiftScalar (1 # 4)) false (Some [0; 1 # 2; 1])) = Ok fd_scalar
    /\ outcome (m_shift ramp (ShiftVector [1 # 4]) false (Some [0; 1 # 2; 1])) = Ok fd_vector
    /\ domain_range (basis fd_scalar) = (1 # 4, 5 # 4)
    /\ rows (coefficients fd_scalar) = [[- (1 # 4); 1]]
    /\ domain_range (basis fd_vector) = (0, 1)
    /\ rows (coefficients fd_vector) = [[1 # 4; 1]]
    /\ evaluate monomial_evaluate fd_scalar [1 # 2] 0 = Ok [[a]]
    /\ evaluate monomial_evaluate fd_vector [1 # 2] 0 = Ok [[b]]
    /\ a == 1 # 4 /\ b == 3 # 4.
Proof.
  do 4 eexists.
  split; [vm_compute; reflexivity |].
  split; [vm_compute; reflexivity |].
  repeat (split; [reflexivity |]). split; reflexivity.
Qed.

(** ** Instances of the further properties of [Basis] and [FDataBasis] *)

Lemma Basis_eq_equivalence_witness :
  Basis__eq__ basis_family_eqb (unit_interval_monomial 3)
              {| basis_type := Monomial; _domain_range := Some (0, 1); n_basis := 3 |} = true.
Proof.
  refine (proj2 (proj2 (proj2 (Basis_eq_equivalence basis_family_eqb _ _ _))) Monomial 3%nat).
  - now intros [].
  - now intros [] [].
  - now intros [] [] [].
Defined.

Lemma rescale_constructed_witness :
  rescale (unit_interval_monomial 3) (Some (0, 2))
  = Ok {| basis_type := Monomial; _domain_range := Some (0, 2); n_basis := 3 |}
  /\ rescale (unit_interval_monomial 3) (Some (2, 2)) = Raise ValueError.
Proof.
  destruct (rescale_constructed Monomial None 3 (unit_interval_monomial 3) eq_refl) as [H _].
  split; [apply (proj1 (H (0, 2))); reflexivity | apply (proj2 (H (2, 2))); cbn; lra].
Defined.

Lemma to_basis_evaluate_witness :
  exists fd vals,
    to_basis (unit_interval_monomial 2) = Ok fd
    /\ n_samples fd = 2%nat
    /\ _evaluate monomial_evaluate fd [0; 1] 0 = Ok vals
    /\ length vals = 2%nat
    /\ forall i j, (i < 2)%nat -> (j < 2)%nat ->
                   nth j (nth i vals []) 0
                   == nth j (nth i (monomial_evaluate (unit_interval_monomial 2) [0; 1] 0) []) 0.
Proof.
  apply (to_basis_evaluate monomial_evaluate (unit_interval_monomial 2) [0; 1] 0). lia.
Defined.

Lemma evaluate_add_pointwise_witness :
  exists vs,
    _evaluate monomial_evaluate (monomial_fd 2 [[4; 6]]) [0; 1] 0 = Ok vs
    /\ length vs = 1%nat
    /\ forall i j, (i < 1)%nat -> (j < 2)%nat ->
                   nth j (nth i vs []) 0
                   == nth j (nth i [[1; 3]] []) 0 + nth j (nth i [[3; 7]] []) 0.
Proof.
  apply (evaluate_add_pointwise basis_family_eqb monomial_evaluate
                                (monomial_fd 2 [[1; 2]]) (monomial_fd 2 [[3; 4]])
                                (monomial_fd 2 [[4; 6]]) [0; 1] 0 [[1; 3]] [[3; 7]]);
    try reflexivity; repeat constructor.
Defined.

Lemma evaluate_mul_scalar_witness :
  exists vs,
    _evaluate monomial_evaluate (monomial_fd 2 [[3; 6]]) [0; 1] 0 = Ok vs
    /\ length vs = 1%nat
    /\ forall i j, (i < 1)%nat -> (j < 2)%nat ->
                   nth j (nth i vs []) 0 == 3 * nth j (nth i [[1; 3]] []) 0.
Proof.
  apply (evaluate_mul_scalar monomial_evaluate (monomial_fd 2 [[1; 2]])
                             (monomial_fd 2 [[3; 6]]) 3 [0; 1] 0 [[1; 3]]);
    reflexivity.
Defined.

Lemma evaluate_composed_common_points_witness :
  exists vu,
    _evaluate_composed monomial_evaluate (monomial_fd 2 [[1; 2]; [3; 4]])
                       [[0; 1]; [0; 1]] 0 = Ok vu
    /\ Forall2 (Forall2 Qeq) vu [[1; 3]; [3; 7]].
Proof.
  apply (evaluate_composed_common_points monomial_evaluate (monomial_fd 2 [[1; 2]; [3; 4]])
                                         [0; 1] 0 [[1; 3]; [3; 7]]).
  reflexivity.
Defined.

Lemma add_sub_round_trip_witness :
  exists d,
    __sub__ basis_family_eqb (monomial_fd 2 [[4; 6]]) (OpFData (monomial_fd 2 [[3; 4]])) = Ok d
    /\ basis d = unit_interval_monomial 2
    /\ shape1 (coefficients d) = 2%nat
    /\ Forall2 (Forall2 Qeq) (rows (coefficients d)) [[1; 2]].
Proof.
  apply (add_sub_round_trip basis_family_eqb (monomial_fd 2 [[1; 2]]) (monomial_fd 2 [[3; 4]])
                            (monomial_fd 2 [[4; 6]]));
    try reflexivity; repeat constructor.
Defined.

Lemma rsub_scalar_witness :
  exists r,
    __rsub__ basis_family_eqb (monomial_fd 2 [[1; 2]]) (OpScalar 5) = Ok r
    /\ basis r = unit_interval_monomial 2
    /\ n_samples r = 1%nat
    /\ rows (coefficients r) = [[1 * - (1) + 5; 2 * - (1)]]
    /\ Forall2 (fun row' row =>
                  Forall2 Qeq row' (match row with
                                    | [] => []
                                    | a0 :: rest => (5 - a0) :: map Qopp rest
                                    end))
               (rows (coefficients r)) [[1; 2]].
Proof.
  apply (rsub_scalar basis_family_eqb (monomial_fd 2 [[1; 2]]) 5%Z); [reflexivity | cbn; lia].
Defined.

Lemma getitem_int_rows_witness :
  exists fd,
    getitem_int (monomial_fd 1 [[1]; [2]; [3]]) (-1) = Ok fd /\ n_samples fd = 0%nat.
Proof.
  destruct (getitem_int_rows (monomial_fd 1 [[1]; [2]; [3]]) (-1) eq_refl)
    as (fd & Hfd & _ & _ & _ & Hempty & _).
  exists fd. split; [exact Hfd | apply Hempty; now left].
Defined.

Lemma to_list_concatenate_witness :
  exists first others,
    to_list (monomial_fd 1 [[1]; [2]]) = Ok (first :: others)
    /\ length (first :: others) = 2%nat
    /\ Forall (fun fd => n_samples fd = 1%nat /\ basis fd = unit_interval_monomial 1)
              (first :: others)
    /\ concatenate basis_family_eqb first others = Ok (monomial_fd 1 [[1]; [2]]).
Proof.
  apply (to_list_concatenate basis_family_eqb (monomial_fd 1 [[1]; [2]]));
    [now intros [] | reflexivity | cbn; lia].
Defined.

Lemma mean_equal_weights_witness :
  exists m mw,
    mean (monomial_fd 2 [[1; 2]; [3; 4]]) None = Ok m
    /\ mean (monomial_fd 2 [[1; 2]; [3; 4]]) (Some [2; 2]) = Ok mw
    /\ n_samples m = 1%nat /\ n_samples mw = 1%nat
    /\ basis m = unit_interval_monomial 2 /\ basis mw = unit_interval_monomial 2
    /\ Forall2 (Forall2 Qeq) (rows (coefficients mw)) (rows (coefficients m)).
Proof.
  apply (mean_equal_weights (monomial_fd 2 [[1; 2]; [3; 4]]) 2);
    [reflexivity | cbn; lia | lra].
Defined.

Lemma shift_restricted_interval_witness :
  m_shift (monomial_fd 2 [[0; 1]]) (ShiftVector [2]) true (Some [0; 1 # 2; 1])
  = ([], Raise ValueError).
Proof.
  refine (proj1 (shift_restricted_interval monomial_evaluate monomial_smoother
                                           (monomial_fd 2 [[0; 1]]) [2] (Some [0; 1 # 2; 1])
                                           2 2 eq_refl _ _) _).
  - split; [now left | intros x [<- | []]; lra].
  - split; [now left | intros x [<- | []]; lra].
  - vm_compute. discriminate.
Defined.

(** The Gram matrix of the monomial basis with the single function 1 on
    [(0, 1)], through one product, one projection and one quadrature. *)
Example gram_matrix_run :
  let r := _gram_matrix monomial_evaluate monomial_basis_of_product monomial_inner_matrix
                        trapezoid_quad monomial_smoother (unit_interval_monomial 1) in
  outcome r = Ok {| shape1 := 1; rows := [[1]] |} /\ count_quad (calls r) = 1%nat.
Proof. vm_compute. auto. Qed.

Lemma inner_matrix_pairs_witness :
  _inner_matrix basis_family_eqb monomial_evaluate monomial_basis_of_product
                monomial_inner_matrix trapezoid_quad monomial_smoother
                (unit_interval_monomial 1)
                (Some {| basis_type := Monomial; _domain_range := Some (0, 2); n_basis := 1 |})
                None
  = ([], Raise ValueError).
Proof.
  apply (proj1 (proj2 (inner_matrix_pairs
                         basis_family_eqb monomial_evaluate monomial_basis_of_product
                         monomial_inner_matrix trapezoid_quad monomial_smoother
                         (unit_interval_monomial 1)
                         {| basis_type := Monomial; _domain_range := Some (0, 2); n_basis := 1 |}
                         None eq_refl)));
    [reflexivity | cbn; lia | cbn; lia].
Defined.

Lemma truediv_mul_round_trip_witness :
  exists q r,
    __truediv__ (monomial_fd 2 [[2; 4]]) [2] = Ok q
    /\ __mul__ q (OpScalar 2) = Ok r
    /\ basis r = unit_interval_monomial 2
    /\ n_samples r = 1%nat
    /\ Forall2 (Forall2 Qeq) (rows (coefficients r)) [[2; 4]].
Proof.
  apply (truediv_mul_round_trip (monomial_fd 2 [[2; 4]]) 2); [reflexivity | lra].
Defined.

(** ** [fda/registration.py] *)

Module registration.

(** The values the argument [ext] is compared with. *)
Inductive ext_value : Set :=
| ext_default     (* "default" or 0 *)
| ext_basis       (* "basis" or 1 *)
| ext_periodic    (* "periodic" or 2 *)
| ext_slice       (* "slice" or 3 *)
| ext_other.      (* anything else *)

(** [scipy.integrate.trapz(y, x)] along one row:
    [sum (diff(x) * (y[1:] + y[:-1]) / 2)]. *)
Fixpoint trapz (y x : list Q) : Q :=
  match y, x with
  | y0 :: (y1 :: _) as y', x0 :: (x1 :: _) as x' =>
      (x1 - x0) * (y1 + y0) / 2 + trapz y' x'
  | _, _ => 0
  end.

(** Boolean-mask indexing [a[mask]]. *)
Fixpoint select {A} (mask : list bool) (a : list A) : list A :=
  match mask, a with
  | m :: mask', x :: a' => if m then x :: select mask' a' else select mask' a'
  | _, _ => []
  end.

Definition vmul (u v : list Q) : list Q := map (fun p => fst p * snd p) (combine u v).
Definition vminus (u v : list Q) : list Q := map (fun p => fst p - snd p) (combine u v).

(** [numpy.divide] of two float arrays, entry by entry.  The quotient is the
    one of the rationals: it is the quotient of the code for a divisor that
    is not zero (there numpy gives an [inf] or a [nan] under a warning),
    which is why the statements about the passes of the loop ask for
    second-order terms that are not zero. *)
Definition vdiv (u v : list Q) : list Q := map (fun p => fst p / snd p) (combine u v).

(** The element type of an array of shifts: [numpy.zeros] makes an array of
    [float64]; [numpy.asarray] of a sequence of Python integers makes an
    array of [int64], and of a sequence with a float in it an array of
    [float64]. *)
Inductive dtype : Set :=
| int64
| float64.

(** [numpy.subtract(u, v, out=u)] for an array [v] of [float64]: the
    difference is a [float64] array, which the default casting rule
    ([same_kind]) does not let numpy write into an integer [out]. *)
Definition subtract_out (out_dtype : dtype) (u v : list Q) : result (list Q) :=
  match out_dtype with
  | float64 => Ok (vminus u v)
  | int64 => Raise TypeError
  end.

Section Registration.

(** The functional object [fd] belongs to a class that is not among the
    sources (it has [nsamples], [nbasis], [evaluate_shifted] and a [shift]
    taking [ext] and [tfine]); its attributes and methods are the variables
    below.  [fd.basis.domain_range] is the pair of the two ends. *)
Context {FD : Type}.
Variable nsamples : FD -> nat.
Variable nbasis : FD -> nat.
Variable basis_domain_range : FD -> Q * Q.
Variable default_extrapolation : FD -> ext_value.
Variable fd_evaluate : FD -> list Q -> Z -> list (list Q).
Variable evaluate_shifted : FD -> list Q -> list Q -> bool -> list (list Q).
Variable fd_shift : FD -> list Q -> ext_value -> list Q -> result FD.

(** The argument [initial] is given by its values and by the element type
    [numpy.asarray(initial)] has. *)
Variable initial_dtype : dtype.

(** [_check_extrapolation]: the pair [(periodic, periodic_ext)]. *)
Definition _check_extrapolation (fd : FD) (ext : ext_value) : result (bool * bool) :=
  let ext := match ext with
             | ext_default => default_extrapolation fd
             | _ => ext
             end in
  match ext with
  | ext_basis => Ok (true, false)
  | ext_periodic => Ok (true, true)
  | ext_slice => Ok (false, false)
  | _ => Raise ValueError
  end.

(** What the Newton-Raphson loop reads and writes: the shifts and the
    element type of their array, the last largest update, the iteration
    count, and the working mesh with the derivative values and the
    second-order term on it. *)
Record loop_state : Type := mk_loop_state {
  delta : list Q;
  delta_dtype : dtype;
  max_diff : Q;
  iter : Z;
  tfine : list Q;
  D1x : list (list Q);
  d2_regsse : list Q
}.

(** The interval of the mesh points kept for the shifts [delta]. *)
Definition working_interval (fd : FD) (delta : list Q) : result (Q * Q) :=
  lo <~ np_min delta ;;
  hi <~ np_max delta ;;
  let a := py_min lo 0 in
  let b := py_max hi 0 in
  Ok (fst (basis_domain_range fd) - a, snd (basis_domain_range fd) - b).

(** The update of the limits at the top of the loop body, for non-periodic
    functions: the mesh, the derivative values and the second-order term
    are cut out of the ones on the whole interval. *)
Definition restrict_mesh (fd : FD) (tfine_tmp : list Q) (D1x_tmp : list (list Q))
           (st : loop_state) : result loop_state :=
  interval <~ working_interval fd (delta st) ;;
  let domain := map (fun t => Qle_bool (fst interval) t && Qle_bool t (snd interval))
                    tfine_tmp in
  let tfine' := select domain tfine_tmp in
  let D1x' := map (select domain) D1x_tmp in
  Ok {| delta := delta st; delta_dtype := delta_dtype st;
        max_diff := max_diff st; iter := iter st;
        tfine := tfine';
        D1x := D1x';
        d2_regsse := map (fun d => trapz (vmul d d) tfine') D1x' |}.

(** The first-order term [d1_regsse]: the curves at their shifted mesh,
    minus their mean over the samples, times the derivative values,
    integrated over the mesh. *)
Definition d1_regsse (fd : FD) (periodic_ext : bool) (st : loop_state) : list Q :=
  let x := evaluate_shifted fd (tfine st) (delta st) periodic_ext in
  let mean := np_mean0 {| shape1 := length (tfine st); rows := x |} in
  let x := map (fun xi => vminus xi mean) x in
  map (fun p => trapz (vmul (fst p) (snd p)) (tfine st)) (combine x (D1x st)).

(** [delta_aux] before the absolute value is taken: [d1 / d2 * alpha]. *)
Definition newton_update (fd : FD) (periodic_ext : bool) (alpha : Q) (st : loop_state)
  : list Q :=
  map (fun q => q * alpha) (vdiv (d1_regsse fd periodic_ext st) (d2_regsse st)).

(** One pass through the body of the [while] loop.  The shifts are
    updated in place, [numpy.subtract(delta, delta_aux, out=delta)], before
    the largest update is taken. *)
Definition newton_step (fd : FD) (periodic periodic_ext : bool) (alpha : Q)
           (tfine_tmp : list Q) (D1x_tmp : list (list Q)) (st : loop_state)
  : result loop_state :=
  st <~ (if negb periodic then restrict_mesh fd tfine_tmp D1x_tmp st else Ok st) ;;
  let delta_aux := newton_update fd periodic_ext alpha st in
  delta' <~ subtract_out (delta_dtype st) (delta st) delta_aux ;;
  max_diff' <~ np_max (map Qabs delta_aux) ;;
  Ok {| delta := delta';
        delta_dtype := delta_dtype st;
        max_diff := max_diff';
        iter := iter st + 1;
        tfine := tfine st;
        D1x := D1x st;
        d2_regsse := d2_regsse st |}.

(** The loop [while max_diff > tol and iter < maxiter].  [iter] starts at 0
    and grows by one in each pass, so [remaining] is [maxiter - iter] and
    the test [iter < maxiter] is the test that [remaining] is not zero. *)
Fixpoint newton_loop (fd : FD) (periodic periodic_ext : bool) (alpha tol : Q)
         (tfine_tmp : list Q) (D1x_tmp : list (list Q))
         (remaining : nat) (st : loop_state) : result loop_state :=
  match remaining with
  | O => Ok st
  | S remaining' =>
      if Qltb tol (max_diff st)
      then st' <~ newton_step fd periodic periodic_ext alpha tfine_tmp D1x_tmp st ;;
           newton_loop fd periodic periodic_ext alpha tol tfine_tmp D1x_tmp remaining' st'
      else Ok st
  end.

(** The state on entry of the loop: [delta] is [numpy.zeros(fd.nsamples)]
    when no initial shifts are given and [numpy.asarray(initial)], with the
    element type of [initial], otherwise (for an [initial] that is already
    an array this is the array of the caller, which the loop updates in
    place; the state holds the values the loop reads and returns). *)
Definition initial_state (fd : FD) (tol : Q) (initial tfine_ : list Q)
  : result loop_state :=
  delta0 <~ (if (length initial =? 0)%nat then Ok (repeat 0 (nsamples fd))
             else if negb (length initial =? nsamples fd)%nat then Raise ValueError
                  else Ok initial) ;;
  let tfine_ := if (length tfine_ =? 0)%nat
                then linspace (fst (basis_domain_range fd)) (snd (basis_domain_range fd))
                              (Nat.max (nbasis fd * 10 + 1) 201)
                else tfine_ in
  let D1x_ := fd_evaluate fd tfine_ 1 in
  Ok {| delta := delta0;
        delta_dtype := if (length initial =? 0)%nat then float64 else initial_dtype;
        max_diff := tol + 1;
        iter := 0;
        tfine := tfine_;
        D1x := D1x_;
        d2_regsse := map (fun d => trapz (vmul d d) tfine_) D1x_ |}.

Inductive registered : Type :=
| shifts_only (shifts : list Q)
| shifted_curves (fd : FD).

(** The defaults of the signature of [shift_registration]:
    [maxiter=5, tol=1e-2, alpha=1]. *)
Definition default_maxiter : Z := 5.
Definition default_tol : Q := 1 # 100.
Definition default_alpha : Q := 1.

(** The loop of [shift_registration], from the arguments to the state on
    exit. *)
Definition registration_loop (fd : FD) (maxiter : Z) (tol : Q) (ext : ext_value)
           (alpha : Q) (initial tfine_ : list Q) : result loop_state :=
  st0 <~ initial_state fd tol initial tfine_ ;;
  pp <~ _check_extrapolation fd ext ;;
  newton_loop fd (fst pp) (snd pp) alpha tol (tfine st0) (D1x st0)
              (Z.to_nat maxiter) st0.

(** [shift_registration]. *)
Definition shift_registration (fd : FD) (maxiter : Z) (tol : Q) (ext : ext_value)
           (alpha : Q) (initial tfine_ : list Q) (shifts_array : bool)
  : result registered :=
  st <~ registration_loop fd maxiter tol ext alpha initial tfine_ ;;
  if shifts_array then Ok (shifts_only (delta st))
  else fd' <~ fd_shift fd (delta st) ext (tfine st) ;; Ok (shifted_curves fd').

(** The argument [location] of [landmark_shift]: one of the four names, a
    value [float] converts, or anything else. *)
Inductive location_value : Type :=
| minimize
| loc_mean
| median
| middle
| number (p : Q)
| invalid.

Fixpoint insert_sorted (x : Q) (l : list Q) : list Q :=
  match l with
  | [] => [x]
  | y :: l' => if Qle_bool x y then x :: l else y :: insert_sorted x l'
  end.

Definition np_mean (l : list Q) : Q := qsum l / inject_Z (Z.of_nat (length l)).

(** [numpy.median]: the middle of the sorted values, or the mean of the two
    middle ones. *)
Definition np_median (l : list Q) : Q :=
  let s := fold_right insert_sorted [] l in
  let n := length l in
  if Nat.even n then (nth (n / 2 - 1) s 0 + nth (n / 2) s 0) / 2
  else nth (n / 2) s 0.

(** The target [p] of [landmark_shift]. *)
Definition landmark_target (fd : FD) (landmarks : list Q) (location : location_value)
  : result Q :=
  match location with
  | minimize =>
      hi <~ np_max landmarks ;;
      lo <~ np_min landmarks ;;
      Ok ((hi + lo) / 2)
  | loc_mean => Ok (np_mean landmarks)
  | median => Ok (np_median landmarks)
  | middle => Ok ((snd (basis_domain_range fd) + fst (basis_domain_range fd)) / 2)
  | number p => Ok p
  | invalid => Raise ValueError
  end.

(** [landmark_shift]. *)
Definition landmark_shift (fd : FD) (landmarks : list Q) (location : location_value)
           (ext : ext_value) (tfine_ : list Q) (shifts_array : bool)
  : result registered :=
  if negb (length landmarks =? nsamples fd)%nat then Raise ValueError
  else
    p <~ landmark_target fd landmarks location ;;
    let shifts := map (fun l => l - p) landmarks in
    if shifts_array then Ok (shifts_only shifts)
    else fd' <~ fd_shift fd shifts ext tfine_ ;; Ok (shifted_curves fd').

(** *** Facts about the helpers *)

Lemma select_filter {A} (f : A -> bool) (l : list A) : select (map f l) l = filter f l.
Proof.
  induction l as [| x l IH]; cbn; [reflexivity |]. rewrite IH. reflexivity.
Qed.

Lemma length_vminus (u v : list Q) : length (vminus u v) = Nat.min (length u) (length v).
Proof. unfold vminus. now rewrite length_map, length_combine. Qed.

Lemma length_vdiv (u v : list Q) : length (vdiv u v) = Nat.min (length u) (length v).
Proof. unfold vdiv. now rewrite length_map, length_combine. Qed.

Lemma np_max_ok (l : list Q) : l <> [] -> exists hi, np_max l = Ok hi.
Proof. destruct l; [contradiction | cbn; eauto]. Qed.

Lemma np_min_ok (l : list Q) : l <> [] -> exists lo, np_min l = Ok lo.
Proof. destruct l; [contradiction | cbn; eauto]. Qed.

Lemma nonempty_length {A} (l : list A) : (0 < length l)%nat -> l <> [].
Proof. destruct l; cbn; [lia | discriminate]. Qed.

(** [k] passes through the body of the loop. *)
Fixpoint iterate_step (fd : FD) (periodic periodic_ext : bool) (alpha : Q)
         (tfine_tmp : list Q) (D1x_tmp : list (list Q)) (k : nat) (st : loop_state)
  : result loop_state :=
  match k with
  | O => Ok st
  | S k' =>
      st' <~ newton_step fd periodic periodic_ext alpha tfine_tmp D1x_tmp st ;;
      iterate_step fd periodic periodic_ext alpha tfine_tmp D1x_tmp k' st'
  end.

(** The state the body works on: the one it was entered with, or, for
    non-periodic functions, that state on the restricted mesh. *)
Definition working_state (fd : FD) (periodic : bool) (tfine_tmp : list Q)
           (D1x_tmp : list (list Q)) (st : loop_state) : result loop_state :=
  if negb periodic then restrict_mesh fd tfine_tmp D1x_tmp st else Ok st.

Lemma newton_step_spec fd periodic periodic_ext alpha tfine_tmp D1x_tmp st st' :
  newton_step fd periodic periodic_ext alpha tfine_tmp D1x_tmp st = Ok st' ->
  exists w,
    working_state fd periodic tfine_tmp D1x_tmp st = Ok w
    /\ delta w = delta st
    /\ delta st' = vminus (delta st)
                          (map (fun q => q * alpha)
                               (vdiv (d1_regsse fd periodic_ext w) (d2_regsse w)))
    /\ np_max (map Qabs (newton_update fd periodic_ext alpha w)) = Ok (max_diff st')
    /\ iter st' = (iter st + 1)%Z
    /\ tfine st' = tfine w
    /\ D1x st' = D1x w.
Proof.
  unfold newton_step, working_state. intros H.
  destruct (if negb periodic then restrict_mesh fd tfine_tmp D1x_tmp st else Ok st)
    as [w | e] eqn:Hw; [| discriminate].
  cbn [rbind] in H. unfold subtract_out in H.
  destruct (delta_dtype w); [discriminate |]. cbn [rbind] in H.
  destruct (np_max (map Qabs (newton_update fd periodic_ext alpha w))) as [m | e] eqn:Hm;
    [| discriminate].
  cbn [rbind] in H. injection H as <-. cbn.
  assert (Hd : delta w = delta st /\ iter w = iter st).
  { destruct periodic; cbn in Hw.
    - injection Hw as <-. auto.
    - unfold restrict_mesh in Hw.
      destruct (working_interval fd (delta st)); [| discriminate].
      cbn in Hw. injection Hw as <-. auto. }
  destruct Hd as [Hd Hi]. exists w. rewrite Hd, Hi. repeat split; try reflexivity; exact Hm.
Qed.

(** A pass is completed only on an array of shifts of [float64], which it
    leaves so. *)
Lemma newton_step_dtype fd periodic periodic_ext alpha tfine_tmp D1x_tmp st st' :
  newton_step fd periodic periodic_ext alpha tfine_tmp D1x_tmp st = Ok st' ->
  delta_dtype st = float64 /\ delta_dtype st' = float64.
Proof.
  unfold newton_step. intros H. apply rbind_ok in H as (w & Hw & H).
  assert (Hd : delta_dtype w = delta_dtype st).
  { destruct periodic; cbn [negb] in Hw.
    - now injection Hw as <-.
    - unfold restrict_mesh in Hw. apply rbind_ok in Hw as (interval & _ & Hw).
      now injection Hw as <-. }
  unfold subtract_out in H. destruct (delta_dtype w) eqn:Hdt; [discriminate |].
  cbn [rbind] in H. apply rbind_ok in H as (m & _ & H). injection H as <-. cbn.
  split; [symmetry; exact Hd | reflexivity].
Qed.

(** On an array of shifts of integers, the first pass raises. *)
Lemma newton_step_int64 fd periodic periodic_ext alpha tfine_tmp D1x_tmp st :
  delta_dtype st = int64 ->
  forall st', newton_step fd periodic periodic_ext alpha tfine_tmp D1x_tmp st <> Ok st'.
Proof.
  intros Hdt st' H. apply newton_step_dtype in H as [H _]. congruence.
Qed.

(** The update is [alpha * d1 / d2], entry by entry. *)
Lemma newton_update_entry (d1 d2 : list Q) (alpha : Q) (i : nat) :
  nth i (map (fun q => q * alpha) (vdiv d1 d2)) 0 == alpha * nth i d1 0 / nth i d2 0.
Proof.
  assert (Hnil : forall j, nth j (@nil Q) 0 = 0) by (intros [| j]; reflexivity).
  revert d2 i. induction d1 as [| a d1 IH]; intros d2 i.
  - cbn [vdiv combine map]. rewrite !Hnil. unfold Qdiv. ring.
  - destruct d2 as [| b d2].
    + cbn [vdiv combine map]. rewrite !Hnil. unfold Qdiv. change (/ 0) with 0. ring.
    + destruct i as [| i]; [cbn; unfold Qdiv; ring | exact (IH d2 i)].
Qed.

(** The loop stops on the first state whose largest update is at most
    [tol], or after [remaining] passes. *)
Lemma newton_loop_spec fd periodic periodic_ext alpha tol tfine_tmp D1x_tmp :
  forall remaining st final,
    newton_loop fd periodic periodic_ext alpha tol tfine_tmp D1x_tmp remaining st = Ok final ->
    exists k,
      (k <= remaining)%nat
      /\ iterate_step fd periodic periodic_ext alpha tfine_tmp D1x_tmp k st = Ok final
      /\ (forall j, (j < k)%nat ->
                    exists stj,
                      iterate_step fd periodic periodic_ext alpha tfine_tmp D1x_tmp j st = Ok stj
                      /\ tol < max_diff stj)
      /\ (max_diff final <= tol \/ k = remaining)
      /\ iter final = (iter st + Z.of_nat k)%Z.
Proof.
  induction remaining as [| n IH]; intros st final H; cbn [newton_loop] in H.
  - injection H as <-. exists 0%nat.
    split; [lia |]. split; [reflexivity |]. split; [intros j Hj; lia |].
    split; [now right | lia].
  - unfold Qltb in H. destruct (Qle_bool (max_diff st) tol) eqn:Hle; cbn [negb] in H.
    + injection H as <-. exists 0%nat.
      split; [lia |]. split; [reflexivity |]. split; [intros j Hj; lia |].
      split; [left; now apply Qle_bool_iff | lia].
    + apply rbind_ok in H as (st' & Hstep & Hloop).
      destruct (IH st' final Hloop) as (k & Hk & Hrun & Hprev & Hstop & Hiter).
      exists (S k). cbn [iterate_step]. rewrite Hstep. cbn [rbind].
      split; [lia |]. split; [exact Hrun |]. split; [| split].
      * intros [| j] Hj.
        -- exists st. split; [reflexivity |].
           apply Qnot_le_lt. intros Hc. apply Qle_bool_iff in Hc. congruence.
        -- cbn [iterate_step]. rewrite Hstep. cbn [rbind]. apply Hprev. lia.
      * destruct Hstop as [Hs | ->]; [now left | now right].
      * apply newton_step_spec in Hstep as (w & _ & _ & _ & _ & Hi & _).
        rewrite Hiter, Hi. lia.
Qed.

(** *** The loop returns *)

(** The arrays of the loop have one entry per sample. *)
Definition per_sample (fd : FD) (st : loop_state) : Prop :=
  length (delta st) = nsamples fd
  /\ length (D1x st) = nsamples fd
  /\ length (d2_regsse st) = nsamples fd.

Lemma restrict_mesh_ok fd tfine_tmp D1x_tmp st :
  (0 < nsamples fd)%nat ->
  length (delta st) = nsamples fd ->
  length D1x_tmp = nsamples fd ->
  exists w, restrict_mesh fd tfine_tmp D1x_tmp st = Ok w /\ per_sample fd w
            /\ delta_dtype w = delta_dtype st.
Proof.
  intros Hn Hd HD. unfold restrict_mesh, working_interval.
  assert (Hne : delta st <> []) by (apply nonempty_length; lia).
  destruct (np_min_ok _ Hne) as [lo ->]. destruct (np_max_ok _ Hne) as [hi ->].
  cbn [rbind]. eexists. split; [reflexivity |].
  unfold per_sample. cbn. rewrite !length_map. auto.
Qed.

Lemma length_d1_regsse fd periodic_ext st :
  (forall pts dl e, length dl = nsamples fd ->
                    length (evaluate_shifted fd pts dl e) = nsamples fd) ->
  length (delta st) = nsamples fd ->
  length (D1x st) = nsamples fd ->
  length (d1_regsse fd periodic_ext st) = nsamples fd.
Proof.
  intros Hshape Hd HD. unfold d1_regsse.
  rewrite length_map, length_combine, length_map, Hshape, HD by exact Hd. lia.
Qed.

Lemma newton_step_ok fd periodic periodic_ext alpha tfine_tmp D1x_tmp st :
  (0 < nsamples fd)%nat ->
  (forall pts dl e, length dl = nsamples fd ->
                    length (evaluate_shifted fd pts dl e) = nsamples fd) ->
  length D1x_tmp = nsamples fd ->
  per_sample fd st ->
  delta_dtype st = float64 ->
  exists st', newton_step fd periodic periodic_ext alpha tfine_tmp D1x_tmp st = Ok st'
              /\ per_sample fd st'.
Proof.
  intros Hn Hshape HD (Hd & HD1 & Hd2) Hdt. unfold newton_step.
  assert (Hw : exists w, (if negb periodic then restrict_mesh fd tfine_tmp D1x_tmp st
                          else Ok st) = Ok w /\ per_sample fd w
                         /\ delta_dtype w = delta_dtype st).
  { destruct periodic; cbn [negb].
    - exists st. split; [reflexivity | repeat split; assumption].
    - apply restrict_mesh_ok; assumption. }
  destruct Hw as (w & -> & (Hwd & HwD & Hw2) & Hwdt). cbn [rbind].
  rewrite Hwdt, Hdt. cbn [subtract_out rbind].
  assert (Hlen : length (newton_update fd periodic_ext alpha w) = nsamples fd).
  { unfold newton_update. rewrite length_map, length_vdiv, length_d1_regsse, Hw2 by assumption.
    lia. }
  destruct (np_max_ok (map Qabs (newton_update fd periodic_ext alpha w))) as [m ->].
  { apply nonempty_length. rewrite length_map. lia. }
  cbn [rbind]. eexists. split; [reflexivity |].
  unfold per_sample. cbn. rewrite length_vminus, Hlen, Hwd. repeat split; [lia | | ]; assumption.
Qed.

Lemma newton_loop_ok fd periodic periodic_ext alpha tol tfine_tmp D1x_tmp :
  (0 < nsamples fd)%nat ->
  (forall pts dl e, length dl = nsamples fd ->
                    length (evaluate_shifted fd pts dl e) = nsamples fd) ->
  length D1x_tmp = nsamples fd ->
  forall remaining st,
    per_sample fd st ->
    delta_dtype st = float64 ->
    exists final,
      newton_loop fd periodic periodic_ext alpha tol tfine_tmp D1x_tmp remaining st = Ok final.
Proof.
  intros Hn Hshape HD. induction remaining as [| n IH]; intros st Hst Hdt; cbn [newton_loop].
  - eauto.
  - destruct (Qltb tol (max_diff st)); [| eauto].
    destruct (newton_step_ok fd periodic periodic_ext alpha tfine_tmp D1x_tmp st
                             Hn Hshape HD Hst Hdt) as (st' & Hstep & Hst').
    rewrite Hstep. cbn [rbind]. apply IH; [exact Hst' |].
    now apply newton_step_dtype in Hstep.
Qed.

Lemma iterate_step_per_sample fd periodic periodic_ext alpha tfine_tmp D1x_tmp :
  (0 < nsamples fd)%nat ->
  (forall pts dl e, length dl = nsamples fd ->
                    length (evaluate_shifted fd pts dl e) = nsamples fd) ->
  length D1x_tmp = nsamples fd ->
  forall k st stk,
    per_sample fd st ->
    delta_dtype st = float64 ->
    iterate_step fd periodic periodic_ext alpha tfine_tmp D1x_tmp k st = Ok stk ->
    per_sample fd stk /\ delta_dtype stk = float64.
Proof.
  intros Hn Hshape HD. induction k as [| k IH]; intros st stk Hst Hdt H;
    cbn [iterate_step] in H.
  - injection H as <-. now split.
  - destruct (newton_step_ok fd periodic periodic_ext alpha tfine_tmp D1x_tmp st
                             Hn Hshape HD Hst Hdt) as (st' & Hstep & Hst').
    rewrite Hstep in H. cbn [rbind] in H. apply (IH st' stk Hst'); [| exact H].
    now apply newton_step_dtype in Hstep.
Qed.

Lemma initial_state_ok fd tol initial tfine_ :
  (forall pts, length (fd_evaluate fd pts 1) = nsamples fd) ->
  length initial = 0%nat \/ length initial = nsamples fd ->
  exists st0, initial_state fd tol initial tfine_ = Ok st0
              /\ per_sample fd st0
              /\ max_diff st0 = tol + 1
              /\ iter st0 = 0%Z
              /\ delta_dtype st0 = (if (length initial =? 0)%nat then float64
                                    else initial_dtype).
Proof.
  intros Hshape Hinit. unfold initial_state.
  assert (Hd : exists d0,
             (if (length initial =? 0)%nat then Ok (repeat 0 (nsamples fd))
              else if negb (length initial =? nsamples fd)%nat then Raise ValueError
                   else Ok initial) = Ok d0 /\ length d0 = nsamples fd).
  { destruct (Nat.eqb_spec (length initial) 0) as [H0 | H0].
    - eexists. split; [reflexivity | apply repeat_length].
    - destruct Hinit as [? | Hn]; [contradiction |].
      rewrite Hn, Nat.eqb_refl. cbn. eauto. }
  destruct Hd as (d0 & -> & Hd0). cbn [rbind]. eexists. split; [reflexivity |].
  unfold per_sample. cbn. rewrite length_map, Hshape. auto.
Qed.

(** The shifts are held in an array of [float64]: none were given, or the
    ones given are floats. *)
Lemma initial_dtype_float64 (initial : list Q) :
  (length initial <> 0%nat -> initial_dtype = float64) ->
  (if (length initial =? 0)%nat then float64 else initial_dtype) = float64.
Proof.
  intros H. destruct (Nat.eqb_spec (length initial) 0); [reflexivity | now apply H].
Qed.

Lemma nth_combine {A B} (l : list A) (l' : list B) (i : nat) (a : A) (b : B) :
  (i < length l)%nat -> (i < length l')%nat ->
  nth i (combine l l') (a, b) = (nth i l a, nth i l' b).
Proof.
  revert l' i. induction l as [| x l IH]; intros [| y l'] [| i]; cbn; try lia; auto.
  intros Hl Hl'. apply IH; lia.
Qed.

(** The entry of [d1_regsse] for a sample: the trapezoidal integral over
    the mesh of (the curve at its shifted mesh minus the mean over the
    samples) times the derivative values. *)
Lemma d1_regsse_entry fd periodic_ext st i :
  let x := evaluate_shifted fd (tfine st) (delta st) periodic_ext in
  let mean := np_mean0 {| shape1 := length (tfine st); rows := x |} in
  (i < length x)%nat -> (i < length (D1x st))%nat ->
  nth i (d1_regsse fd periodic_ext st) 0
  = trapz (vmul (vminus (nth i x []) mean) (nth i (D1x st) [])) (tfine st).
Proof.
  intros x mean Hx HD. unfold d1_regsse. fold x. fold mean.
  set (f := fun p : list Q * list Q => trapz (vmul (fst p) (snd p)) (tfine st)).
  rewrite (nth_indep _ 0 (f ([], []))).
  2: { rewrite length_map, length_combine, length_map. lia. }
  rewrite (map_nth f), nth_combine; [| rewrite length_map; lia | exact HD].
  unfold f. cbn [fst snd].
  rewrite (nth_indep (map _ x) [] ((fun xi => vminus xi mean) []))
    by (rewrite length_map; lia).
  now rewrite (map_nth (fun xi => vminus xi mean)).
Qed.

Lemma nth_vminus (u v : list Q) (i : nat) :
  (i < length u)%nat -> (i < length v)%nat ->
  nth i (vminus u v) 0 = nth i u 0 - nth i v 0.
Proof.
  intros Hu Hv. unfold vminus.
  set (f := fun p : Q * Q => fst p - snd p).
  rewrite (nth_indep _ 0 (f (0, 0))) by (rewrite length_map, length_combine; lia).
  now rewrite (map_nth f), nth_combine.
Qed.

Lemma iterate_step_snoc fd periodic periodic_ext alpha tfine_tmp D1x_tmp :
  forall k st stk stk',
    iterate_step fd periodic periodic_ext alpha tfine_tmp D1x_tmp k st = Ok stk ->
    newton_step fd periodic periodic_ext alpha tfine_tmp D1x_tmp stk = Ok stk' ->
    iterate_step fd periodic periodic_ext alpha tfine_tmp D1x_tmp (S k) st = Ok stk'.
Proof.
  induction k as [| k IH]; intros st stk stk' Hk Hstep.
  - cbn [iterate_step] in Hk. injection Hk as <-. cbn [iterate_step]. rewrite Hstep.
    reflexivity.
  - cbn [iterate_step] in Hk. apply rbind_ok in Hk as (st1 & Hst1 & Hk).
    change (iterate_step fd periodic periodic_ext alpha tfine_tmp D1x_tmp (S (S k)) st)
      with (st1' <~ newton_step fd periodic periodic_ext alpha tfine_tmp D1x_tmp st ;;
            iterate_step fd periodic periodic_ext alpha tfine_tmp D1x_tmp (S k) st1').
    rewrite Hst1. cbn [rbind]. exact (IH st1 stk stk' Hk Hstep).
Qed.

Lemma working_state_ok fd periodic tfine_tmp D1x_tmp st :
  (0 < nsamples fd)%nat ->
  length D1x_tmp = nsamples fd ->
  per_sample fd st ->
  exists w, working_state fd periodic tfine_tmp D1x_tmp st = Ok w /\ per_sample fd w.
Proof.
  intros Hn HD Hst. unfold working_state. destruct periodic; cbn [negb].
  - eauto.
  - destruct (restrict_mesh_ok fd tfine_tmp D1x_tmp st) as (w & Hw & Hps & _);
      [assumption | apply Hst | assumption |]. eauto.
Qed.

(** The second-order terms of the passes the loop can make from [st0]
    (those from a state whose largest update exceeds [tol], fewer than [n]
    passes before) are not zero. *)
Definition nonzero_d2 (fd : FD) (periodic periodic_ext : bool) (alpha tol : Q)
           (st0 : loop_state) (n : nat) : Prop :=
  forall (j : nat) (stj w : loop_state),
    (j < n)%nat ->
    iterate_step fd periodic periodic_ext alpha (tfine st0) (D1x st0) j st0 = Ok stj ->
    tol < max_diff stj ->
    working_state fd periodic (tfine st0) (D1x st0) stj = Ok w ->
    Forall (fun d => ~ d == 0) (d2_regsse w).

(** C2 (amended).  For curves with at least one sample, an initial vector
    that is empty or has one shift per sample and floating-point entries, a
    recognised extension, and second-order terms [d2_i] that are not zero
    in the passes made, the loop of [shift_registration] returns after
    some number [k] of passes, at most [maxiter].  Every pass replaces
    each shift [delta_i] by [delta_i - alpha * d1_i / d2_i], where [d1_i]
    is the trapezoidal integral over the working mesh of (curve [i] at its
    shifted mesh minus the mean over the samples) times the precomputed
    derivative values and [d2_i] is not zero, and records the largest
    [|update_i|].  The loop was continued at every earlier state because
    the largest update exceeded [tol], and it stops at the first state
    where the largest update is at most [tol] (not: strictly below
    [tol]), or after [maxiter] passes. *)
Theorem newton_iteration_and_stopping_rule
        (fd : FD) (maxiter : Z) (tol : Q) (ext : ext_value) (alpha : Q)
        (initial tfine_ : list Q) (periodic periodic_ext : bool) :
  (0 < nsamples fd)%nat ->
  (forall pts, length (fd_evaluate fd pts 1) = nsamples fd) ->
  (forall pts dl e, length dl = nsamples fd ->
                    length (evaluate_shifted fd pts dl e) = nsamples fd) ->
  length initial = 0%nat \/ length initial = nsamples fd ->
  (length initial <> 0%nat -> initial_dtype = float64) ->
  _check_extrapolation fd ext = Ok (periodic, periodic_ext) ->
  (forall st0, initial_state fd tol initial tfine_ = Ok st0 ->
               nonzero_d2 fd periodic periodic_ext alpha tol st0 (Z.to_nat maxiter)) ->
  exists (st0 final : loop_state) (k : nat),
    initial_state fd tol initial tfine_ = Ok st0
    /\ registration_loop fd maxiter tol ext alpha initial tfine_ = Ok final
    /\ iterate_step fd periodic periodic_ext alpha (tfine st0) (D1x st0) k st0 = Ok final
    /\ iter final = Z.of_nat k
    /\ (k <= Z.to_nat maxiter)%nat
    /\ (forall j, (j < k)%nat ->
                  exists stj,
                    iterate_step fd periodic periodic_ext alpha (tfine st0) (D1x st0) j st0
                    = Ok stj
                    /\ tol < max_diff stj)
    /\ (max_diff final <= tol \/ k = Z.to_nat maxiter)
    /\ (forall j stj,
           (j < k)%nat ->
           iterate_step fd periodic periodic_ext alpha (tfine st0) (D1x st0) j st0 = Ok stj ->
           exists w stj',
             working_state fd periodic (tfine st0) (D1x st0) stj = Ok w
             /\ newton_step fd periodic periodic_ext alpha (tfine st0) (D1x st0) stj = Ok stj'
             /\ iterate_step fd periodic periodic_ext alpha (tfine st0) (D1x st0) (S j) st0
                = Ok stj'
             /\ (let x := evaluate_shifted fd (tfine w) (delta stj) periodic_ext in
                 let mean := np_mean0 {| shape1 := length (tfine w); rows := x |} in
                 let d1 := d1_regsse fd periodic_ext w in
                 let d2 := d2_regsse w in
                 (forall i, (i < nsamples fd)%nat ->
                            ~ nth i d2 0 == 0
                            /\ nth i (delta stj') 0
                               == nth i (delta stj) 0 - alpha * nth i d1 0 / nth i d2 0
                            /\ nth i d1 0
                               = trapz (vmul (vminus (nth i x []) mean) (nth i (D1x w) []))
                                       (tfine w))
                 /\ is_greatest (max_diff stj')
                                (map Qabs (map (fun q => q * alpha) (vdiv d1 d2))))).
Proof.
  intros Hn Heval Hshift Hinit Hfloat Hext Hd2.
  destruct (initial_state_ok fd tol initial tfine_ Heval Hinit)
    as (st0 & Hst0 & Hps0 & Hmd0 & Hit0 & Hdt0).
  rewrite (initial_dtype_float64 _ Hfloat) in Hdt0.
  specialize (Hd2 st0 Hst0).
  assert (HD : length (D1x st0) = nsamples fd) by apply Hps0.
  destruct (newton_loop_ok fd periodic periodic_ext alpha tol (tfine st0) (D1x st0)
                           Hn Hshift HD (Z.to_nat maxiter) st0 Hps0 Hdt0) as [final Hloop].
  destruct (newton_loop_spec _ _ _ _ _ _ _ _ _ _ Hloop)
    as (k & Hk & Hrun & Hprev & Hstop & Hiter).
  exists st0, final, k.
  split; [exact Hst0 |].
  split; [unfold registration_loop; rewrite Hst0; cbn [rbind]; rewrite Hext; exact Hloop |].
  split; [exact Hrun |]. split; [rewrite Hiter, Hit0; lia |]. split; [exact Hk |].
  split; [exact Hprev |]. split; [exact Hstop |].
  intros j stj Hjk Hj.
  destruct (iterate_step_per_sample fd periodic periodic_ext alpha (tfine st0) (D1x st0)
                                    Hn Hshift HD j st0 stj Hps0 Hdt0 Hj) as [Hpsj Hdtj].
  destruct (newton_step_ok fd periodic periodic_ext alpha (tfine st0) (D1x st0) stj
                           Hn Hshift HD Hpsj Hdtj) as (stj' & Hstep & Hpsj').
  destruct (newton_step_spec _ _ _ _ _ _ _ _ Hstep)
    as (w & Hw & Hdw & Hdelta & Hmax & _ & _).
  destruct (working_state_ok fd periodic (tfine st0) (D1x st0) stj Hn HD Hpsj)
    as (w' & Hw' & Hpsw).
  rewrite Hw in Hw'. injection Hw' as <-.
  assert (Hnz : Forall (fun d => ~ d == 0) (d2_regsse w)).
  { destruct (Hprev j Hjk) as (stj0 & Hj0 & Htol). rewrite Hj in Hj0. injection Hj0 as <-.
    apply (Hd2 j stj w); [lia | exact Hj | exact Htol | exact Hw]. }
  exists w, stj'. split; [exact Hw |]. split; [exact Hstep |].
  split; [exact (iterate_step_snoc _ _ _ _ _ _ _ _ _ _ Hj Hstep) |].
  cbn zeta. split.
  - intros i Hi.
    destruct Hpsj as (Hlj & _ & _). destruct Hpsw as (Hwd & HwD & Hw2).
    split; [| split].
    + rewrite Forall_forall in Hnz. apply Hnz, nth_In. lia.
    + rewrite Hdelta, nth_vminus.
      * rewrite newton_update_entry. reflexivity.
      * lia.
      * rewrite length_map, length_vdiv, length_d1_regsse, Hw2 by assumption. lia.
    + rewrite <- Hdw. apply d1_regsse_entry; [rewrite Hshift by exact Hwd; lia | lia].
  - apply np_max_spec. exact Hmax.
Qed.

(** *** The working mesh of non-periodic registration *)

Lemma restrict_mesh_interval fd tfine_tmp D1x_tmp st w :
  restrict_mesh fd tfine_tmp D1x_tmp st = Ok w ->
  exists lo hi,
    is_least lo (delta st) /\ is_greatest hi (delta st)
    /\ let a := fst (basis_domain_range fd) - py_min lo 0 in
       let b := snd (basis_domain_range fd) - py_max hi 0 in
       let keep := fun t => Qle_bool a t && Qle_bool t b in
       tfine w = filter keep tfine_tmp
       /\ D1x w = map (select (map keep tfine_tmp)) D1x_tmp
       /\ d2_regsse w = map (fun d => trapz (vmul d d) (tfine w)) (D1x w).
Proof.
  unfold restrict_mesh, working_interval. intros H.
  destruct (np_min (delta st)) as [lo |] eqn:Hlo; [| discriminate].
  destruct (np_max (delta st)) as [hi |] eqn:Hhi; [| discriminate].
  cbn in H. injection H as <-. exists lo, hi.
  split; [now apply np_min_spec |]. split; [now apply np_max_spec |].
  cbn. rewrite select_filter. repeat split; reflexivity.
Qed.

Lemma kept_points (a b : Q) (pts : list Q) (t : Q) :
  In t (filter (fun t => Qle_bool a t && Qle_bool t b) pts)
  <-> In t pts /\ a <= t /\ t <= b.
Proof.
  rewrite filter_In, andb_true_iff, !Qle_bool_iff. reflexivity.
Qed.

(** *** [landmark_shift] *)

(** C7.  [landmark_shift] raises when the number of landmarks is not the
    number of samples.  With one landmark per sample (and at least one
    sample) and [location='minimize'], the shifts are
    [landmark_i - (max(landmarks) + min(landmarks)) / 2]: they are returned
    as such under [shifts_array=True] and handed to [fd.shift] otherwise.
    For the landmarks [0.2, 0.8] the target is [0.5] and the shifts are
    [-0.3, 0.3]. *)
Theorem landmark_shift_minimize
        (fd : FD) (landmarks : list Q) (ext : ext_value) (tfine_ : list Q) :
  (length landmarks <> nsamples fd ->
   forall (location : location_value) (shifts_array : bool),
     landmark_shift fd landmarks location ext tfine_ shifts_array = Raise ValueError)
  /\ (length landmarks = nsamples fd -> landmarks <> [] ->
      exists hi lo,
        is_greatest hi landmarks /\ is_least lo landmarks
        /\ let shifts := map (fun l => l - (hi + lo) / 2) landmarks in
           landmark_shift fd landmarks minimize ext tfine_ true = Ok (shifts_only shifts)
           /\ landmark_shift fd landmarks minimize ext tfine_ false
              = (fd' <~ fd_shift fd shifts ext tfine_ ;; Ok (shifted_curves fd'))
           /\ length shifts = nsamples fd
           /\ forall i, (i < nsamples fd)%nat ->
                        nth i shifts 0 = nth i landmarks 0 - (hi + lo) / 2)
  /\ (nsamples fd = 2%nat ->
      exists p shifts,
        landmark_target fd [2 # 10; 8 # 10] minimize = Ok p
        /\ p == 1 # 2
        /\ landmark_shift fd [2 # 10; 8 # 10] minimize ext tfine_ true
           = Ok (shifts_only shifts)
        /\ Forall2 Qeq shifts [- (3 # 10); 3 # 10]).
Proof.
  split; [| split].
  - intros Hne location shifts_array. unfold landmark_shift.
    now destruct (Nat.eqb_spec (length landmarks) (nsamples fd)).
  - intros Hlen Hne.
    destruct (np_max_ok _ Hne) as [hi Hhi]. destruct (np_min_ok _ Hne) as [lo Hlo].
    exists hi, lo.
    split; [now apply np_max_spec |]. split; [now apply np_min_spec |].
    cbn zeta. unfold landmark_shift, landmark_target.
    rewrite Hlen, Nat.eqb_refl, Hhi, Hlo. cbn [negb rbind].
    split; [reflexivity |]. split; [reflexivity |].
    split; [now rewrite length_map |].
    intros i Hi.
    set (f := fun l : Q => l - (hi + lo) / 2).
    rewrite (nth_indep _ 0 (f 0)) by (rewrite length_map; lia).
    now rewrite (map_nth f).
  - intros H2. unfold landmark_shift. rewrite H2.
    eexists. eexists. cbn.
    split; [reflexivity |]. split; [reflexivity |]. split; [reflexivity |].
    repeat constructor.
Qed.

(** *** Further properties of the registration functions *)

(** X21.  [_check_extrapolation] follows the value [default] once, to the
    default of the functional object, and accepts exactly [basis],
    [periodic] and [slice]: anything else, including a default that is
    itself [default], is a [ValueError].  In the pair it returns,
    [periodic_ext] is set only together with [periodic]; [periodic] is
    unset exactly for [slice]. *)
Theorem check_extrapolation_table (fd : FD) (ext : ext_value) :
  let resolved := match ext with
                  | ext_default => default_extrapolation fd
                  | _ => ext
                  end in
  (_check_extrapolation fd ext = Raise ValueError
   <-> resolved = ext_default \/ resolved = ext_other)
  /\ forall periodic periodic_ext,
       _check_extrapolation fd ext = Ok (periodic, periodic_ext) ->
       (periodic_ext = true -> periodic = true)
       /\ (periodic = false <-> resolved = ext_slice)
       /\ (periodic_ext = true <-> resolved = ext_periodic)
       /\ (periodic = true /\ periodic_ext = false <-> resolved = ext_basis).
Proof.
  unfold _check_extrapolation.
  destruct ext; cbn zeta; try destruct (default_extrapolation fd);
    (split; [split; [intros H; try discriminate H; auto
                    | intros [H | H]; try discriminate H; reflexivity]
            | intros periodic periodic_ext H; try discriminate H;
              injection H as <- <-;
              repeat split; try discriminate; try reflexivity;
              try (intros [H1 H2]; discriminate); intros H; discriminate H]).
Qed.

(** X22.  Edge cases of [shift_registration].  A non-empty initial vector
    whose length is not the number of samples is a [ValueError] whatever
    the other arguments are; so is an extension that
    [_check_extrapolation] rejects.  With [maxiter <= 0] the loop body is
    never entered: the shifts returned are the initial ones (zeros when
    none were given), and the curves are shifted by them on the whole
    mesh. *)
Theorem shift_registration_edge_cases
        (fd : FD) (maxiter : Z) (tol : Q) (ext : ext_value) (alpha : Q)
        (initial tfine_ : list Q) (shifts_array : bool) :
  (length initial <> 0%nat -> length initial <> nsamples fd ->
   shift_registration fd maxiter tol ext alpha initial tfine_ shifts_array = Raise ValueError)
  /\ (_check_extrapolation fd ext = Raise ValueError ->
      shift_registration fd maxiter tol ext alpha initial tfine_ shifts_array
      = Raise ValueError)
  /\ ((maxiter <= 0)%Z ->
      length initial = 0%nat \/ length initial = nsamples fd ->
      forall pp st0,
        _check_extrapolation fd ext = Ok pp ->
        initial_state fd tol initial tfine_ = Ok st0 ->
        delta st0 = (if (length initial =? 0)%nat then repeat 0 (nsamples fd) else initial)
        /\ shift_registration fd maxiter tol ext alpha initial tfine_ true
           = Ok (shifts_only (delta st0))
        /\ shift_registration fd maxiter tol ext alpha initial tfine_ false
           = (fd' <~ fd_shift fd (delta st0) ext (tfine st0) ;; Ok (shifted_curves fd'))).
Proof.
  unfold shift_registration, registration_loop. split; [| split].
  - intros H0 Hn. unfold initial_state.
    destruct (Nat.eqb_spec (length initial) 0) as [Hc | _]; [contradiction |].
    destruct (Nat.eqb_spec (length initial) (nsamples fd)) as [Hc | _]; [contradiction |].
    reflexivity.
  - intros Hext. destruct (initial_state fd tol initial tfine_) as [st0 | e] eqn:Hst0.
    + cbn [rbind]. rewrite Hext. reflexivity.
    + cbn [rbind]. unfold initial_state in Hst0.
      destruct (length initial =? 0)%nat; [discriminate |].
      destruct (negb (length initial =? nsamples fd)%nat); [| discriminate].
      cbn in Hst0. congruence.
  - intros Hmax Hinit pp st0 Hext Hst0. rewrite Hst0, Hext. cbn [rbind].
    replace (Z.to_nat maxiter) with 0%nat by lia. cbn [newton_loop rbind].
    split; [| split; reflexivity].
    unfold initial_state in Hst0.
    destruct (Nat.eqb_spec (length initial) 0) as [H0 | H0].
    + cbn in Hst0. now injection Hst0 as <-.
    + destruct (Nat.eqb_spec (length initial) (nsamples fd)) as [Hn | Hn]; [| discriminate].
      cbn in Hst0. now injection Hst0 as <-.
Qed.

(** X23.  [shift_registration] with [shifts_array=True] returns, and
    returns exactly one shift per sample, for curves with at least one
    sample, an initial vector that is empty or has one shift per sample
    and floating-point entries, a recognised extension, and second-order
    terms that are not zero in the passes made.  With integer entries in
    a non-empty initial vector, a call that enters the loop body raises a
    [TypeError] instead. *)
Theorem shift_registration_one_shift_per_sample
        (fd : FD) (maxiter : Z) (tol : Q) (ext : ext_value) (alpha : Q)
        (initial tfine_ : list Q) (periodic periodic_ext : bool) :
  (0 < nsamples fd)%nat ->
  (forall pts, length (fd_evaluate fd pts 1) = nsamples fd) ->
  (forall pts dl e, length dl = nsamples fd ->
                    length (evaluate_shifted fd pts dl e) = nsamples fd) ->
  length initial = 0%nat \/ length initial = nsamples fd ->
  _check_extrapolation fd ext = Ok (periodic, periodic_ext) ->
  (forall st0, initial_state fd tol initial tfine_ = Ok st0 ->
               nonzero_d2 fd periodic periodic_ext alpha tol st0 (Z.to_nat maxiter)) ->
  ((length initial <> 0%nat -> initial_dtype = float64) ->
   exists shifts,
     shift_registration fd maxiter tol ext alpha initial tfine_ true = Ok (shifts_only shifts)
     /\ length shifts = nsamples fd)
  /\ (length initial <> 0%nat -> initial_dtype = int64 -> (0 < maxiter)%Z ->
      forall shifts_array,
        shift_registration fd maxiter tol ext alpha initial tfine_ shifts_array
        = Raise TypeError).
Proof.
  intros Hn Heval Hshift Hinit Hext _.
  destruct (initial_state_ok fd tol initial tfine_ Heval Hinit)
    as (st0 & Hst0 & Hps & Hmd & _ & Hdt).
  assert (HD : length (D1x st0) = nsamples fd) by apply Hps.
  split.
  - intros Hfloat. rewrite (initial_dtype_float64 _ Hfloat) in Hdt.
    destruct (newton_loop_ok fd periodic periodic_ext alpha tol (tfine st0) (D1x st0)
                             Hn Hshift HD (Z.to_nat maxiter) st0 Hps Hdt) as (final & Hfinal).
    destruct (newton_loop_spec _ _ _ _ _ _ _ _ _ _ Hfinal) as (k & _ & Hk & _).
    destruct (iterate_step_per_sample fd periodic periodic_ext alpha (tfine st0) (D1x st0)
                                      Hn Hshift HD k st0 final Hps Hdt Hk) as [Hpf _].
    exists (delta final). split; [| apply Hpf].
    unfold shift_registration, registration_loop. rewrite Hst0, Hext. cbn [rbind fst snd].
    rewrite Hfinal. reflexivity.
  - intros Hne Hint Hmax shifts_array.
    destruct (Nat.eqb_spec (length initial) 0) as [| _] in Hdt; [contradiction |].
    rewrite Hint in Hdt.
    unfold shift_registration, registration_loop. rewrite Hst0, Hext. cbn [rbind fst snd].
    destruct (Z.to_nat maxiter) as [| n] eqn:Hm; [lia |]. cbn [newton_loop].
    assert (Hgo : Qltb tol (max_diff st0) = true).
    { unfold Qltb. rewrite Hmd. destruct (Qle_bool (tol + 1) tol) eqn:Hle; [| reflexivity].
      apply Qle_bool_iff in Hle. lra. }
    rewrite Hgo. unfold newton_step.
    destruct (working_state_ok fd periodic (tfine st0) (D1x st0) st0 Hn HD Hps)
      as (w & Hw & _).
    pose proof Hw as Hwdt. unfold working_state in Hw, Hwdt. rewrite Hw. cbn [rbind].
    assert (Hd : delta_dtype w = int64).
    { rewrite <- Hdt. destruct periodic; cbn [negb] in Hwdt.
      - now injection Hwdt as <-.
      - unfold restrict_mesh in Hwdt. apply rbind_ok in Hwdt as (interval & _ & Hwdt).
        now injection Hwdt as <-. }
    rewrite Hd. reflexivity.
Qed.

Lemma newton_step_mesh fd periodic periodic_ext alpha tfine_tmp D1x_tmp st st' :
  newton_step fd periodic periodic_ext alpha tfine_tmp D1x_tmp st = Ok st' ->
  iter st' = (iter st + 1)%Z
  /\ (periodic = true ->
      tfine st' = tfine st /\ D1x st' = D1x st /\ d2_regsse st' = d2_regsse st)
  /\ (periodic = false ->
      forall t, In t (tfine st') ->
                In t tfine_tmp
                /\ fst (basis_domain_range fd) <= t /\ t <= snd (basis_domain_range fd)).
Proof.
  unfold newton_step. intros H. apply rbind_ok in H as (w & Hw & H).
  apply rbind_ok in H as (d & _ & H).
  apply rbind_ok in H as (m & _ & H). injection H as <-. cbn.
  destruct periodic; cbn [negb] in Hw.
  - injection Hw as <-. repeat split; try reflexivity; discriminate.
  - pose proof Hw as Hiter. unfold restrict_mesh in Hiter.
    apply rbind_ok in Hiter as (interval & _ & Hiter). injection Hiter as Hiter.
    apply restrict_mesh_interval in Hw as (lo & hi & _ & _ & Hmesh).
    cbn zeta in Hmesh. destruct Hmesh as (Ht & _ & _).
    split; [now rewrite <- Hiter |]. split; [discriminate |].
    intros _ t Hin. rewrite Ht in Hin. apply kept_points in Hin as (Hin & Ha & Hb).
    destruct (py_min_spec lo 0) as (_ & _ & Hmin). destruct (py_max_spec hi 0) as (_ & _ & Hmax).
    split; [exact Hin |]. split; lra.
Qed.

(** What the loop keeps true of its mesh. *)
Definition mesh_invariant (fd : FD) (periodic : bool) (st0 st : loop_state) : Prop :=
  (iter st0 <= iter st)%Z
  /\ (forall t, In t (tfine st) -> In t (tfine st0))
  /\ (periodic = true ->
      tfine st = tfine st0 /\ D1x st = D1x st0 /\ d2_regsse st = d2_regsse st0)
  /\ (periodic = false -> (iter st0 < iter st)%Z ->
      forall t, In t (tfine st) ->
                fst (basis_domain_range fd) <= t /\ t <= snd (basis_domain_range fd)).

Lemma newton_loop_mesh fd periodic periodic_ext alpha tol st0 :
  forall remaining st final,
    mesh_invariant fd periodic st0 st ->
    newton_loop fd periodic periodic_ext alpha tol (tfine st0) (D1x st0) remaining st = Ok final ->
    mesh_invariant fd periodic st0 final.
Proof.
  induction remaining as [| n IH]; intros st final Hinv H; cbn [newton_loop] in H.
  - now injection H as <-.
  - destruct (Qltb tol (max_diff st)); [| now injection H as <-].
    apply rbind_ok in H as (st' & Hstep & H). apply (IH st' final); [| exact H].
    apply newton_step_mesh in Hstep as (Hiter & Hper & Hnon).
    destruct Hinv as (Hi & Hin & Hp & Hw). unfold mesh_invariant. split; [lia |].
    destruct periodic.
    + destruct (Hper eq_refl) as (Ht & HD & Hd). destruct (Hp eq_refl) as (Ht0 & HD0 & Hd0).
      split; [intros t; rewrite Ht; apply Hin |].
      split; [intros _; repeat split; congruence | discriminate].
    + split; [intros t Ht; now apply (Hnon eq_refl) |].
      split; [discriminate |]. intros _ _ t Ht. now apply (Hnon eq_refl).
Qed.

(** X24.  The mesh of [shift_registration].  Every point of the mesh the
    loop ends with (the one handed to [fd.shift]) is a point of the mesh
    it started with.  For periodic functions the mesh, the derivative
    values and the second-order term never change.  Otherwise, once a
    pass has been made, every point of the mesh lies in the domain of the
    basis. *)
Theorem registration_mesh
        (fd : FD) (maxiter : Z) (tol : Q) (ext : ext_value) (alpha : Q)
        (initial tfine_ : list Q) (periodic periodic_ext : bool) (st0 final : loop_state) :
  initial_state fd tol initial tfine_ = Ok st0 ->
  _check_extrapolation fd ext = Ok (periodic, periodic_ext) ->
  registration_loop fd maxiter tol ext alpha initial tfine_ = Ok final ->
  (forall t, In t (tfine final) -> In t (tfine st0))
  /\ (periodic = true ->
      tfine final = tfine st0 /\ D1x final = D1x st0 /\ d2_regsse final = d2_regsse st0)
  /\ (periodic = false -> (0 < iter final)%Z ->
      forall t, In t (tfine final) ->
                fst (basis_domain_range fd) <= t /\ t <= snd (basis_domain_range fd)).
Proof.
  intros Hst0 Hext Hloop. unfold registration_loop in Hloop.
  rewrite Hst0, Hext in Hloop. cbn [rbind fst snd] in Hloop.
  assert (Hiter0 : iter st0 = 0%Z).
  { unfold initial_state in Hst0. apply rbind_ok in Hst0 as (d0 & _ & Hst0).
    now injection Hst0 as <-. }
  assert (Hinv0 : mesh_invariant fd periodic st0 st0).
  { unfold mesh_invariant. split; [lia |]. split; [auto |]. split; [auto |]. lia. }
  destruct (newton_loop_mesh _ _ _ _ _ _ _ _ _ Hinv0 Hloop) as (_ & Hin & Hp & Hw).
  rewrite Hiter0 in Hw. auto.
Qed.

(** *** Further properties of [landmark_shift] *)

Lemma landmark_shift_shifts fd landmarks location ext tfine_ shifts :
  landmark_shift fd landmarks location ext tfine_ true = Ok (shifts_only shifts) ->
  exists p, landmark_target fd landmarks location = Ok p
            /\ shifts = map (fun l => l - p) landmarks.
Proof.
  unfold landmark_shift. destruct (negb _); [discriminate |].
  destruct (landmark_target fd landmarks location) as [p | e]; cbn [rbind]; [| discriminate].
  intros [= <-]. now exists p.
Qed.

(** X25.  With [location='minimize'] the shifts are as small as a common
    target allows.  The largest absolute value [r] of a shift is taken by
    the shift of the largest landmark and, with the opposite sign, by the
    shift of the smallest; and whatever point [q] the landmarks would be
    moved to instead, one of them would have to move by at least [r]. *)
Theorem landmark_minimize_optimal
        (fd : FD) (landmarks : list Q) (ext : ext_value) (tfine_ shifts : list Q) :
  landmark_shift fd landmarks minimize ext tfine_ true = Ok (shifts_only shifts) ->
  exists r,
    In r shifts
    /\ (exists s, In s shifts /\ s == - r)
    /\ (forall s, In s shifts -> Qabs s <= r)
    /\ (forall q : Q, exists l, In l landmarks /\ r <= Qabs (l - q)).
Proof.
  intros H. apply landmark_shift_shifts in H as (p & Hp & ->).
  cbn [landmark_target] in Hp. apply rbind_ok in Hp as (hi & Hhi & Hp).
  apply rbind_ok in Hp as (lo & Hlo & Hp). injection Hp as <-.
  apply np_max_spec in Hhi as [Hhi_in Hhi]. apply np_min_spec in Hlo as [Hlo_in Hlo].
  exists (hi - (hi + lo) / 2). split; [| split; [| split]].
  - apply in_map_iff. now exists hi.
  - exists (lo - (hi + lo) / 2). split; [apply in_map_iff; now exists lo | field].
  - intros s Hs. apply in_map_iff in Hs as (l & <- & Hl).
    apply Qabs_Qle_condition. specialize (Hhi l Hl). specialize (Hlo l Hl).
    split.
    + setoid_replace (- (hi - (hi + lo) / 2)) with (lo - (hi + lo) / 2) by field. lra.
    + lra.
  - intros q. destruct (Qlt_le_dec ((hi + lo) / 2) q) as [Hq | Hq].
    + exists lo. split; [exact Hlo_in |].
      rewrite <- (Qabs_opp (lo - q)). eapply Qle_trans; [| apply Qle_Qabs].
      setoid_replace (hi - (hi + lo) / 2) with ((hi + lo) / 2 - lo) by field. lra.
    + exists hi. split; [exact Hhi_in |].
      eapply Qle_trans; [| apply Qle_Qabs]. lra.
Qed.

Lemma qsum_shifted (l : list Q) (p : Q) :
  qsum (map (fun x => x - p) l) == qsum l - inject_Z (Z.of_nat (length l)) * p.
Proof.
  induction l as [| a l IH]; [cbn; ring |].
  cbn [map length]. change (qsum (?x :: ?y)) with (x + qsum y).
  rewrite IH, Nat2Z.inj_succ. unfold Z.succ. rewrite inject_Z_plus. ring.
Qed.

(** X26.  With [location='mean'] the landmarks are moved to their mean:
    the shifts add up to zero. *)
Theorem landmark_mean_shifts_sum_to_zero
        (fd : FD) (landmarks : list Q) (ext : ext_value) (tfine_ shifts : list Q) :
  landmark_shift fd landmarks loc_mean ext tfine_ true = Ok (shifts_only shifts) ->
  length shifts = nsamples fd /\ qsum shifts == 0.
Proof.
  intros H. pose proof H as Hlen. unfold landmark_shift in Hlen.
  destruct (Nat.eqb_spec (length landmarks) (nsamples fd)) as [Hn | Hn]; [| discriminate].
  clear Hlen. apply landmark_shift_shifts in H as (p & Hp & ->).
  cbn [landmark_target] in Hp. injection Hp as <-.
  split; [now rewrite length_map |].
  rewrite qsum_shifted. unfold np_mean.
  destruct landmarks as [| a l]; [cbn; ring |].
  field. intros Hz. unfold Qeq in Hz. cbn in Hz. lia.
Qed.

End Registration.

End registration.

Notation "x <- m ;; k" := (bind m (fun x => k))
  (at level 61, m at next level, right associativity).

(** ** The restricted working interval, in [shift] and in the registration loop *)

(** C3.  Under a vector of shifts with least element [lo] and greatest
    element [hi], and [(a, b)] the original domain range, the working
    interval is [[a - min(0, lo), b - max(0, hi)]]: [shift] with
    [restrict_domain=True] evaluates the curves at, and projects from,
    exactly the evaluation points inside it, on the basis rescaled to it;
    and each pass of non-periodic [shift_registration] works on exactly the
    points of the original mesh inside it, with the precomputed derivative
    values at those points. *)
Theorem restricted_working_interval :
  (forall (family : Type)
          (Basis__evaluate : @Basis family -> list Q -> Z -> list (list Q))
          (BasisSmoother_fit_transform : list (list Q) -> list Q -> @Basis family -> result ndarray)
          (self : @FDataBasis family) (v : list Q) (eval_points : option (list Q)),
      length v = n_samples self -> v <> [] ->
      exists lo hi,
        is_least lo v /\ is_greatest hi v
        /\ let a := fst (fd_domain_range self) - py_min lo 0 in
           let b := snd (fd_domain_range self) - py_max hi 0 in
           let pts := match eval_points with
                      | None => linspace (fst (fd_domain_range self))
                                         (snd (fd_domain_range self)) (shift_nfine self)
                      | Some pts => pts
                      end in
           let kept := filter (fun t => Qle_bool a t && Qle_bool t b) pts in
           a == fst (fd_domain_range self) - Qmin 0 lo
           /\ b == snd (fd_domain_range self) - Qmax 0 hi
           /\ (forall t, In t kept <-> In t pts /\ a <= t /\ t <= b)
           /\ shift Basis__evaluate BasisSmoother_fit_transform self (ShiftVector v) true
                    eval_points
              = (_data_matrix <- lift (evaluate_unaligned
                                         Basis__evaluate self
                                         (map (fun s => map (fun t => t + s) kept) v) 0) ;;
                 _basis <- lift (rescale (basis self) (Some (a, b))) ;;
                 from_data BasisSmoother_fit_transform _data_matrix kept _basis))
  /\ (forall (FD : Type) (basis_domain_range : FD -> Q * Q)
             (evaluate_shifted : FD -> list Q -> list Q -> bool -> list (list Q))
             (fd : FD) (periodic_ext : bool) (alpha : Q)
             (tfine_tmp : list Q) (D1x_tmp : list (list Q))
             (st st' : registration.loop_state),
         registration.newton_step basis_domain_range evaluate_shifted fd false periodic_ext
                                  alpha tfine_tmp D1x_tmp st = Ok st' ->
         exists lo hi,
           is_least lo (registration.delta st) /\ is_greatest hi (registration.delta st)
           /\ let a := fst (basis_domain_range fd) - py_min lo 0 in
              let b := snd (basis_domain_range fd) - py_max hi 0 in
              let keep := fun t => Qle_bool a t && Qle_bool t b in
              a == fst (basis_domain_range fd) - Qmin 0 lo
              /\ b == snd (basis_domain_range fd) - Qmax 0 hi
              /\ registration.tfine st' = filter keep tfine_tmp
              /\ (forall t, In t (registration.tfine st')
                            <-> In t tfine_tmp /\ a <= t /\ t <= b)
              /\ registration.D1x st'
                 = map (registration.select (map keep tfine_tmp)) D1x_tmp).
Proof.
  split.
  - intros family Basis__evaluate BasisSmoother_fit_transform self v eval_points Hlen Hne.
    destruct (shift_restricted Basis__evaluate BasisSmoother_fit_transform self v eval_points
                               Hlen Hne) as (lo & hi & Hlo & Hhi & Hshift).
    exists lo, hi. split; [exact Hlo |]. split; [exact Hhi |]. cbn zeta.
    split; [now rewrite py_min_Qmin |]. split; [now rewrite py_max_Qmax |].
    split; [intros t; apply registration.kept_points | exact Hshift].
  - intros FD basis_domain_range evaluate_shifted fd periodic_ext alpha tfine_tmp D1x_tmp
           st st' Hstep.
    apply registration.newton_step_spec in Hstep as (w & Hw & _ & _ & _ & _ & Htf & HD).
    unfold registration.working_state in Hw. cbn [negb] in Hw.
    destruct (registration.restrict_mesh_interval _ _ _ _ _ _ Hw)
      as (lo & hi & Hlo & Hhi & Hmesh).
    cbn zeta in Hmesh. destruct Hmesh as (Htfine & HD1x & _).
    exists lo, hi. split; [exact Hlo |]. split; [exact Hhi |]. cbn zeta.
    split; [now rewrite py_min_Qmin |]. split; [now rewrite py_max_Qmax |].
    rewrite Htf, Htfine. split; [reflexivity |].
    split; [intros t; apply registration.kept_points |].
    rewrite HD. exact HD1x.
Qed.

(** ** The registration of [FDataBasis] objects

    The functional object of [registration.py], instantiated by the
    [FDataBasis] of the monomial instance: [evaluate_shifted] evaluates
    sample [i] at the mesh moved by [delta_i], and the older [shift] cuts
    the domain when the extension is ["slice"]. *)

Definition fd_evaluate_basis (fd : @FDataBasis basis_family) (pts : list Q) (d : Z)
  : list (list Q) :=
  match evaluate monomial_evaluate fd pts d with
  | Ok v => v
  | Raise _ => []
  end.

Definition fd_evaluate_shifted (fd : @FDataBasis basis_family) (pts delta : list Q)
           (ext : bool) : list (list Q) :=
  match evaluate_unaligned monomial_evaluate fd
                           (map (fun s => map (fun t => t + s) pts) delta) 0 with
  | Ok v => v
  | Raise _ => []
  end.

Definition fd_shift_ext (fd : @FDataBasis basis_family) (delta : list Q)
           (ext : registration.ext_value) (tfine_ : list Q)
  : result (@FDataBasis basis_family) :=
  outcome (m_shift fd (ShiftVector delta)
                   match ext with
                   | registration.ext_slice => true
                   | _ => false
                   end
                   (Some tfine_)).

Definition slice_by_default (fd : @FDataBasis basis_family) : registration.ext_value :=
  registration.ext_slice.

Definition m_registration_loop :=
  registration.registration_loop n_samples fd_n_basis fd_domain_range slice_by_default
                                 fd_evaluate_basis fd_evaluate_shifted registration.float64.

Definition m_landmark_shift :=
  registration.landmark_shift n_samples fd_domain_range fd_shift_ext.

Lemma fd_evaluate_basis_length fd pts :
  length (fd_evaluate_basis fd pts 1) = n_samples fd.
Proof.
  unfold fd_evaluate_basis, evaluate, _evaluate, Basis_evaluate. cbn.
  unfold tensordot. now rewrite length_map.
Qed.

Lemma fd_evaluate_shifted_length fd pts dl e :
  length dl = n_samples fd -> length (fd_evaluate_shifted fd pts dl e) = n_samples fd.
Proof.
  intros Hlen. unfold fd_evaluate_shifted, evaluate_unaligned.
  rewrite _evaluate_composed_rows by (rewrite length_map; lia).
  erewrite rmap_pure by (intros ip; unfold Basis_evaluate; cbn; reflexivity).
  rewrite length_map, length_combine, length_map, Hlen. unfold n_samples, shape0. lia.
Qed.

(** The lines [t] and [t + 1/2] on the mesh 0, 1/4, 1/2, 3/4, 1. *)
Definition two_lines : @FDataBasis basis_family := monomial_fd 2 [[0; 1]; [1 # 2; 1]].
Definition quarter_mesh : list Q := [0; 1 # 4; 1 # 2; 3 # 4; 1].

(** With the default tolerance the first pass moves the lines onto each
    other and the second finds nothing left to do. *)
Example registration_run :
  match m_registration_loop two_lines registration.default_maxiter registration.default_tol
                            registration.ext_default registration.default_alpha
                            [] quarter_mesh with
  | Ok st => map Qred (registration.delta st) = [1 # 4; - (1 # 4)]
             /\ registration.iter st = 2%Z
             /\ Qred (registration.max_diff st) = 0
  | Raise _ => False
  end.
Proof. vm_compute. auto. Qed.

(** With [tol = 0.25] the largest update of the first pass is exactly
    [tol]: the loop stops after this single pass, although the update is
    not below [tol] and [maxiter = 5] passes are not used up. *)
Lemma stopping_rule_counterexample :
  exists final,
    m_registration_loop two_lines registration.default_maxiter (1 # 4)
                        registration.ext_default registration.default_alpha [] quarter_mesh
    = Ok final
    /\ registration.iter final = 1%Z
    /\ registration.max_diff final == 1 # 4
    /\ ~ (registration.max_diff final < 1 # 4)
    /\ registration.iter final <> registration.default_maxiter.
Proof.
  eexists. split; [vm_compute; reflexivity |].
  cbn. split; [reflexivity |]. split; [reflexivity |].
  split; [unfold Qlt; cbn; lia | discriminate].
Qed.

(** The second-order terms of the two lines on the mesh of quarters are
    [1] on the whole mesh and [1/2] on the part of it the passes keep. *)
Lemma two_lines_nonzero_d2 (st0 : registration.loop_state) :
  registration.initial_state n_samples fd_n_basis fd_domain_range fd_evaluate_basis
                             registration.float64 two_lines registration.default_tol
                             [] quarter_mesh
  = Ok st0 ->
  registration.nonzero_d2 fd_domain_range fd_evaluate_shifted two_lines false false
                          registration.default_alpha registration.default_tol st0 2.
Proof.
  intros H. vm_compute in H. injection H as <-.
  intros j stj w Hj Hrun _ Hw.
  do 2 (destruct j as [| j];
        [vm_compute in Hrun; injection Hrun as <-;
         vm_compute in Hw; injection Hw as <-;
         repeat constructor; intros Hz; vm_compute in Hz; discriminate Hz |]).
  lia.
Qed.

Lemma newton_iteration_and_stopping_rule_witness :
  exists final,
    m_registration_loop two_lines 2 registration.default_tol
                        registration.ext_default registration.default_alpha [] quarter_mesh
    = Ok final
    /\ (registration.max_diff final <= registration.default_tol
        \/ registration.iter final = 2%Z).
Proof.
  destruct (registration.newton_iteration_and_stopping_rule
              n_samples fd_n_basis fd_domain_range slice_by_default
              fd_evaluate_basis fd_evaluate_shifted registration.float64
              two_lines 2%Z registration.default_tol
              registration.ext_default registration.default_alpha [] quarter_mesh false false)
    as (st0 & final & k & _ & Hloop & _ & Hiter & _ & _ & Hstop & _).
  - cbn. lia.
  - apply fd_evaluate_basis_length.
  - apply fd_evaluate_shifted_length.
  - left. reflexivity.
  - intros _. reflexivity.
  - reflexivity.
  - apply two_lines_nonzero_d2.
  - exists final. split; [exact Hloop |].
    destruct Hstop as [Hs | Hk]; [now left | right].
    rewrite Hiter, Hk. reflexivity.
Defined.

Lemma landmark_shift_minimize_witness :
  exists shifts,
    m_landmark_shift two_lines [2 # 10; 8 # 10] registration.minimize
                     registration.ext_default [] true
    = Ok (registration.shifts_only shifts)
    /\ Forall2 Qeq shifts [- (3 # 10); 3 # 10].
Proof.
  destruct (proj2 (proj2 (registration.landmark_shift_minimize
                            n_samples fd_domain_range fd_shift_ext
                            two_lines [2 # 10; 8 # 10] registration.ext_default []))
                  eq_refl)
    as (p & shifts & _ & _ & Hshift & Hval).
  exists shifts. split; [exact Hshift | exact Hval].
Defined.

Lemma restricted_working_interval_witness :
  exists lo hi,
    is_least lo [1 # 4; - (1 # 4)] /\ is_greatest hi [1 # 4; - (1 # 4)]
    /\ fst (fd_domain_range two_lines) - py_min lo 0
       == fst (fd_domain_range two_lines) - Qmin 0 lo
    /\ snd (fd_domain_range two_lines) - py_max hi 0
       == snd (fd_domain_range two_lines) - Qmax 0 hi.
Proof.
  destruct (proj1 restricted_working_interval basis_family monomial_evaluate monomial_smoother
                  two_lines [1 # 4; - (1 # 4)] (Some quarter_mesh) eq_refl)
    as (lo & hi & Hlo & Hhi & Ha & Hb & _); [discriminate |].
  exists lo, hi. repeat split; try apply Hlo; try apply Hhi; assumption.
Defined.

(** The same call, run: the domain shrinks to [[1/4, 3/4]] and the three
    mesh points inside it are kept. *)
Example shift_restricted_run :
  exists data b,
    calls (m_shift two_lines (ShiftVector [1 # 4; - (1 # 4)]) true (Some quarter_mesh))
    = [call_smoother data [1 # 4; 1 # 2; 3 # 4] b]
    /\ domain_range b = (1 # 4, 3 # 4).
Proof. do 2 eexists. split; [vm_compute; reflexivity | reflexivity]. Qed.

(** ** Instances of the further properties of the registration functions *)

Definition m_shift_registration :=
  registration.shift_registration n_samples fd_n_basis fd_domain_range slice_by_default
                                  fd_evaluate_basis fd_evaluate_shifted fd_shift_ext
                                  registration.float64.

Lemma shift_registration_one_shift_per_sample_witness :
  exists shifts,
    m_shift_registration two_lines 2 registration.default_tol
                         registration.ext_default registration.default_alpha
                         [] quarter_mesh true
    = Ok (registration.shifts_only shifts)
    /\ length shifts = 2%nat.
Proof.
  refine (proj1 (registration.shift_registration_one_shift_per_sample
                   n_samples fd_n_basis fd_domain_range slice_by_default
                   fd_evaluate_basis fd_evaluate_shifted fd_shift_ext registration.float64
                   two_lines 2%Z registration.default_tol
                   registration.ext_default registration.default_alpha [] quarter_mesh
                   false false _ _ _ _ _ _) _).
  - cbn. lia.
  - apply fd_evaluate_basis_length.
  - apply fd_evaluate_shifted_length.
  - left. reflexivity.
  - reflexivity.
  - apply two_lines_nonzero_d2.
  - intros _. reflexivity.
Defined.

(** The same two lines with the integer shifts [0, 0] given as the initial
    ones: the first pass cannot write its update into the integer array,
    where the same shifts as floats give the registration above. *)
Example shift_registration_integer_initial :
  registration.shift_registration n_samples fd_n_basis fd_domain_range slice_by_default
                                  fd_evaluate_basis fd_evaluate_shifted fd_shift_ext
                                  registration.int64
                                  two_lines 2 registration.default_tol
                                  registration.ext_default registration.default_alpha
                                  [0; 0] quarter_mesh true
  = Raise TypeError.
Proof. reflexivity. Qed.

(** The two lines again: after the two passes of the default call, the
    mesh handed on lies in the domain [(0, 1)] of the basis. *)
Lemma registration_mesh_witness :
  exists final,
    m_registration_loop two_lines registration.default_maxiter registration.default_tol
                        registration.ext_default registration.default_alpha [] quarter_mesh
    = Ok final
    /\ forall t, In t (registration.tfine final) -> 0 <= t /\ t <= 1.
Proof.
  assert (H0 : exists st0,
             registration.initial_state n_samples fd_n_basis fd_domain_range fd_evaluate_basis
                                        registration.float64
                                        two_lines registration.default_tol [] quarter_mesh
             = Ok st0)
    by (eexists; reflexivity).
  destruct H0 as [st0 H0].
  assert (H1 : exists final,
             m_registration_loop two_lines registration.default_maxiter
                                 registration.default_tol registration.ext_default
                                 registration.default_alpha [] quarter_mesh
             = Ok final
             /\ (0 < registration.iter final)%Z)
    by (eexists; split; [vm_compute; reflexivity | reflexivity]).
  destruct H1 as (final & H1 & Hiter).
  exists final. split; [exact H1 |].
  exact (proj2 (proj2 (registration.registration_mesh
                         n_samples fd_n_basis fd_domain_range slice_by_default
                         fd_evaluate_basis fd_evaluate_shifted registration.float64
                         two_lines registration.default_maxiter registration.default_tol
                         registration.ext_default registration.default_alpha [] quarter_mesh
                         false false st0 final H0 eq_refl H1))
               eq_refl Hiter).
Defined.

Lemma landmark_minimize_optimal_witness :
  exists r,
    In r (map (fun l => l - ((8 # 10) + (2 # 10)) / 2) [2 # 10; 8 # 10])
    /\ (exists s, In s (map (fun l => l - ((8 # 10) + (2 # 10)) / 2) [2 # 10; 8 # 10])
                  /\ s == - r)
    /\ (forall s, In s (map (fun l => l - ((8 # 10) + (2 # 10)) / 2) [2 # 10; 8 # 10]) ->
                  Qabs s <= r)
    /\ (forall q : Q, exists l, In l [2 # 10; 8 # 10] /\ r <= Qabs (l - q)).
Proof.
  apply (registration.landmark_minimize_optimal
           n_samples fd_domain_range fd_shift_ext
           two_lines [2 # 10; 8 # 10] registration.ext_default []).
  reflexivity.
Defined.

Lemma landmark_mean_shifts_sum_to_zero_witness :
  length (map (fun l => l - registration.np_mean [2 # 10; 8 # 10]) [2 # 10; 8 # 10]) = 2%nat
  /\ qsum (map (fun l => l - registration.np_mean [2 # 10; 8 # 10]) [2 # 10; 8 # 10]) == 0.
Proof.
  apply (registration.landmark_mean_shifts_sum_to_zero
           n_samples fd_domain_range fd_shift_ext
           two_lines [2 # 10; 8 # 10] registration.ext_default []).
  reflexivity.
Defined.

(** ** [skfda/ml/regression/linear_model.py] *)

Module linear_model.

Section LinearFunctionalRegression.

Context {family : Type}.

(** The class [Constant] of bases with the single function 1. *)
Variable Constant : family.

(** The Python values met as outcome, predictors and entries of
    [beta_basis]: functional objects, bases, plain lists of numbers, and
    anything else. *)
Inductive pyobj : Type :=
| py_fdata (fd : @FDataBasis family)
| py_basis (b : @Basis family)
| py_list (l : list Q)
| py_other.

(** The two mutable objects [fit] holds references to: the caller's list
    [X] of predictors and the list [self.beta_basis] of the estimator. *)
Record heap : Type := mk_heap {
  X : list pyobj;
  beta_basis : list pyobj
}.

(** Code that reads and writes these objects and may raise. *)
Definition St (A : Type) : Type := heap -> heap * result A.

Definition st_ret {A} (a : A) : St A := fun h => (h, Ok a).
Definition st_raise {A} (e : exn) : St A := fun h => (h, Raise e).
Definition st_lift {A} (r : result A) : St A := fun h => (h, r).
Definition st_bind {A B} (m : St A) (k : A -> St B) : St B :=
  fun h => match m h with
           | (h', Ok a) => k a h'
           | (h', Raise e) => (h', Raise e)
           end.

Notation "x <-- m ;; k" := (st_bind m (fun x => k))
  (at level 61, m at next level, right associativity).

Definition read_X : St (list pyobj) := fun h => (h, Ok (X h)).
Definition read_beta_basis : St (list pyobj) := fun h => (h, Ok (beta_basis h)).

Fixpoint set_nth {A} (j : nat) (v : A) (l : list A) : list A :=
  match l, j with
  | [], _ => []
  | _ :: l', O => v :: l'
  | a :: l', S j' => a :: set_nth j' v l'
  end.

(** The assignments [x[j] = v] and [self.beta_basis[j] = v]. *)
Definition write_X (j : nat) (v : pyobj) : St unit :=
  fun h => ({| X := set_nth j v (X h); beta_basis := beta_basis h |}, Ok tt).
Definition write_beta_basis (j : nat) (v : pyobj) : St unit :=
  fun h => ({| X := X h; beta_basis := set_nth j v (beta_basis h) |}, Ok tt).

Fixpoint st_for {A} (l : list A) (body : A -> St unit) : St unit :=
  match l with
  | [] => st_ret tt
  | a :: l' => _ <-- body a ;; st_for l' body
  end.

(** The attribute reads [o.nsamples] and [o.nbasis].  No class among the
    sources has these attributes: [FDataBasis] has [n_samples] and
    [n_basis], [Basis] has [n_basis], and a list has none of them.  The
    reads raise. *)
Definition nsamples (o : pyobj) : result nat :=
  match o with
  | py_fdata _ => Raise AttributeError
  | py_basis _ => Raise AttributeError
  | py_list _ => Raise AttributeError
  | py_other => Raise AttributeError
  end.

Definition nbasis (o : pyobj) : result nat :=
  match o with
  | py_fdata _ => Raise AttributeError
  | py_basis _ => Raise AttributeError
  | py_list _ => Raise AttributeError
  | py_other => Raise AttributeError
  end.

(** [FDataBasis(Constant(domain_range), numpy.asarray(l).reshape((-1, 1)))]. *)
Definition constant_fdata (dr : Q * Q) (l : list Q) : result (@FDataBasis family) :=
  b <~ Basis__init__ Constant (Some dr) 1 ;;
  FDataBasis__init__ b (Arr2 {| shape1 := 1; rows := map (fun c => [c]) l |}).

(** [any(y.nsamples != xfd.nsamples for xfd in x)]: for every entry of
    [x] in turn, [y.nsamples] is read, then the attribute of the entry. *)
Fixpoint any_nsamples_differ (y : pyobj) (x : list pyobj) : result bool :=
  match x with
  | [] => Ok false
  | xfd :: x' =>
      n <~ nsamples y ;;
      m <~ nsamples xfd ;;
      if negb (n =? m)%nat then Ok true else any_nsamples_differ y x'
  end.

Definition is_basis (o : pyobj) : bool :=
  match o with
  | py_basis _ => true
  | _ => false
  end.

(** [LinearFunctionalRegression._argcheck]: the checked outcome and
    weights ([x], also returned, is the caller's list itself). *)
Definition _argcheck (y : pyobj) (weights : option (list Q))
  : St (@FDataBasis family * list Q) :=
  match y with
  | py_fdata yfd =>
      x <-- read_X ;;
      beta <-- read_beta_basis ;;
      let xlen := length x in
      let blen := length beta in
      if negb (blen =? xlen)%nat then st_raise ValueError
      else
        _ <-- st_for (seq 0 xlen)
                (fun j =>
                   x <-- read_X ;;
                   match nth j x py_other with
                   | py_list l =>
                       xj <-- st_lift (constant_fdata (fd_domain_range yfd) l) ;;
                       write_X j (py_fdata xj)
                   | _ => st_ret tt
                   end) ;;
        x <-- read_X ;;
        differ <-- st_lift (any_nsamples_differ y x) ;;
        if differ then st_raise ValueError
        else
          beta <-- read_beta_basis ;;
          if existsb (fun b => negb (is_basis b)) beta then st_raise ValueError
          else
            weights <-- st_lift match weights with
                                | None => n <~ nsamples y ;; Ok (repeat 1 n)
                                | Some w => Ok w
                                end ;;
            n <-- st_lift (nsamples y) ;;
            if negb (length weights =? n)%nat then st_raise ValueError
            else if existsb (fun w => Qltb w 0) weights then st_raise ValueError
                 else st_ret (yfd, weights)
  | _ => st_raise ValueError
  end.

(** Lines 26 to 52 of [fit]: the block normal equations assembled from
    inner products and solved by [numpy.linalg.inv], for the sizes
    [nbasis] of the coefficient bases read before.  They write nothing;
    the coefficient vector [betacoefs] they produce is a variable here. *)
Variable normal_equations :
  @FDataBasis family -> @FDataBasis family -> list pyobj -> list Q -> list pyobj ->
  list nat -> result (list Q).

(** The last loop of [fit]: every entry of [self.beta_basis] is replaced
    by the object holding its slice of [betacoefs], of the length
    [self.beta_basis[j].nbasis]. *)
Fixpoint write_back (j idx : nat) (bases : list pyobj) (betacoefs : list Q) : St unit :=
  match bases with
  | [] => st_ret tt
  | o :: bases' =>
      n <-- st_lift (nbasis o) ;;
      fd <-- st_lift match o with
                     | py_basis b => FDataBasis__init__ b (Arr1 (firstn n (skipn idx betacoefs)))
                     | _ => Raise AttributeError
                     end ;;
      _ <-- write_beta_basis j (py_fdata fd) ;;
      write_back (S j) (idx + n) bases' betacoefs
  end.

(** [LinearFunctionalRegression.fit]: the checks, the constant object
    [onesfd] on the domain of the outcome, the sizes of the coefficient
    bases, the normal equations, and the loop that writes the coefficient
    functions. *)
Definition fit (y : pyobj) (sample_weight : option (list Q)) : St unit :=
  checked <-- _argcheck y sample_weight ;;
  x <-- read_X ;;
  beta <-- read_beta_basis ;;
  onesfd <-- st_lift (b <~ Basis__init__ Constant (Some (fd_domain_range (fst checked))) 1 ;;
                      FDataBasis__init__ b (Arr1 [1])) ;;
  sizes <-- st_lift (rmap nbasis beta) ;;
  betacoefs <-- st_lift (normal_equations (fst checked) onesfd x (snd checked) beta sizes) ;;
  write_back 0 0 beta betacoefs.

(** *** What a failing [_argcheck] leaves behind *)

Lemma st_for_beta_basis {A} (l : list A) (body : A -> St unit) :
  (forall a h, beta_basis (fst (body a h)) = beta_basis h) ->
  forall h, beta_basis (fst (st_for l body h)) = beta_basis h.
Proof.
  intros Hbody. induction l as [| a l IH]; intros h; cbn; [reflexivity |].
  unfold st_bind. specialize (Hbody a h).
  destruct (body a h) as [h' [[] | e]]; cbn in *; [rewrite IH |]; assumption.
Qed.

(** [_argcheck] never writes [self.beta_basis]. *)
Lemma _argcheck_beta_basis (y : pyobj) (weights : option (list Q)) (h : heap) :
  beta_basis (fst (_argcheck y weights h)) = beta_basis h.
Proof.
  destruct y as [yfd | | |]; try reflexivity.
  unfold _argcheck, st_bind, read_X, read_beta_basis.
  destruct (negb _); [reflexivity |].
  match goal with |- context [st_for ?l ?body h] =>
    pose proof (st_for_beta_basis l body) as Hfor
  end.
  match type of Hfor with ?P -> _ => assert (Hbody : P) end.
  { intros j h0. unfold st_bind, read_X.
    destruct (nth j (X h0) py_other); try reflexivity.
    unfold st_lift. destruct (constant_fdata _ _); reflexivity. }
  specialize (Hfor Hbody h).
  destruct (st_for _ _ h) as [h1 [[] | e]]; cbn in *; [| exact Hfor].
  unfold st_lift. destruct (any_nsamples_differ _ _) as [[|] | e]; cbn; try exact Hfor.
  destruct (existsb _ (beta_basis h1)); cbn; [exact Hfor |].
  destruct weights; exact Hfor.
Qed.

(** A list of predictors without plain lists is not written either. *)
Definition no_plain_list (x : list pyobj) : Prop :=
  forall l, ~ In (py_list l) x.

Lemma st_for_no_plain_list (yfd : @FDataBasis family) (js : list nat) (h : heap) :
  no_plain_list (X h) ->
  st_for js (fun j =>
               x <-- read_X ;;
               match nth j x py_other with
               | py_list l =>
                   xj <-- st_lift (constant_fdata (fd_domain_range yfd) l) ;;
                   write_X j (py_fdata xj)
               | _ => st_ret tt
               end) h = (h, Ok tt).
Proof.
  intros Hno. induction js as [| j js IH]; cbn; [reflexivity |].
  unfold st_bind at 1. unfold st_bind at 1. unfold read_X at 1.
  destruct (nth j (X h) py_other) as [fd | b | l |] eqn:Hj; cbn; try exact IH.
  exfalso. apply (Hno l). rewrite <- Hj.
  destruct (nth_in_or_default j (X h) py_other) as [Hin | Hd]; [exact Hin |].
  rewrite Hj in Hd. discriminate.
Qed.

Lemma _argcheck_no_plain_list (y : pyobj) (weights : option (list Q)) (h : heap) :
  no_plain_list (X h) -> fst (_argcheck y weights h) = h.
Proof.
  intros Hno. destruct y as [yfd | | |]; try reflexivity.
  unfold _argcheck. unfold st_bind at 1. unfold st_bind at 1.
  unfold read_X at 1, read_beta_basis at 1.
  destruct (negb _); [reflexivity |].
  unfold st_bind at 1. rewrite (st_for_no_plain_list yfd _ h Hno).
  unfold st_bind, read_X, read_beta_basis, st_lift.
  destruct (any_nsamples_differ _ _) as [[|] | e]; cbn; try reflexivity.
  destruct (existsb _ (beta_basis h)); cbn; [reflexivity |].
  destruct weights; reflexivity.
Qed.

(** When [fit] fails in [_argcheck], the heap is the one [_argcheck] left. *)
Lemma fit_validation_error (y : pyobj) (w : option (list Q)) (h : heap) (e : exn) :
  snd (_argcheck y w h) = Raise e ->
  fit y w h = (fst (_argcheck y w h), Raise e).
Proof.
  intros H. unfold fit. unfold st_bind at 1.
  destruct (_argcheck y w h) as [h' [a | e']]; cbn in *; [discriminate |].
  now injection H as ->.
Qed.


(** *** What [_argcheck] establishes, and what it leaves alone *)

(** The body of the conversion loop of [_argcheck], and the checks after
    it. *)
Definition conversion (yfd : @FDataBasis family) (j : nat) : St unit :=
  x <-- read_X ;;
  match nth j x py_other with
  | py_list l =>
      xj <-- st_lift (constant_fdata (fd_domain_range yfd) l) ;;
      write_X j (py_fdata xj)
  | _ => st_ret tt
  end.

Definition final_checks (yfd : @FDataBasis family) (weights : option (list Q)) (h : heap)
  : result (@FDataBasis family * list Q) :=
  differ <~ any_nsamples_differ (py_fdata yfd) (X h) ;;
  if differ then Raise ValueError
  else if existsb (fun b => negb (is_basis b)) (beta_basis h) then Raise ValueError
       else
         weights <~ match weights with
                    | None => n <~ nsamples (py_fdata yfd) ;; Ok (repeat 1 n)
                    | Some w => Ok w
                    end ;;
         n <~ nsamples (py_fdata yfd) ;;
         if negb (length weights =? n)%nat then Raise ValueError
         else if existsb (fun w => Qltb w 0) weights then Raise ValueError
              else Ok (yfd, weights).

Lemma _argcheck_unfold (yfd : @FDataBasis family) (w : option (list Q)) (h : heap) :
  _argcheck (py_fdata yfd) w h
  = if negb (length (beta_basis h) =? length (X h))%nat then (h, Raise ValueError)
    else match st_for (seq 0 (length (X h))) (conversion yfd) h with
         | (h1, Ok _) => (h1, final_checks yfd w h1)
         | (h1, Raise e) => (h1, Raise e)
         end.
Proof.
  unfold _argcheck. unfold st_bind at 1. unfold st_bind at 1.
  unfold read_X at 1, read_beta_basis at 1.
  destruct (negb _); [reflexivity |].
  unfold st_bind at 1. fold (conversion yfd).
  destruct (st_for (seq 0 (length (X h))) (conversion yfd) h) as [h1 [[] | e]]; [| reflexivity].
  unfold final_checks, st_bind, read_X, read_beta_basis, st_lift, st_raise, st_ret.
  destruct (any_nsamples_differ _ _) as [[|] | e]; cbn [rbind]; try reflexivity.
  destruct (existsb _ (beta_basis h1)); [reflexivity |].
  destruct w; reflexivity.
Qed.

Lemma length_set_nth {A} (j : nat) (v : A) (l : list A) : length (set_nth j v l) = length l.
Proof.
  revert j. induction l as [| a l IH]; intros [| j]; cbn; try reflexivity. now rewrite IH.
Qed.

Lemma nth_set_nth_eq {A} (j : nat) (v d : A) (l : list A) :
  (j < length l)%nat -> nth j (set_nth j v l) d = v.
Proof.
  revert j. induction l as [| a l IH]; intros [| j] Hj; cbn in *; try lia; [reflexivity |].
  apply IH. lia.
Qed.

Lemma nth_set_nth_neq {A} (j k : nat) (v d : A) (l : list A) :
  j <> k -> nth k (set_nth j v l) d = nth k l d.
Proof.
  revert j k. induction l as [| a l IH]; intros [| j] [| k] Hne; cbn; try reflexivity; try lia.
  apply IH. lia.
Qed.

Lemma nth_py_list_in_range (x : list pyobj) (j : nat) (l : list Q) :
  nth j x py_other = py_list l -> (j < length x)%nat.
Proof.
  intros H. destruct (Nat.lt_ge_cases j (length x)) as [Hj | Hj]; [exact Hj |].
  rewrite nth_overflow in H by exact Hj. discriminate.
Qed.

(** The conversion loop: it writes nothing but entries of [X] that are
    plain lists, each of which becomes the constant functional object of
    its numbers; when it completes, no visited entry is a plain list. *)
Lemma conversion_loop (yfd : @FDataBasis family) (js : list nat) :
  forall h h' r,
    st_for js (conversion yfd) h = (h', r) ->
    beta_basis h' = beta_basis h
    /\ length (X h') = length (X h)
    /\ (forall j, (forall l, nth j (X h) py_other <> py_list l) ->
                  nth j (X h') py_other = nth j (X h) py_other)
    /\ (forall j l, nth j (X h) py_other = py_list l ->
                    nth j (X h') py_other = py_list l
                    \/ exists fd, constant_fdata (fd_domain_range yfd) l = Ok fd
                                  /\ nth j (X h') py_other = py_fdata fd)
    /\ (r = Ok tt -> forall j, In j js -> forall l, nth j (X h') py_other <> py_list l).
Proof.
  induction js as [| j js IH]; intros h h' r H; cbn [st_for] in H.
  - unfold st_ret in H. injection H as <- <-.
    repeat split; auto; intros _ j [].
  - unfold st_bind in H at 1.
    assert (Hbody : (exists l fd, nth j (X h) py_other = py_list l
                                  /\ constant_fdata (fd_domain_range yfd) l = Ok fd
                                  /\ conversion yfd j h
                                     = ({| X := set_nth j (py_fdata fd) (X h);
                                           beta_basis := beta_basis h |}, Ok tt))
                    \/ (exists l e, nth j (X h) py_other = py_list l
                                    /\ conversion yfd j h = (h, Raise e))
                    \/ ((forall l, nth j (X h) py_other <> py_list l)
                        /\ conversion yfd j h = (h, Ok tt))).
    { unfold conversion, st_bind, read_X, st_lift, write_X, st_ret.
      destruct (nth j (X h) py_other) as [fd | b | l |] eqn:Hj;
        try (right; right; split; [intros l'; discriminate | reflexivity]).
      destruct (constant_fdata (fd_domain_range yfd) l) as [fd | e] eqn:Hc.
      - left. now exists l, fd.
      - right. left. now exists l, e. }
    destruct Hbody as [(l & fd & Hj & Hc & Hb) | [(l & e & Hj & Hb) | (Hj & Hb)]];
      rewrite Hb in H.
    + apply IH in H as (Hbeta & Hlen & Hkeep & Hconv & Hdone). cbn [X beta_basis] in *.
      pose proof (nth_py_list_in_range _ _ _ Hj) as Hrange.
      assert (Hfd : nth j (X h') py_other = py_fdata fd).
      { rewrite Hkeep; [now apply nth_set_nth_eq |].
        intros l'. rewrite nth_set_nth_eq by exact Hrange. discriminate. }
      split; [exact Hbeta |]. split; [now rewrite Hlen, length_set_nth |].
      split; [| split].
      * intros k Hk. destruct (Nat.eq_dec j k) as [<- | Hne]; [now elim (Hk l) |].
        rewrite Hkeep; [now apply nth_set_nth_neq |].
        intros l'. rewrite nth_set_nth_neq by exact Hne. apply Hk.
      * intros k l' Hk. destruct (Nat.eq_dec j k) as [<- | Hne].
        -- right. exists fd. split; [congruence | exact Hfd].
        -- apply Hconv. now rewrite nth_set_nth_neq.
      * intros Hr k [<- | Hk] l'; [rewrite Hfd; discriminate | now apply Hdone].
    + injection H as <- <-. repeat split; auto. discriminate.
    + apply IH in H as (Hbeta & Hlen & Hkeep & Hconv & Hdone).
      repeat split; auto.
      intros Hr k [<- | Hk] l'; [rewrite Hkeep by exact Hj; apply Hj | now apply Hdone].
Qed.

(** With every plain list convertible, the conversion loop completes. *)
Lemma conversion_loop_ok (yfd : @FDataBasis family) (js : list nat) :
  forall h,
    (forall j l, nth j (X h) py_other = py_list l ->
                 exists fd, constant_fdata (fd_domain_range yfd) l = Ok fd) ->
    exists h', st_for js (conversion yfd) h = (h', Ok tt).
Proof.
  induction js as [| j js IH]; intros h Hconv; cbn [st_for]; [now exists h |].
  unfold st_bind at 1. unfold conversion at 1. unfold st_bind at 1. unfold read_X at 1.
  destruct (nth j (X h) py_other) as [fd | b | l |] eqn:Hj;
    try (unfold st_ret at 1; now apply IH).
  destruct (Hconv j l Hj) as [fd Hfd].
  unfold st_bind, st_lift, write_X. rewrite Hfd. apply IH. cbn [X].
  intros k l' Hk. destruct (Nat.eq_dec j k) as [<- | Hne].
  - rewrite nth_set_nth_eq in Hk by (eapply nth_py_list_in_range; exact Hj). discriminate.
  - rewrite nth_set_nth_neq in Hk by exact Hne. now apply (Hconv k).
Qed.

(** The only exception of the conversion of a list is the [ValueError] of
    an invalid domain range. *)
Lemma constant_fdata_error (dr : Q * Q) (l : list Q) (e : exn) :
  constant_fdata dr l = Raise e -> e = ValueError.
Proof.
  unfold constant_fdata, Basis__init__, _check_domain, FDataBasis__init__. cbn.
  destruct (Qle_bool (snd dr) (fst dr)); cbn; intros H; congruence.
Qed.

Lemma conversion_loop_error (yfd : @FDataBasis family) (js : list nat) :
  forall h h' e, st_for js (conversion yfd) h = (h', Raise e) -> e = ValueError.
Proof.
  induction js as [| j js IH]; intros h h' e H; cbn [st_for] in H; [discriminate |].
  unfold st_bind at 1 in H. unfold conversion at 1 in H.
  unfold st_bind at 1, read_X at 1 in H.
  destruct (nth j (X h) py_other) as [fd | b | l |];
    try (unfold st_ret at 1 in H; now apply IH in H).
  unfold st_bind, st_lift, write_X in H.
  destruct (constant_fdata (fd_domain_range yfd) l) as [fd | e'] eqn:Hc.
  - now apply IH in H.
  - injection H as _ <-. now apply constant_fdata_error in Hc.
Qed.

(** The checks after the loop stop at the first read of [y.nsamples]: in
    the generator over the predictors or, without predictors (and so
    without coefficient bases), where the weights are made or counted. *)
Lemma final_checks_raise (yfd : @FDataBasis family) (w : option (list Q)) (h : heap) :
  length (beta_basis h) = length (X h) ->
  final_checks yfd w h = Raise AttributeError.
Proof.
  unfold final_checks. intros Hlen. destruct (X h) as [| o x].
  - destruct (beta_basis h); [| discriminate]. cbn. now destruct w.
  - reflexivity.
Qed.

(** The call of [_argcheck] on a functional outcome, as many predictors as
    coefficient bases and lists that can be converted: every plain list
    among the predictors is replaced, and the call raises. *)
Lemma argcheck_converts (yfd : @FDataBasis family) (w : option (list Q)) (h : heap) :
  length (beta_basis h) = length (X h) ->
  (forall j l, nth j (X h) py_other = py_list l ->
               exists fd, constant_fdata (fd_domain_range yfd) l = Ok fd) ->
  exists h',
    _argcheck (py_fdata yfd) w h = (h', Raise AttributeError)
    /\ beta_basis h' = beta_basis h
    /\ length (X h') = length (X h)
    /\ (forall j, (forall l, nth j (X h) py_other <> py_list l) ->
                  nth j (X h') py_other = nth j (X h) py_other)
    /\ (forall j l, nth j (X h) py_other = py_list l ->
                    exists fd, constant_fdata (fd_domain_range yfd) l = Ok fd
                               /\ nth j (X h') py_other = py_fdata fd).
Proof.
  intros Hlen Hconv. rewrite _argcheck_unfold, Hlen, Nat.eqb_refl. cbn [negb].
  destruct (conversion_loop_ok yfd (seq 0 (length (X h))) h Hconv) as [h' Hloop].
  rewrite Hloop. exists h'.
  apply conversion_loop in Hloop as (Hbeta & HlenX & Hkeep & Hc & Hdone).
  split; [f_equal; apply final_checks_raise; congruence |].
  split; [exact Hbeta |]. split; [exact HlenX |]. split; [exact Hkeep |].
  intros j l Hj. destruct (Hc j l Hj) as [Hl | Hfd]; [| exact Hfd].
  exfalso. apply (Hdone eq_refl j) with (l := l); [| exact Hl].
  apply in_seq. pose proof (nth_py_list_in_range _ _ _ Hj). lia.
Qed.

(** X27.  No call of [_argcheck] returns, and so no call of [fit] does:
    [fit] fails with the exception of [_argcheck], on the heap [_argcheck]
    left, and never writes [self.beta_basis].  The exception is a
    [ValueError], with nothing written, when the outcome is not functional
    or the number of predictors is not the number of coefficient bases.
    Otherwise, when every plain list among the predictors can be
    converted, each of them is replaced by its functional object and the
    exception is the [AttributeError] of the read of [y.nsamples], an
    attribute [FDataBasis] does not have: the checks of the sample counts,
    of the coefficient bases and of the weights are never made. *)
Theorem argcheck_always_raises (y : pyobj) (w : option (list Q)) (h : heap) :
  exists e,
    snd (_argcheck y w h) = Raise e
    /\ fit y w h = (fst (_argcheck y w h), Raise e)
    /\ beta_basis (fst (fit y w h)) = beta_basis h
    /\ (e = ValueError \/ e = AttributeError)
    /\ ((forall yfd, y <> py_fdata yfd) \/ length (beta_basis h) <> length (X h) ->
        e = ValueError /\ fst (_argcheck y w h) = h)
    /\ (forall yfd,
          y = py_fdata yfd ->
          length (beta_basis h) = length (X h) ->
          (forall j l, nth j (X h) py_other = py_list l ->
                       exists fd, constant_fdata (fd_domain_range yfd) l = Ok fd) ->
          e = AttributeError
          /\ forall j l, nth j (X h) py_other = py_list l ->
                         exists fd, constant_fdata (fd_domain_range yfd) l = Ok fd
                                    /\ nth j (X (fst (_argcheck y w h))) py_other
                                       = py_fdata fd).
Proof.
  assert (Hfit : forall e, snd (_argcheck y w h) = Raise e ->
                           fit y w h = (fst (_argcheck y w h), Raise e)
                           /\ beta_basis (fst (fit y w h)) = beta_basis h).
  { intros e He. rewrite (fit_validation_error _ _ _ _ He). split; [reflexivity |].
    apply _argcheck_beta_basis. }
  assert (Hraise : forall h' e, _argcheck y w h = (h', Raise e) ->
                                snd (_argcheck y w h) = Raise e
                                /\ fit y w h = (fst (_argcheck y w h), Raise e)
                                /\ beta_basis (fst (fit y w h)) = beta_basis h).
  { intros h' e He. assert (Hs : snd (_argcheck y w h) = Raise e) by now rewrite He.
    split; [exact Hs | exact (Hfit e Hs)]. }
  destruct y as [yfd | b | l |].
  2-4: exists ValueError; destruct (Hraise h ValueError eq_refl) as (H1 & H2 & H3);
       split; [exact H1 |]; split; [exact H2 |]; split; [exact H3 |];
       split; [now left |]; split; [intros _; split; reflexivity |];
       intros yfd Hy; discriminate Hy.
  destruct (Nat.eq_dec (length (beta_basis h)) (length (X h))) as [Hlen | Hlen].
  - destruct (st_for (seq 0 (length (X h))) (conversion yfd) h) as [h1 [[] | e]] eqn:Hloop.
    + exists AttributeError.
      assert (He : _argcheck (py_fdata yfd) w h = (h1, Raise AttributeError)).
      { rewrite _argcheck_unfold, Hlen, Nat.eqb_refl. cbn [negb]. rewrite Hloop. f_equal.
        apply conversion_loop in Hloop as (Hbeta & HlenX & _).
        apply final_checks_raise. congruence. }
      destruct (Hraise _ _ He) as (H1 & H2 & H3).
      split; [exact H1 |]. split; [exact H2 |]. split; [exact H3 |]. split; [now right |].
      split; [intros [Hy | Hne]; [now elim (Hy yfd) | contradiction] |].
      intros yfd' Hy _ Hconv. injection Hy as <-. split; [reflexivity |].
      destruct (argcheck_converts yfd w h Hlen Hconv) as (h' & He' & _ & _ & _ & Hc).
      rewrite He'. exact Hc.
    + assert (He : _argcheck (py_fdata yfd) w h = (h1, Raise e)).
      { rewrite _argcheck_unfold, Hlen, Nat.eqb_refl. cbn [negb]. now rewrite Hloop. }
      pose proof (conversion_loop_error _ _ _ _ _ Hloop) as ->.
      exists ValueError. destruct (Hraise _ _ He) as (H1 & H2 & H3).
      split; [exact H1 |]. split; [exact H2 |]. split; [exact H3 |]. split; [now left |].
      split; [intros [Hy | Hne]; [now elim (Hy yfd) | contradiction] |].
      intros yfd' Hy _ Hconv. injection Hy as <-.
      destruct (argcheck_converts yfd w h Hlen Hconv) as (h' & He' & _).
      rewrite He' in He. discriminate He.
  - assert (He : _argcheck (py_fdata yfd) w h = (h, Raise ValueError)).
    { rewrite _argcheck_unfold.
      now destruct (Nat.eqb_spec (length (beta_basis h)) (length (X h))). }
    exists ValueError. destruct (Hraise _ _ He) as (H1 & H2 & H3).
    split; [exact H1 |]. split; [exact H2 |]. split; [exact H3 |]. split; [now left |].
    split; [intros _; now rewrite He |].
    intros yfd' _ Hlen'. contradiction.
Qed.

(** X28.  What [_argcheck] may write, whether it succeeds or raises:
    never [self.beta_basis], never the length of [X], never an entry of [X]
    that is not a plain list.  An entry that is a plain list is either
    still that list or has become the functional object of its numbers on
    the constant basis over the domain of the outcome. *)
Theorem argcheck_writes_only_lists (y : pyobj) (w : option (list Q)) (h : heap) :
  let h' := fst (_argcheck y w h) in
  beta_basis h' = beta_basis h
  /\ length (X h') = length (X h)
  /\ (forall j, (forall l, nth j (X h) py_other <> py_list l) ->
                nth j (X h') py_other = nth j (X h) py_other)
  /\ (forall j l, nth j (X h) py_other = py_list l ->
                  nth j (X h') py_other = py_list l
                  \/ exists yfd fd,
                       y = py_fdata yfd
                       /\ constant_fdata (fd_domain_range yfd) l = Ok fd
                       /\ nth j (X h') py_other = py_fdata fd).
Proof.
  cbn zeta. destruct y as [yfd | | |]; try solve [cbn; repeat split; auto].
  rewrite _argcheck_unfold. destruct (negb _); [cbn; repeat split; auto |].
  destruct (st_for _ _ h) as [h1 r] eqn:Hloop.
  apply conversion_loop in Hloop as (Hbeta & HlenX & Hkeep & Hconv & _).
  assert (Hfst : fst match r with
                     | Ok _ => (h1, final_checks yfd w h1)
                     | Raise e => (h1, Raise e)
                     end = h1) by (now destruct r).
  rewrite Hfst. repeat split; try assumption.
  intros j l Hj. destruct (Hconv j l Hj) as [Hl | (fd & Hfd & Hn)]; [now left |].
  right. now exists yfd, fd.
Qed.
End LinearFunctionalRegression.

(** *** A failing call that rewrites the caller's list *)

Definition constant_basis : @Basis basis_family :=
  {| basis_type := Constant; _domain_range := Some (0, 1); n_basis := 1 |}.

(** Two samples, one scalar predictor given as the plain list [[1, 2]] and
    one constant coefficient basis. *)
Definition outcome_y : @pyobj basis_family := py_fdata (monomial_fd 2 [[0; 1]; [1; 1]]).

Definition heap_before : @heap basis_family :=
  {| X := [py_list [1; 2]]; beta_basis := [py_basis constant_basis] |}.

Definition heap_after : @heap basis_family :=
  {| X := [py_fdata {| basis := constant_basis;
                       coefficients := {| shape1 := 1; rows := [[1]; [2]] |} |}];
     beta_basis := [py_basis constant_basis] |}.

(** C9.  A call of [fit] that fails can leave the caller's list [X]
    rewritten.  Whenever the outcome is functional, there are as many
    predictors as coefficient bases and the plain lists among the
    predictors can be converted, [fit] raises (the [AttributeError] of
    [y.nsamples], read after the conversion loop) with every plain list of
    [X] replaced by an [FDataBasis] on a constant basis; [self.beta_basis]
    is as before.  At the call with the predictor [[1, 2]] this happens
    whatever the weights are (negative, of the wrong length, or none),
    whatever the entry of [beta_basis] is, and with three numbers for the
    two samples of the outcome: the checks of the sample counts, of the
    bases and of the weights are not reached. *)
Theorem fit_validation_error_rewrites_X :
  (forall (family : Type) (Constant : family)
          (normal_equations :
             @FDataBasis family -> @FDataBasis family -> list (@pyobj family) -> list Q ->
             list (@pyobj family) -> list nat -> result (list Q))
          (yfd : @FDataBasis family) (w : option (list Q)) (h : @heap family)
          (j : nat) (l : list Q),
      length (beta_basis h) = length (X h) ->
      (forall k l', nth k (X h) py_other = py_list l' ->
                    exists fd, constant_fdata Constant (fd_domain_range yfd) l' = Ok fd) ->
      nth j (X h) py_other = py_list l ->
      exists h' fd,
        fit Constant normal_equations (py_fdata yfd) w h = (h', Raise AttributeError)
        /\ constant_fdata Constant (fd_domain_range yfd) l = Ok fd
        /\ nth j (X h') py_other = py_fdata fd
        /\ X h' <> X h
        /\ beta_basis h' = beta_basis h)
  /\ (forall normal_equations w,
        fit Constant normal_equations outcome_y w heap_before
        = (heap_after, Raise AttributeError))
  /\ (forall normal_equations,
        fit Constant normal_equations outcome_y (Some [1; - (1)]) heap_before
        = (heap_after, Raise AttributeError)
        /\ fit Constant normal_equations outcome_y (Some [1; 1; 1]) heap_before
           = (heap_after, Raise AttributeError)
        /\ fit Constant normal_equations outcome_y None
               {| X := [py_list [1; 2]]; beta_basis := [py_other] |}
           = ({| X := X heap_after; beta_basis := [py_other] |}, Raise AttributeError)
        /\ fit Constant normal_equations outcome_y None
               {| X := [py_list [1; 2; 3]]; beta_basis := [py_basis constant_basis] |}
           = ({| X := [py_fdata {| basis := constant_basis;
                                   coefficients := {| shape1 := 1;
                                                      rows := [[1]; [2]; [3]] |} |}];
                 beta_basis := [py_basis constant_basis] |}, Raise AttributeError))
  /\ X heap_after <> X heap_before
  /\ beta_basis heap_after = beta_basis heap_before.
Proof.
  split; [| split; [| split; [| split]]].
  - intros family Constant normal_equations yfd w h j l Hlen Hconv Hj.
    destruct (argcheck_converts Constant yfd w h Hlen Hconv)
      as (h' & He & Hbeta & _ & _ & Hc).
    destruct (Hc j l Hj) as (fd & Hfd & Hn).
    exists h', fd.
    assert (Hs : snd (_argcheck Constant (py_fdata yfd) w h) = Raise AttributeError)
      by now rewrite He.
    rewrite (fit_validation_error Constant normal_equations _ _ _ _ Hs), He.
    split; [reflexivity |]. split; [exact Hfd |]. split; [exact Hn |].
    split; [| exact Hbeta].
    intros HX. rewrite HX, Hj in Hn. discriminate Hn.
  - intros normal_equations w. reflexivity.
  - intros normal_equations. repeat split; reflexivity.
  - discriminate.
  - reflexivity.
Qed.

(** Before the conversion loop nothing has been written: a wrong number of
    predictors or an outcome that is not functional leaves [X] as it was. *)
Example fit_predictor_count_error :
  forall normal_equations,
    fit Constant normal_equations outcome_y None
        {| X := [py_list [1; 2]; py_list [3; 4]]; beta_basis := [py_basis constant_basis] |}
    = ({| X := [py_list [1; 2]; py_list [3; 4]]; beta_basis := [py_basis constant_basis] |},
       Raise ValueError).
Proof. reflexivity. Qed.

End linear_model.
